(** * SearchUtils: a shallow embedding of src/libs/SearchUtils.ts

    The search-query and search-result helpers of the application, written as
    Rocq functions, followed by the properties checked against them.

    Conventions of the embedding.
    - A JS string is a [string]; the characters used by the queries, keys and
      dates below are ASCII, where UTF-16 code-unit order and byte order agree.
    - A JS number that holds an identifier, an amount in cents or a comparator
      result is a [Z].
    - An optional field ([x?: T], or a field that may be [undefined]) is an
      [option].
    - A JS object used as a dictionary ([flatFilters], the results payload,
      [reportIDToTransactions]) is an association list in insertion order,
      which is the order in which [Object.keys], [Object.values] and
      [for ... in] enumerate keys that are not array indices.
    - Code that throws returns a [Completion]; code that mutates an object
      that the caller can still reach is written over an explicit store. *)

From Stdlib Require Import ZArith List String Ascii Bool Lia Permutation Sorted OrderedTypeEx.
From stdpp Require Import base option list gmap strings sorting.

Import ListNotations.
Local Open Scope Z_scope.
Local Open Scope list_scope.

(** ** JavaScript primitives *)

Module JS.

(** [s.startsWith(p)] *)
Definition startsWith (s p : string) : bool := String.prefix p s.

(** [a > b] on two strings: code-unit lexicographic order. *)
Definition string_gt (a b : string) : bool := String.ltb b a.

(** Truthiness of a string: the empty string is falsy. *)
Definition truthy (s : string) : bool := negb (String.eqb s EmptyString).

(** Truthiness of an optional string: [undefined] and [''] are falsy. *)
Definition truthy_opt (s : option string) : bool :=
  match s with Some x => truthy x | None => false end.

(** Truthiness of an optional number: [undefined] and [0] are falsy. *)
Definition truthy_num (n : option Z) : bool :=
  match n with Some x => negb (x =? 0) | None => false end.

Definition lower_ascii (c : ascii) : ascii :=
  let n := nat_of_ascii c in
  if ((65 <=? n) && (n <=? 90))%nat then ascii_of_nat (n + 32) else c.

(** [s.toLowerCase()], on ASCII letters. *)
Fixpoint toLowerCase (s : string) : string :=
  match s with
  | EmptyString => EmptyString
  | String c rest => String (lower_ascii c) (toLowerCase rest)
  end.

(** [Object.prototype[name]]: what [o[name]] finds on a plain object [o]
    that has no property [name] of its own.  The built-in function or object
    found there is written as the string it converts to (in V8), as values
    are wherever this module uses them. *)
Definition Object_prototype (name : string) : option string :=
  if String.eqb name "constructor" then Some "function Object() { [native code] }"
  else if String.eqb name "__proto__" then Some "[object Object]"
  else if existsb (String.eqb name)
            ["__defineGetter__"; "__defineSetter__"; "hasOwnProperty"; "__lookupGetter__";
             "__lookupSetter__"; "isPrototypeOf"; "propertyIsEnumerable"; "toString";
             "valueOf"; "toLocaleString"]
  then Some ("function " +:+ name +:+ "() { [native code] }")
  else None.

(** [parts.join(sep)] *)
Fixpoint join (sep : string) (parts : list string) : string :=
  match parts with
  | [] => EmptyString
  | [p] => p
  | p :: rest => p +:+ sep +:+ join sep rest
  end.

(** *** [Array.prototype.sort]

    ECMAScript fixes the result of [sort] only for a consistent comparator
    (the stable sorted permutation); otherwise the order is left to the
    engine.  The comparators of this file are not all consistent (one
    returns [0] whenever a value is missing, another never returns [0]), so
    an algorithm has to be chosen: this is the one V8 runs on an array of
    fewer than 64 elements (array-sort.tq: [CountAndMakeRun] finds the
    initial run and reverses it when it is strictly descending, then
    [BinaryInsertionSort] inserts every later element by binary search).
    Longer arrays are cut in several runs that V8 merges; the merge is not
    modelled, the whole array is treated as one forced run. *)
Section ArraySort.
Context {A : Type}.
Variable comparefn : A -> A -> Z.

(** The loop of [CountAndMakeRun]: how many more elements extend the run
    that ends in [previousElement]. *)
Fixpoint runTail (isDescending : bool) (previousElement : A) (rest : list A) : nat :=
  match rest with
  | [] => 0%nat
  | currentElement :: rest' =>
      let order := comparefn currentElement previousElement in
      if (if isDescending then 0 <=? order else order <? 0) then 0%nat
      else S (runTail isDescending currentElement rest')
  end.

(** [CountAndMakeRun(0, length)]: the length of the initial run, and the
    work array with that run reversed when it was descending. *)
Definition CountAndMakeRun (workArray : list A) : nat * list A :=
  match workArray with
  | [] => (0%nat, workArray)
  | [_] => (1%nat, workArray)
  | elementHigh :: elementLow :: rest =>
      let isDescending := comparefn elementLow elementHigh <? 0 in
      let runLength := (2 + runTail isDescending elementLow rest)%nat in
      (runLength,
       if isDescending
       then rev (firstn runLength workArray) ++ skipn runLength workArray
       else workArray)
  end.

(** The binary search of [BinaryInsertionSort]: where [pivot] belongs in
    [workArray[left, right)].  [fuel] bounds the number of halvings. *)
Fixpoint findInsertionPoint (fuel : nat) (pivot : A) (workArray : list A)
    (left right : nat) : nat :=
  match fuel with
  | O => left
  | S fuel' =>
      if (left <? right)%nat then
        let mid := (left + Nat.div2 (right - left))%nat in
        match nth_error workArray mid with
        | Some element =>
            if comparefn pivot element <? 0
            then findInsertionPoint fuel' pivot workArray left mid
            else findInsertionPoint fuel' pivot workArray (S mid) right
        | None => left
        end
      else left
  end.

(** One pass of the outer loop: [pivot] is moved to its insertion point in
    the sorted prefix. *)
Definition insertPivot (sorted : list A) (pivot : A) : list A :=
  let left := findInsertionPoint (List.length sorted) pivot sorted 0 (List.length sorted) in
  firstn left sorted ++ pivot :: skipn left sorted.

(** [BinaryInsertionSort(0, start, length)], [sorted] being
    [workArray[0, start)] and [rest] being [workArray[start, length)]. *)
Fixpoint BinaryInsertionSort (sorted rest : list A) : list A :=
  match rest with
  | [] => sorted
  | pivot :: rest' => BinaryInsertionSort (insertPivot sorted pivot) rest'
  end.

(** The contents of the array after [array.sort(comparefn)]. *)
Definition Array_sort (array : list A) : list A :=
  if (List.length array <? 2)%nat then array
  else
    let '(runLength, workArray) := CountAndMakeRun array in
    BinaryInsertionSort (firstn runLength workArray) (skipn runLength workArray).
End ArraySort.

(** The comparator of [array.sort()] without an argument, on strings. *)
Definition SortCompareDefault (x y : string) : Z :=
  match String.compare x y with Lt => -1 | Eq => 0 | Gt => 1 end.

(** *** Completions: [throw], [try]/[catch] and the console *)

Inductive Completion (A : Type) : Type :=
| Normal (a : A)
| Throw (e : string).
Arguments Normal {A} a.
Arguments Throw {A} e.

(** The lines written by [console.error]. *)
Definition Console := list string.

(** An effectful computation: it reads and extends the console and ends
    normally or by throwing. *)
Definition Eff (A : Type) : Type := Console -> Completion A * Console.

Definition ret {A} (a : A) : Eff A := fun c => (Normal a, c).

Definition bind {A B} (m : Eff A) (k : A -> Eff B) : Eff B :=
  fun c =>
    match m c with
    | (Normal a, c') => k a c'
    | (Throw e, c') => (Throw e, c')
    end.

(** A call into code that may throw and does not touch the console. *)
Definition call {A} (r : Completion A) : Eff A := fun c => (r, c).

Definition try_catch {A} (body : Eff A) (handler : string -> Eff A) : Eff A :=
  fun c =>
    match body c with
    | (Normal a, c') => (Normal a, c')
    | (Throw e, c') => handler e c'
    end.

Definition console_error (line : string) : Eff unit :=
  fun c => (Normal tt, c ++ [line]).

End JS.

Notation "'perform' x <- m ; k" := (JS.bind m (fun x => k))
  (at level 10, x name, m at level 100, k at level 200).

(** ** Constants *)

Module ONYXKEYS.
(** Modelled from the spec: ONYXKEYS.COLLECTION (ONYXKEYS.ts is not under
    src/); section 3 gives the three entity-type tags that prefix the keys of
    a results payload. *)
Definition REPORT : string := "report_".
Definition TRANSACTION : string := "transaction_".
Definition REPORT_ACTIONS : string := "reportActions_".
End ONYXKEYS.

Module CONST.

(** CONST.SEARCH.SYNTAX_OPERATORS: the keys are those of
    [operatorToSignMap]; [eq], [neq], [lt] and [gt] are also spelled out in
    the source. *)
Inductive Operator : Type :=
| EQUAL_TO | NOT_EQUAL_TO
| LOWER_THAN | LOWER_THAN_OR_EQUAL_TO
| GREATER_THAN | GREATER_THAN_OR_EQUAL_TO
| AND | OR.

Definition Operator_eqb (a b : Operator) : bool :=
  match a, b with
  | EQUAL_TO, EQUAL_TO | NOT_EQUAL_TO, NOT_EQUAL_TO
  | LOWER_THAN, LOWER_THAN | LOWER_THAN_OR_EQUAL_TO, LOWER_THAN_OR_EQUAL_TO
  | GREATER_THAN, GREATER_THAN | GREATER_THAN_OR_EQUAL_TO, GREATER_THAN_OR_EQUAL_TO
  | AND, AND | OR, OR => true
  | _, _ => false
  end.

(** Modelled from the spec: CONST.SEARCH.SYNTAX_FILTER_KEYS (CONST.ts is not
    under src/); the values, in the enumeration order of section 6. *)
Definition SYNTAX_FILTER_KEYS : list string :=
  ["amount"; "date"; "category"; "tag"; "merchant"; "description"; "reportID";
   "from"; "to"; "in"; "cardID"; "taxRate"; "currency"; "keyword"; "expenseType"]%string.

Definition KEYWORD : string := "keyword".
Definition FROM : string := "from".
Definition TO : string := "to".
Definition TAX_RATE : string := "taxRate".
Definition CARD_ID : string := "cardID".

(** Modelled from the spec: CONST.SEARCH.SYNTAX_ROOT_KEYS, the names of the
    root keys of section 6. *)
Definition POLICY_ID : string := "policyID".
Definition TYPE : string := "type".
Definition STATUS : string := "status".
Definition SORT_BY : string := "sortBy".
Definition SORT_ORDER : string := "sortOrder".

(** Modelled from the spec: the order in which [Object.entries] lists
    CONST.SEARCH.SYNTAX_ROOT_KEYS, as section 4.3 gives it for the output of
    the query string builder. *)
Definition SYNTAX_ROOT_KEYS : list string := [TYPE; STATUS; POLICY_ID; SORT_BY; SORT_ORDER].

(** CONST.SEARCH.SORT_ORDER *)
Inductive SortOrder : Type := ASC | DESC.

(** CONST.SEARCH.TABLE_COLUMNS: the keys of [columnNamesToSortingProperty]. *)
Inductive SearchColumnType : Type :=
| COLUMN_TO | COLUMN_FROM | COLUMN_DATE | COLUMN_TAG | COLUMN_MERCHANT
| COLUMN_TOTAL_AMOUNT | COLUMN_CATEGORY | COLUMN_TYPE | COLUMN_ACTION
| COLUMN_DESCRIPTION | COLUMN_TAX_AMOUNT | COLUMN_RECEIPT.

End CONST.

Import CONST.

(** The name of the property a column sorts by. *)
Inductive SortingProperty : Type :=
| formattedTo_ | formattedFrom_ | date_ | tag_ | formattedMerchant_
| formattedTotal_ | category_ | transactionType_ | action_ | comment_.

Definition columnNamesToSortingProperty (column : SearchColumnType) : option SortingProperty :=
  match column with
  | COLUMN_TO => Some formattedTo_
  | COLUMN_FROM => Some formattedFrom_
  | COLUMN_DATE => Some date_
  | COLUMN_TAG => Some tag_
  | COLUMN_MERCHANT => Some formattedMerchant_
  | COLUMN_TOTAL_AMOUNT => Some formattedTotal_
  | COLUMN_CATEGORY => Some category_
  | COLUMN_TYPE => Some transactionType_
  | COLUMN_ACTION => Some action_
  | COLUMN_DESCRIPTION => Some comment_
  | COLUMN_TAX_AMOUNT => None
  | COLUMN_RECEIPT => None
  end.

Definition operatorToSignMap (operator : Operator) : string :=
  match operator with
  | EQUAL_TO => ":"
  | LOWER_THAN => "<"
  | LOWER_THAN_OR_EQUAL_TO => "<="
  | GREATER_THAN => ">"
  | GREATER_THAN_OR_EQUAL_TO => ">="
  | NOT_EQUAL_TO => "!="
  | AND => ","
  | OR => " "
  end.

(** ** Records of the results payload *)

Module SearchPersonalDetails.
Record t : Type := mk {
  accountID : Z;
  avatar : string;
  displayName : option string;
  login : option string;
}.
End SearchPersonalDetails.

Module SearchTransaction.
Record t : Type := mk {
  transactionID : string;
  reportID : string;
  accountID : Z;
  managerID : option Z;
  created : string;
  modifiedCreated : option string;
  amount : Z;
  merchant : option string;
  modifiedMerchant : option string;
  category : option string;
  tag : option string;
  transactionType : option string;
  action : option string;
  (** [comment?: {comment?: string}] *)
  comment : option (option string);
  reportType : option string;
}.
End SearchTransaction.

Module SearchReport.
Record t : Type := mk {
  reportID : string;
  reportName : option string;
  type : option string;
  total : option Z;
  currency : option string;
  accountID : option Z;
  managerID : option Z;
  action : option string;
}.
End SearchReport.

Module ReportAction.
Record t : Type := mk {
  reportActionID : string;
  accountID : Z;
  created : option string;
}.
End ReportAction.

(** One value of the results payload.  The payload type ties the prefix of a
    key to the shape of its value ([ReportKey], [TransactionKey],
    [ReportActionKey]); the functions below read a value only under the
    prefix its shape goes with, and pass over a pair that the type excludes. *)
Inductive Entry : Type :=
| EReport (reportItem : SearchReport.t)
| ETransaction (transactionItem : SearchTransaction.t)
| EReportActions (reportActions : list (string * ReportAction.t))
| EPersonalDetailsList (personalDetailsList : gmap Z SearchPersonalDetails.t).

(** [SearchResults['data']] *)
Definition SearchData : Type := list (string * Entry).

Record ColumnsToShow : Type := {
  shouldShowCategoryColumn : option bool;
  shouldShowTagColumn : option bool;
  shouldShowTaxColumn : option bool;
}.

(** [SearchResults['search']] *)
Record SearchMetadata : Type := {
  columnsToShow : option ColumnsToShow;
}.

(** ** List items *)

Module TransactionListItemType.
Record t : Type := mk {
  (** [...transactionItem] *)
  transactionItem : SearchTransaction.t;
  from : option SearchPersonalDetails.t;
  to : option SearchPersonalDetails.t;
  formattedFrom : option string;
  formattedTo : option string;
  formattedTotal : option Z;
  formattedMerchant : option string;
  date : option string;
  shouldShowMerchant : bool;
  shouldShowCategory : option bool;
  shouldShowTag : option bool;
  shouldShowTax : option bool;
  keyForList : string;
  shouldShowYear : bool;
}.
End TransactionListItemType.

Module ReportListItemType.
Record t : Type := mk {
  (** [...reportItem] *)
  reportItem : SearchReport.t;
  keyForList : string;
  from : option SearchPersonalDetails.t;
  to : option SearchPersonalDetails.t;
  transactions : option (list TransactionListItemType.t);
  reportName : option string;
}.

Definition set_transactions (item : t) (ts : option (list TransactionListItemType.t)) : t :=
  mk (reportItem item) (keyForList item) (from item) (to item) ts (reportName item).
End ReportListItemType.

Module ReportActionListItemType.
Record t : Type := mk {
  (** [...reportAction] *)
  reportAction : ReportAction.t;
  from : option SearchPersonalDetails.t;
  formattedFrom : string;
  date : option string;
  keyForList : string;
}.

(** [item?.created], a property of the spread report action. *)
Definition created (item : t) : option string := ReportAction.created (reportAction item).
End ReportActionListItemType.

(** ** Collaborators that are not under src/

    The functions and constants of other modules that SearchUtils calls, and
    the one built-in it calls whose answer depends on the locale of the host.
    They are parameters of the embedding: nothing is assumed about them. *)
Record Externals : Type := {
  (** [a.localeCompare(b)]: negative, zero or positive, as the collation of
      the host's locale orders [a] and [b]. *)
  localeCompare : string -> string -> Z;
  (** [UserUtils.hashText(text, range)] *)
  hashText : string -> Z -> Z;
  (** [TransactionUtils.getAmount(transaction, isFromExpenseReport)] *)
  getAmount : SearchTransaction.t -> bool -> Z;
  (** [TransactionUtils.getMerchant(transaction)] *)
  getMerchant : SearchTransaction.t -> string;
  (** [TransactionUtils.getCreated(transaction)] *)
  getCreated : SearchTransaction.t -> string;
  (** [DateUtils.doesDateBelongToAPastYear(date)] *)
  doesDateBelongToAPastYear : option string -> bool;
  (** [ReportActionsUtils.isDeletedAction(reportAction)] *)
  isDeletedAction : ReportAction.t -> bool;
  (** [translateLocal(path, {payer, amount})] *)
  translateLocal : string -> option (string * string) -> string;
  (** [CurrencyUtils.convertToDisplayString(amount, currency)] *)
  convertToDisplayString : Z -> string -> string;
  (** [PersonalDetailsUtils.getPersonalDetailByEmail(email)?.accountID.toString()] *)
  getAccountIDByEmail : string -> option string;
  PARTIAL_TRANSACTION_MERCHANT : string;
  DEFAULT_MERCHANT : string;
  OWNER_ACCOUNT_ID_FAKE : Z;
  REPORT_TYPE_EXPENSE : string;
  REPORT_TYPE_IOU : string;
  ACTION_TYPES_VIEW : string;
  ACTION_TYPES_PAID : string;
  CURRENCY_USD : string;
}.

(** ** Dictionaries in insertion order *)

(** [o[k]] *)
Fixpoint Record_get {V : Type} (o : list (string * V)) (k : string) : option V :=
  match o with
  | [] => None
  | (k', v) :: rest => if String.eqb k' k then Some v else Record_get rest k
  end.

(** [o[k] = v]: an existing key keeps its place, a new key goes last. *)
Fixpoint Record_set {V : Type} (o : list (string * V)) (k : string) (v : V) : list (string * V) :=
  match o with
  | [] => [(k, v)]
  | (k', v') :: rest =>
      if String.eqb k' k then (k', v) :: rest else (k', v') :: Record_set rest k v
  end.

Definition Object_keys {V : Type} (o : list (string * V)) : list string := map fst o.
Definition Object_values {V : Type} (o : list (string * V)) : list V := map snd o.

(** ** Search list and results *)

Definition isReportEntry (key : string) : bool := JS.startsWith key ONYXKEYS.REPORT.
Definition isTransactionEntry (key : string) : bool := JS.startsWith key ONYXKEYS.TRANSACTION.
Definition isReportActionEntry (key : string) : bool := JS.startsWith key ONYXKEYS.REPORT_ACTIONS.

(** [data.personalDetailsList?.[accountID]] *)
Definition personalDetailsOf (data : SearchData) (accountID : Z) : option SearchPersonalDetails.t :=
  match Record_get data "personalDetailsList" with
  | Some (EPersonalDetailsList personalDetailsList) => personalDetailsList !! accountID
  | _ => None
  end.

(** [details?.displayName ?? details?.login] *)
Definition displayNameOrLogin (details : option SearchPersonalDetails.t) : option string :=
  match details with
  | Some d =>
      match SearchPersonalDetails.displayName d with
      | Some name => Some name
      | None => SearchPersonalDetails.login d
      end
  | None => None
  end.

Record CommonFormattedProperties : Type := {
  cfp_formattedFrom : string;
  cfp_formattedTo : string;
  cfp_date : string;
  cfp_formattedTotal : Z;
  cfp_formattedMerchant : string;
}.

Section SearchResults.
Variable ext : Externals.

Definition emptyPersonalDetails : SearchPersonalDetails.t :=
  SearchPersonalDetails.mk (OWNER_ACCOUNT_ID_FAKE ext) "" None None.

Definition getTransactionItemCommonFormattedProperties
    (transactionItem : SearchTransaction.t)
    (from to : option SearchPersonalDetails.t) : CommonFormattedProperties :=
  let isExpenseReport :=
    match SearchTransaction.reportType transactionItem with
    | Some reportType => String.eqb reportType (REPORT_TYPE_EXPENSE ext)
    | None => false
    end in
  let formattedFrom := default EmptyString (displayNameOrLogin from) in
  let formattedTo := default EmptyString (displayNameOrLogin to) in
  let formattedTotal := getAmount ext transactionItem isExpenseReport in
  let date :=
    match SearchTransaction.modifiedCreated transactionItem with
    | Some modifiedCreated =>
        if JS.truthy modifiedCreated then modifiedCreated
        else SearchTransaction.created transactionItem
    | None => SearchTransaction.created transactionItem
    end in
  let merchant := getMerchant ext transactionItem in
  let formattedMerchant :=
    if String.eqb merchant (PARTIAL_TRANSACTION_MERCHANT ext)
       || String.eqb merchant (DEFAULT_MERCHANT ext)
    then EmptyString else merchant in
  {| cfp_formattedFrom := formattedFrom;
     cfp_formattedTo := formattedTo;
     cfp_date := date;
     cfp_formattedTotal := formattedTotal;
     cfp_formattedMerchant := formattedMerchant |}.

(** [item.modifiedMerchant ? item.modifiedMerchant : item.merchant ?? '']:
    the conditional binds looser than [??]. *)
Definition merchantOfEntry (item : SearchTransaction.t) : string :=
  if JS.truthy_opt (SearchTransaction.modifiedMerchant item)
  then default EmptyString (SearchTransaction.modifiedMerchant item)
  else default EmptyString (SearchTransaction.merchant item).

Definition getShouldShowMerchant (data : SearchData) : bool :=
  existsb
    (fun '(key, entry) =>
       if isTransactionEntry key then
         match entry with
         | ETransaction item =>
             let merchant := merchantOfEntry item in
             negb (String.eqb merchant EmptyString)
             && negb (String.eqb merchant (PARTIAL_TRANSACTION_MERCHANT ext))
             && negb (String.eqb merchant (DEFAULT_MERCHANT ext))
         | _ => false
         end
       else false)
    data.

(** [shouldShowYear(data)] when [data] is a results payload (the branch after
    [Array.isArray]). *)
Definition shouldShowYear (data : SearchData) : bool :=
  existsb
    (fun '(key, entry) =>
       if isTransactionEntry key then
         match entry with
         | ETransaction item => doesDateBelongToAPastYear ext (Some (getCreated ext item))
         | _ => false
         end
       else if isReportActionEntry key then
         match entry with
         | EReportActions item =>
             existsb (fun action => doesDateBelongToAPastYear ext (ReportAction.created action))
                     (Object_values item)
         | _ => false
         end
       else false)
    data.

(** The list item built for one transaction record, in [getTransactionsSections]
    and in the transaction branch of [getReportSections]. *)
Definition transactionListItem (data : SearchData) (metadata : option SearchMetadata)
    (shouldShowMerchant doesDataContainAPastYearTransaction : bool)
    (transactionItem : SearchTransaction.t) : TransactionListItemType.t :=
  let from := personalDetailsOf data (SearchTransaction.accountID transactionItem) in
  let to :=
    if JS.truthy_num (SearchTransaction.managerID transactionItem)
    then personalDetailsOf data (default 0 (SearchTransaction.managerID transactionItem))
    else Some emptyPersonalDetails in
  let props := getTransactionItemCommonFormattedProperties transactionItem from to in
  let columns := metadata ≫= columnsToShow in
  TransactionListItemType.mk
    transactionItem from to
    (Some (cfp_formattedFrom props))
    (Some (cfp_formattedTo props))
    (Some (cfp_formattedTotal props))
    (Some (cfp_formattedMerchant props))
    (Some (cfp_date props))
    shouldShowMerchant
    (columns ≫= shouldShowCategoryColumn)
    (columns ≫= shouldShowTagColumn)
    (columns ≫= shouldShowTaxColumn)
    (SearchTransaction.transactionID transactionItem)
    doesDataContainAPastYearTransaction.

Definition getTransactionsSections (data : SearchData) (metadata : option SearchMetadata)
    : list TransactionListItemType.t :=
  let shouldShowMerchant := getShouldShowMerchant data in
  let doesDataContainAPastYearTransaction := shouldShowYear data in
  flat_map
    (fun '(key, entry) =>
       if isTransactionEntry key then
         match entry with
         | ETransaction transactionItem =>
             [transactionListItem data metadata shouldShowMerchant
                doesDataContainAPastYearTransaction transactionItem]
         | _ => []
         end
       else [])
    data.

Definition getReportActionsSections (data : SearchData) : list ReportActionListItemType.t :=
  flat_map
    (fun '(key, entry) =>
       if isReportActionEntry key then
         match entry with
         | EReportActions reportActions =>
             flat_map
               (fun reportAction =>
                  let from := personalDetailsOf data (ReportAction.accountID reportAction) in
                  if isDeletedAction ext reportAction then []
                  else [ReportActionListItemType.mk reportAction from
                          (default EmptyString (displayNameOrLogin from))
                          (ReportAction.created reportAction)
                          (ReportAction.reportActionID reportAction)])
               (Object_values reportActions)
         | _ => []
         end
       else [])
    data.

Definition getIOUReportName (data : SearchData) (reportItem : SearchReport.t) : option string :=
  let payerPersonalDetails :=
    if JS.truthy_num (SearchReport.managerID reportItem)
    then personalDetailsOf data (default 0 (SearchReport.managerID reportItem))
    else Some emptyPersonalDetails in
  let payerName :=
    default (translateLocal ext "common.hidden" None) (displayNameOrLogin payerPersonalDetails) in
  let formattedAmount :=
    convertToDisplayString ext
      (default 0 (SearchReport.total reportItem))
      (default (CURRENCY_USD ext) (SearchReport.currency reportItem)) in
  if bool_decide (SearchReport.action reportItem = Some (ACTION_TYPES_VIEW ext)) then
    Some (translateLocal ext "iou.payerOwesAmount" (Some (payerName, formattedAmount)))
  else if bool_decide (SearchReport.action reportItem = Some (ACTION_TYPES_PAID ext)) then
    Some (translateLocal ext "iou.payerPaidAmount" (Some (payerName, formattedAmount)))
  else SearchReport.reportName reportItem.

(** The key under which [getReportSections] files a report. *)
Definition reportKeyOf (reportID : string) : string := ONYXKEYS.REPORT +:+ reportID.

(** One iteration of the loop of [getReportSections] over the keys of [data]. *)
Definition getReportSections_step (data : SearchData) (metadata : option SearchMetadata)
    (shouldShowMerchant doesDataContainAPastYearTransaction : bool)
    (reportIDToTransactions : list (string * ReportListItemType.t))
    (keyed : string * Entry) : list (string * ReportListItemType.t) :=
  let '(key, entry) := keyed in
  if isReportEntry key then
    match entry with
    | EReport reportItem =>
        let reportKey := reportKeyOf (SearchReport.reportID reportItem) in
        let transactions :=
          default [] (Record_get reportIDToTransactions reportKey
                        ≫= ReportListItemType.transactions) in
        let isIOUReport :=
          bool_decide (SearchReport.type reportItem = Some (REPORT_TYPE_IOU ext)) in
        Record_set reportIDToTransactions reportKey
          (ReportListItemType.mk
             reportItem
             (SearchReport.reportID reportItem)
             (personalDetailsOf data (default (-1) (SearchReport.accountID reportItem)))
             (if JS.truthy_num (SearchReport.managerID reportItem)
              then personalDetailsOf data (default 0 (SearchReport.managerID reportItem))
              else Some emptyPersonalDetails)
             (Some transactions)
             (if isIOUReport then getIOUReportName data reportItem
              else SearchReport.reportName reportItem))
    | _ => reportIDToTransactions
    end
  else if isTransactionEntry key then
    match entry with
    | ETransaction transactionItem =>
        let reportKey := reportKeyOf (SearchTransaction.reportID transactionItem) in
        let transaction :=
          transactionListItem data metadata shouldShowMerchant
            doesDataContainAPastYearTransaction transactionItem in
        match Record_get reportIDToTransactions reportKey with
        | Some group =>
            match ReportListItemType.transactions group with
            | Some transactions =>
                (* reportIDToTransactions[reportKey].transactions.push(transaction) *)
                Record_set reportIDToTransactions reportKey
                  (ReportListItemType.set_transactions group (Some (transactions ++ [transaction])))
            | None =>
                (* reportIDToTransactions[reportKey].transactions = [transaction] *)
                Record_set reportIDToTransactions reportKey
                  (ReportListItemType.set_transactions group (Some [transaction]))
            end
        | None => reportIDToTransactions
        end
    | _ => reportIDToTransactions
    end
  else reportIDToTransactions.

(** [reportIDToTransactions] when the loop of [getReportSections] ends. *)
Definition getReportSections_groups (data : SearchData) (metadata : option SearchMetadata)
    : list (string * ReportListItemType.t) :=
  let shouldShowMerchant := getShouldShowMerchant data in
  let doesDataContainAPastYearTransaction := shouldShowYear data in
  fold_left
    (getReportSections_step data metadata shouldShowMerchant doesDataContainAPastYearTransaction)
    data [].

Definition getReportSections (data : SearchData) (metadata : option SearchMetadata)
    : list ReportListItemType.t :=
  Object_values (getReportSections_groups data metadata).

End SearchResults.

(** ** Sorting *)

(** A value read from a list item by its sorting property. *)
Inductive SortValue : Type :=
| SortString (s : string)
| SortNumber (n : Z).

(** [sortingProperty === 'comment' ? a.comment?.comment : a[sortingProperty]] *)
Definition sortingValue (sortingProperty : SortingProperty) (a : TransactionListItemType.t)
    : option SortValue :=
  let item := TransactionListItemType.transactionItem a in
  match sortingProperty with
  | comment_ => SortString <$> (SearchTransaction.comment item ≫= id)
  | formattedTo_ => SortString <$> TransactionListItemType.formattedTo a
  | formattedFrom_ => SortString <$> TransactionListItemType.formattedFrom a
  | date_ => SortString <$> TransactionListItemType.date a
  | tag_ => SortString <$> SearchTransaction.tag item
  | formattedMerchant_ => SortString <$> TransactionListItemType.formattedMerchant a
  | formattedTotal_ => SortNumber <$> TransactionListItemType.formattedTotal a
  | category_ => SortString <$> SearchTransaction.category item
  | transactionType_ => SortString <$> SearchTransaction.transactionType item
  | action_ => SortString <$> SearchTransaction.action item
  end.

Section Sorting.
Variable ext : Externals.

(** The comparator that [getSortedTransactionData] hands to [sort].  A
    property holds strings or numbers, never both; on a mixed pair the source
    subtracts after a cast, which is [NaN], read by [sort] as [0]. *)
Definition compareTransactions (sortingProperty : SortingProperty) (sortOrder : SortOrder)
    (a b : TransactionListItemType.t) : Z :=
  match sortingValue sortingProperty a, sortingValue sortingProperty b with
  | None, _ | _, None => 0
  | Some (SortString aValue), Some (SortString bValue) =>
      match sortOrder with
      | ASC => localeCompare ext (JS.toLowerCase aValue) bValue
      | DESC => localeCompare ext (JS.toLowerCase bValue) aValue
      end
  | Some (SortNumber aNum), Some (SortNumber bNum) =>
      match sortOrder with
      | ASC => aNum - bNum
      | DESC => bNum - aNum
      end
  | Some _, Some _ => 0
  end.

(** The elements of the array that [getSortedTransactionData] returns. *)
Definition getSortedTransactionData_elements (data : list TransactionListItemType.t)
    (sortBy : option SearchColumnType) (sortOrder : option SortOrder)
    : list TransactionListItemType.t :=
  match sortBy, sortOrder with
  | Some sortBy, Some sortOrder =>
      match columnNamesToSortingProperty sortBy with
      | Some sortingProperty => JS.Array_sort (compareTransactions sortingProperty sortOrder) data
      | None => data
      end
  | _, _ => data
  end.

(** The callback of the [reduce] in [getReportNewestTransactionDate]:
    [curr.modifiedCreated ?? curr.created > (max?.created ?? '') ? curr : max].
    [>] binds tighter than [??], which binds tighter than the conditional: the
    test is [curr.modifiedCreated] when that is defined, and the comparison of
    the two [created] otherwise. *)
Definition newestTransaction_step (max : option TransactionListItemType.t)
    (curr : TransactionListItemType.t) : option TransactionListItemType.t :=
  let created t := SearchTransaction.created (TransactionListItemType.transactionItem t) in
  let test :=
    match SearchTransaction.modifiedCreated (TransactionListItemType.transactionItem curr) with
    | Some modifiedCreated => JS.truthy modifiedCreated
    | None => JS.string_gt (created curr) (default EmptyString (created <$> max))
    end in
  if test then Some curr else max.

Definition getReportNewestTransactionDate (report : ReportListItemType.t) : option string :=
  match ReportListItemType.transactions report with
  | Some transactions =>
      (fun t => SearchTransaction.created (TransactionListItemType.transactionItem t))
        <$> fold_left newestTransaction_step transactions (head transactions)
  | None => None
  end.

(** The comparator that [getSortedReportData] hands to [sort]. *)
Definition compareReports (a b : ReportListItemType.t) : Z :=
  match getReportNewestTransactionDate a, getReportNewestTransactionDate b with
  | Some aNewestTransaction, Some bNewestTransaction =>
      if negb (JS.truthy aNewestTransaction) || negb (JS.truthy bNewestTransaction) then 0
      else localeCompare ext (JS.toLowerCase bNewestTransaction) aNewestTransaction
  | _, _ => 0
  end.

(** The elements of the array that [getSortedReportData] returns. *)
Definition getSortedReportData_elements (data : list ReportListItemType.t)
    : list ReportListItemType.t :=
  JS.Array_sort compareReports data.

(** The comparator that [getSortedReportActionData] hands to [sort]. *)
Definition compareReportActions (a b : ReportActionListItemType.t) : Z :=
  match ReportActionListItemType.created a, ReportActionListItemType.created b with
  | Some aValue, Some bValue => localeCompare ext (JS.toLowerCase bValue) aValue
  | _, _ => 0
  end.

(** The elements of the array that [getSortedReportActionData] returns. *)
Definition getSortedReportActionData_elements (data : list ReportActionListItemType.t)
    : list ReportActionListItemType.t :=
  JS.Array_sort compareReportActions data.

(** *** Arrays by reference

    [Array.prototype.sort] sorts the array it is called on and returns that
    same array.  The three functions are written over a store of arrays, a
    caller's array being a reference into it. *)

Definition ArrayRef : Type := positive.

(** [array.sort(comparefn)] *)
Definition Array_sort_in_place {A : Type} (comparefn : A -> A -> Z)
    (array : ArrayRef) (store : gmap ArrayRef (list A)) : ArrayRef * gmap ArrayRef (list A) :=
  match store !! array with
  | Some elements => (array, <[array := JS.Array_sort comparefn elements]> store)
  | None => (array, store)
  end.

Definition getSortedTransactionData (data : ArrayRef)
    (sortBy : option SearchColumnType) (sortOrder : option SortOrder)
    (store : gmap ArrayRef (list TransactionListItemType.t))
    : ArrayRef * gmap ArrayRef (list TransactionListItemType.t) :=
  match sortBy, sortOrder with
  | Some sortBy, Some sortOrder =>
      match columnNamesToSortingProperty sortBy with
      | Some sortingProperty =>
          Array_sort_in_place (compareTransactions sortingProperty sortOrder) data store
      | None => (data, store)
      end
  | _, _ => (data, store)
  end.

Definition getSortedReportData (data : ArrayRef)
    (store : gmap ArrayRef (list ReportListItemType.t))
    : ArrayRef * gmap ArrayRef (list ReportListItemType.t) :=
  Array_sort_in_place compareReports data store.

Definition getSortedReportActionData (data : ArrayRef)
    (store : gmap ArrayRef (list ReportActionListItemType.t))
    : ArrayRef * gmap ArrayRef (list ReportActionListItemType.t) :=
  Array_sort_in_place compareReportActions data store.

End Sorting.

(** ** Search queries *)

(** One constraint.  The parser yields every value as a string; each use of a
    value in this module goes through [toString()] or [>]. *)
Record QueryFilter : Type := {
  operator : Operator;
  value : string;
}.

(** [QueryFilters]: filter key to the constraints met under it. *)
Definition QueryFilters : Type := list (string * list QueryFilter).

(** [ASTNode = {operator?, left: ASTNode | string, right: ASTNode | string | string[]}] *)
Inductive ASTNode : Type :=
| mkASTNode (operator : option Operator) (left : ASTLeft) (right : ASTRight)
with ASTLeft : Type :=
| LeftNode (node : ASTNode)
| LeftString (s : string)
with ASTRight : Type :=
| RightNode (node : ASTNode)
| RightString (s : string)
| RightArray (elements : list string).

Record SearchQueryJSON : Type := {
  type : string;
  status : string;
  sortBy : string;
  sortOrder : string;
  policyID : option string;
  filters : option ASTNode;
  flatFilters : QueryFilters;
  inputQuery : string;
  hash : Z;
}.

(** What [searchParser.parse] returns: a query without [flatFilters],
    [inputQuery] and [hash]. *)
Record ParsedQuery : Type := {
  parsed_type : string;
  parsed_status : string;
  parsed_sortBy : string;
  parsed_sortOrder : string;
  parsed_policyID : option string;
  parsed_filters : option ASTNode;
}.

Definition doubleQuote : string := String "034"%char EmptyString.

(** The character class of [sanitizeString], without its negation: letters,
    digits, and the thirteen punctuation characters listed (the last one,
    code 34, is the double quote). *)
Definition sanitizeAllowed (c : ascii) : bool :=
  let n := nat_of_ascii c in
  ((65 <=? n) && (n <=? 90) || (97 <=? n) && (n <=? 122) || (48 <=? n) && (n <=? 57)
   || existsb (Ascii.eqb c)
        ["_"; "@"; "."; "/"; "#"; "&"; "+"; "-"; "\"; "'"; ";"; ","; "034"]%char)%nat.

Definition sanitizeString (str : string) : string :=
  if existsb (fun c => negb (sanitizeAllowed c)) (list_ascii_of_string str)
  then doubleQuote +:+ str +:+ doubleQuote
  else str.

(** The body of the [forEach] of [buildFilterString], from the element after
    one with operator [previous] ([None] at index 0) onwards. *)
Fixpoint buildFilterString_from (filterName : string) (previous : option Operator)
    (queryFilters : list QueryFilter) : string :=
  match queryFilters with
  | [] => EmptyString
  | queryFilter :: rest =>
      let delimiter := if String.eqb filterName KEYWORD then " " else "," in
      let sameEqualityOperator :=
        match previous with
        | Some previousOperator =>
            Operator_eqb (operator queryFilter) EQUAL_TO && Operator_eqb previousOperator EQUAL_TO
            || Operator_eqb (operator queryFilter) NOT_EQUAL_TO
               && Operator_eqb previousOperator NOT_EQUAL_TO
        | None => false
        end in
      let piece :=
        if sameEqualityOperator then delimiter +:+ sanitizeString (value queryFilter)
        else if String.eqb filterName KEYWORD then delimiter +:+ sanitizeString (value queryFilter)
        else " " +:+ filterName +:+ operatorToSignMap (operator queryFilter)
             +:+ sanitizeString (value queryFilter) in
      piece +:+ buildFilterString_from filterName (Some (operator queryFilter)) rest
  end.

Definition buildFilterString (filterName : string) (queryFilters : list QueryFilter) : string :=
  buildFilterString_from filterName None queryFilters.

(** [traverse] of [getFilters], the captured [filters] object being threaded
    through.  When [left] is a filter key and [right] is a node, the value
    pushed is that node, which every later use turns into a string. *)
Fixpoint traverse (node : ASTNode) (filters : QueryFilters) : QueryFilters :=
  match node with
  | mkASTNode None _ _ => filters
  | mkASTNode (Some nodeOperator) nodeLeft nodeRight =>
      let filters :=
        match nodeLeft with
        | LeftNode leftNode => traverse leftNode filters
        | LeftString _ => filters
        end in
      let filters :=
        match nodeRight with
        | RightNode rightNode => traverse rightNode filters
        | _ => filters
        end in
      match nodeLeft with
      | LeftString nodeKey =>
          if existsb (String.eqb nodeKey) SYNTAX_FILTER_KEYS then
            let filterArray := default [] (Record_get filters nodeKey) in
            let pushed :=
              match nodeRight with
              | RightArray elements =>
                  map (fun element => {| operator := nodeOperator; value := element |}) elements
              | RightString s => [{| operator := nodeOperator; value := s |}]
              | RightNode _ => [{| operator := nodeOperator; value := "[object Object]" |}]
              end in
            Record_set filters nodeKey (filterArray ++ pushed)
          else filters
      | LeftNode _ => filters
      end
  end.

Definition getFilters (queryJSON : SearchQueryJSON) : QueryFilters :=
  match filters queryJSON with
  | Some root => traverse root []
  | None => []
  end.

(** The comparator of the [sort] in [getQueryHash]: it never returns [0]. *)
Definition compareFilterValues (queryFilter1 queryFilter2 : QueryFilter) : Z :=
  if JS.string_gt (value queryFilter1) (value queryFilter2) then 1 else -1.

(** [orderedQuery] before the filters are appended. *)
Definition orderedQuery_rootKeys (query : SearchQueryJSON) : string :=
  (if JS.truthy_opt (policyID query)
   then POLICY_ID +:+ ":" +:+ default EmptyString (policyID query) +:+ " "
   else EmptyString)
  +:+ TYPE +:+ ":" +:+ type query
  +:+ " " +:+ STATUS +:+ ":" +:+ status query
  +:+ " " +:+ SORT_BY +:+ ":" +:+ sortBy query
  +:+ " " +:+ SORT_ORDER +:+ ":" +:+ sortOrder query.

(** [orderedQuery], the text that [getQueryHash] hands to [hashText]. *)
Definition getOrderedQuery (query : SearchQueryJSON) : string :=
  fold_left
    (fun orderedQuery key =>
       let filterValues := Record_get (flatFilters query) key in
       let sortedFilterValues := JS.Array_sort compareFilterValues <$> filterValues in
       orderedQuery +:+ " " +:+ buildFilterString key (default [] sortedFilterValues))
    (JS.Array_sort JS.SortCompareDefault (Object_keys (flatFilters query)))
    (orderedQuery_rootKeys query).

(** [query.flatFilters] after [getQueryHash]: [sort] works in place, so every
    array of constraints is left sorted. *)
Definition flatFilters_afterHash (query : SearchQueryJSON) : QueryFilters :=
  map (fun '(key, filterValues) => (key, JS.Array_sort compareFilterValues filterValues))
      (flatFilters query).

Section SearchQuery.
Variable ext : Externals.
(** [searchParser.parse(query)], which throws on a string outside its grammar. *)
Variable searchParser_parse : string -> JS.Completion ParsedQuery.

Definition getQueryHash (query : SearchQueryJSON) : Z :=
  hashText ext (getOrderedQuery query) (2 ^ 32).

Definition buildSearchQueryJSON (query : string) : JS.Eff (option SearchQueryJSON) :=
  JS.try_catch
    (perform parsed <- JS.call (searchParser_parse query);
     let result :=
       {| type := parsed_type parsed; status := parsed_status parsed;
          sortBy := parsed_sortBy parsed; sortOrder := parsed_sortOrder parsed;
          policyID := parsed_policyID parsed; filters := parsed_filters parsed;
          flatFilters := []; inputQuery := EmptyString; hash := 0 |} in
     let flatFilters := getFilters result in
     let result :=
       {| type := type result; status := status result;
          sortBy := sortBy result; sortOrder := sortOrder result;
          policyID := policyID result; filters := filters result;
          flatFilters := flatFilters; inputQuery := query; hash := hash result |} in
     let resultHash := getQueryHash result in
     JS.ret (Some
       {| type := type result; status := status result;
          sortBy := sortBy result; sortOrder := sortOrder result;
          policyID := policyID result; filters := filters result;
          flatFilters := flatFilters_afterHash result; inputQuery := query;
          hash := resultHash |}))
    (fun e =>
       perform _ <- JS.console_error
         ("Error when parsing SearchQuery: " +:+ doubleQuote +:+ query +:+ doubleQuote +:+ " " +:+ e);
       JS.ret None).

(** [queryJSON?.[key]] for a root key. *)
Definition rootField (queryJSON : option SearchQueryJSON) (key : string) : option string :=
  match queryJSON with
  | Some query =>
      if String.eqb key TYPE then Some (type query)
      else if String.eqb key STATUS then Some (status query)
      else if String.eqb key SORT_BY then Some (sortBy query)
      else if String.eqb key SORT_ORDER then Some (sortOrder query)
      else if String.eqb key POLICY_ID then policyID query
      else None
  | None => None
  end.

Definition buildSearchQueryString (queryJSON : option SearchQueryJSON) : JS.Eff string :=
  perform defaultQueryJSON <- buildSearchQueryJSON EmptyString;
  let rootParts :=
    flat_map
      (fun key =>
         let existingFieldValue := rootField queryJSON key in
         let queryFieldValue :=
           match existingFieldValue with
           | Some fieldValue => Some fieldValue
           | None => rootField defaultQueryJSON key
           end in
         if JS.truthy_opt queryFieldValue
         then [key +:+ ":" +:+ default EmptyString queryFieldValue]
         else [])
      SYNTAX_ROOT_KEYS in
  match queryJSON with
  | None => JS.ret (JS.join " " rootParts)
  | Some query =>
      let filterParts :=
        flat_map
          (fun filterKey =>
             match Record_get (flatFilters query) filterKey with
             | Some queryFilter => [buildFilterString filterKey queryFilter]
             | None => []
             end)
          SYNTAX_FILTER_KEYS in
      JS.ret (JS.join " " (rootParts ++ filterParts))
  end.

(** Update string query with all the default params that are set by parser *)
Definition normalizeQuery (query : string) : JS.Eff string :=
  perform normalizedQueryJSON <- buildSearchQueryJSON query;
  buildSearchQueryString normalizedQueryJSON.

End SearchQuery.

(** ** [standardizeQueryJSON] over a heap

    [standardizeQueryJSON] clones its argument and then assigns to
    [node.right] in the clone.  Here a query and the nodes of its filter tree
    are objects in a heap, named by references.  Strings and arrays of
    strings are kept as values: the function never writes into an array. *)

Definition NodeRef : Type := positive.
Definition QueryRef : Type := positive.

Inductive LeftValue : Type :=
| LeftRef (node : NodeRef)
| LeftStr (s : string).

Inductive RightValue : Type :=
| RightRef (node : NodeRef)
| RightStr (s : string)
| RightArr (elements : list string).

(** An [ASTNode] object. *)
Record ASTObject : Type := mkASTObject {
  o_operator : option Operator;
  o_left : LeftValue;
  o_right : RightValue;
}.

(** A [SearchQueryJSON] object; [filters] refers to the root node. *)
Record QueryObject : Type := mkQueryObject {
  q_type : string;
  q_status : string;
  q_sortBy : string;
  q_sortOrder : string;
  q_policyID : option string;
  q_filters : option NodeRef;
  q_flatFilters : QueryFilters;
  q_inputQuery : string;
  q_hash : Z;
}.

Record Heap : Type := mkHeap {
  nodes : gmap NodeRef ASTObject;
  queries : gmap QueryRef QueryObject;
}.

(** How a call over the heap ends.  [Stuck] is not a behaviour of the
    program: the model ran out of [fuel], or followed a reference to no
    object. *)
Inductive Outcome (A : Type) : Type :=
| Returns (a : A) (heap : gmap NodeRef ASTObject)
| Throws (e : string) (heap : gmap NodeRef ASTObject)
| Stuck.
Arguments Returns {A} a heap.
Arguments Throws {A} e heap.
Arguments Stuck {A}.

(** [OnyxTypes.Card], the two properties read here. *)
Record Card : Type := {
  bank : string;
  cardID : string;
}.

(** [node.left] and [node.right] as parts of a tree, [read] reading the node
    behind a reference. *)
Definition readLeft (read : NodeRef -> option ASTNode) (nodeLeft : LeftValue) : option ASTLeft :=
  match nodeLeft with
  | LeftRef l => LeftNode <$> read l
  | LeftStr s => Some (LeftString s)
  end.

Definition readRight (read : NodeRef -> option ASTNode) (nodeRight : RightValue)
    : option ASTRight :=
  match nodeRight with
  | RightRef r => RightNode <$> read r
  | RightStr s => Some (RightString s)
  | RightArr elements => Some (RightArray elements)
  end.

(** The filter tree below [node], read out of the heap. *)
Fixpoint readTree (fuel : nat) (heap : gmap NodeRef ASTObject) (node : NodeRef)
    : option ASTNode :=
  match fuel with
  | O => None
  | S fuel' =>
      obj ← heap !! node;
      nodeLeft ← readLeft (readTree fuel' heap) (o_left obj);
      nodeRight ← readRight (readTree fuel' heap) (o_right obj);
      Some (mkASTNode (o_operator obj) nodeLeft nodeRight)
  end.

(** [cloneDeep] on a node: the nodes below are cloned first, then a new
    object is allocated for the node itself. *)
Fixpoint cloneDeep_node (fuel : nat) (node : NodeRef) (heap : gmap NodeRef ASTObject)
    : option (NodeRef * gmap NodeRef ASTObject) :=
  match fuel with
  | O => None
  | S fuel' =>
      obj ← heap !! node;
      '(newLeft, heap1) ←
        match o_left obj with
        | LeftRef l => '(l', h) ← cloneDeep_node fuel' l heap; Some (LeftRef l', h)
        | LeftStr s => Some (LeftStr s, heap)
        end;
      '(newRight, heap2) ←
        match o_right obj with
        | RightRef r => '(r', h) ← cloneDeep_node fuel' r heap1; Some (RightRef r', h)
        | RightStr s => Some (RightStr s, heap1)
        | RightArr elements => Some (RightArr elements, heap1)
        end;
      let clone := fresh (dom heap2) in
      Some (clone, <[clone := mkASTObject (o_operator obj) newLeft newRight]> heap2)
  end.

Section Standardize.
Variable ext : Externals.
(** [cardList], in the order [Object.values] lists it. *)
Variable cardList : list (string * Card).
Variable taxRates : gmap string (list string).

(** The card IDs of the cards of a bank. *)
Definition cardIDsOfBank (bankName : string) : list string :=
  map cardID (filter (fun card => bank card = bankName) (Object_values cardList)).

(** [taxRates[name] ?? name], as [flat] leaves it in the result: the rates
    under a key of [taxRates]; failing that, the property of that name that
    [taxRates], a plain object, inherits, as one element; failing that,
    [name]. *)
Definition taxRateOrName (name : string) : list string :=
  match taxRates !! name with
  | Some rates => rates
  | None => [default name (JS.Object_prototype name)]
  end.

(** [findIDFromDisplayValue(filterName, filter, cardList, taxRates)], called
    with [node.right as string | string[]].  When [node.right] is a node after
    all, [emails.map] and [banks.map] are not functions and the call throws;
    under [taxRate] the node is used as a property name and as an array
    element, where it stands for its string. *)
Definition findIDFromDisplayValue (filterName : string) (filterValue : RightValue)
    : JS.Completion RightValue :=
  if String.eqb filterName FROM || String.eqb filterName TO then
    match filterValue with
    | RightStr email => JS.Normal (RightStr (default email (getAccountIDByEmail ext email)))
    | RightArr emails =>
        JS.Normal (RightArr (map (fun email => default email (getAccountIDByEmail ext email)) emails))
    | RightRef _ => JS.Throw "TypeError: emails.map is not a function"
    end
  else if String.eqb filterName TAX_RATE then
    let names :=
      match filterValue with
      | RightArr elements => elements
      | RightStr name => [name]
      | RightRef _ => ["[object Object]"%string]
      end in
    JS.Normal (RightArr (flat_map taxRateOrName names))
  else if String.eqb filterName CARD_ID then
    match filterValue with
    | RightStr bankName =>
        let ids := cardIDsOfBank bankName in
        JS.Normal (if (0 <? List.length ids)%nat then RightArr ids else RightStr bankName)
    | RightArr banks => JS.Normal (RightArr (flat_map cardIDsOfBank banks))
    | RightRef _ => JS.Throw "TypeError: banks.map is not a function"
    end
  else JS.Normal filterValue.

(** [traverse] of [standardizeQueryJSON]; the properties of [node] are read
    from the heap at the time the source reads them. *)
Fixpoint standardize_traverse (fuel : nat) (node : NodeRef) (heap : gmap NodeRef ASTObject)
    : Outcome unit :=
  match fuel with
  | O => Stuck
  | S fuel' =>
      match heap !! node with
      | None => Stuck
      | Some obj =>
          match o_operator obj with
          | None => Returns tt heap
          | Some _ =>
              match
                match o_left obj with
                | LeftRef l => standardize_traverse fuel' l heap
                | LeftStr _ => Returns tt heap
                end
              with
              | Stuck => Stuck
              | Throws e heap1 => Throws e heap1
              | Returns _ heap1 =>
                  match heap1 !! node with
                  | None => Stuck
                  | Some obj1 =>
                      match
                        match o_right obj1 with
                        | RightRef r => standardize_traverse fuel' r heap1
                        | _ => Returns tt heap1
                        end
                      with
                      | Stuck => Stuck
                      | Throws e heap2 => Throws e heap2
                      | Returns _ heap2 =>
                          match heap2 !! node with
                          | None => Stuck
                          | Some obj2 =>
                              match o_left obj2 with
                              | LeftStr filterName =>
                                  match findIDFromDisplayValue filterName (o_right obj2) with
                                  | JS.Normal newRight =>
                                      Returns tt
                                        (<[node := mkASTObject (o_operator obj2) (o_left obj2) newRight]>
                                           heap2)
                                  | JS.Throw e => Throws e heap2
                                  end
                              | LeftRef _ => Returns tt heap2
                              end
                          end
                      end
                  end
              end
          end
      end
  end.

(** How [standardizeQueryJSON] ends: with a reference to the standard query,
    or by throwing; either way with the heap it leaves. *)
Inductive StandardizeResult : Type :=
| Standardized (standardQuery : QueryRef) (heap : Heap)
| StandardizeThrows (e : string) (heap : Heap)
| StandardizeStuck.

Definition standardizeQueryJSON (fuel : nat) (queryJSON : QueryRef) (heap : Heap)
    : StandardizeResult :=
  match queries heap !! queryJSON with
  | None => StandardizeStuck
  | Some query =>
      (* const standardQuery = cloneDeep(queryJSON) *)
      match
        match q_filters query with
        | Some root =>
            '(root', nodes1) ← cloneDeep_node fuel root (nodes heap); Some (Some root', nodes1)
        | None => Some (None, nodes heap)
        end
      with
      | None => StandardizeStuck
      | Some (clonedFilters, nodes1) =>
          let standardQuery := fresh (dom (queries heap)) in
          let cloned :=
            mkQueryObject (q_type query) (q_status query) (q_sortBy query) (q_sortOrder query)
              (q_policyID query) clonedFilters (q_flatFilters query) (q_inputQuery query)
              (q_hash query) in
          let queries1 := <[standardQuery := cloned]> (queries heap) in
          (* if (filters) traverse(filters) *)
          match
            match clonedFilters with
            | Some root' => standardize_traverse fuel root' nodes1
            | None => Returns tt nodes1
            end
          with
          | Stuck => StandardizeStuck
          | Throws e nodes2 => StandardizeThrows e (mkHeap nodes2 queries1)
          | Returns _ nodes2 =>
              (* standardQuery.flatFilters = getFilters(standardQuery) *)
              match
                match clonedFilters with
                | Some root' => (fun tree => traverse tree []) <$> readTree fuel nodes2 root'
                | None => Some []
                end
              with
              | None => StandardizeStuck
              | Some newFlatFilters =>
                  let standard :=
                    mkQueryObject (q_type cloned) (q_status cloned) (q_sortBy cloned)
                      (q_sortOrder cloned) (q_policyID cloned) (q_filters cloned)
                      newFlatFilters (q_inputQuery cloned) (q_hash cloned) in
                  Standardized standardQuery
                    (mkHeap nodes2 (<[standardQuery := standard]> queries1))
              end
          end
      end
  end.

End Standardize.

(** ** Sample values

    Small concrete values on which the functions above are run in the
    examples below.  [sampleExternals] gives each collaborator a simple
    stand-in; no theorem that is stated for every [Externals] depends on it. *)

Definition sampleHashText (text : string) (range : Z) : Z :=
  fold_left (fun h c => (h * 31 + Z.of_nat (nat_of_ascii c)) mod range)
            (list_ascii_of_string text) 0.

(** Code-unit order: how a collation orders strings of digits that have the
    same separators at the same places, such as the dates of the examples. *)
Definition sampleLocaleCompare (a b : string) : Z :=
  match String.compare a b with Lt => -1 | Eq => 0 | Gt => 1 end.

Definition sampleExternals : Externals := {|
  localeCompare := sampleLocaleCompare;
  hashText := sampleHashText;
  getAmount := fun transaction _ => SearchTransaction.amount transaction;
  getMerchant := fun transaction =>
    if JS.truthy_opt (SearchTransaction.modifiedMerchant transaction)
    then default EmptyString (SearchTransaction.modifiedMerchant transaction)
    else default EmptyString (SearchTransaction.merchant transaction);
  getCreated := fun transaction =>
    if JS.truthy_opt (SearchTransaction.modifiedCreated transaction)
    then default EmptyString (SearchTransaction.modifiedCreated transaction)
    else SearchTransaction.created transaction;
  doesDateBelongToAPastYear := fun _ => false;
  isDeletedAction := fun _ => false;
  translateLocal := fun path _ => path;
  convertToDisplayString := fun _ currency => currency;
  getAccountIDByEmail := fun email =>
    if String.eqb email "alice@example.com" then Some "7"%string else None;
  PARTIAL_TRANSACTION_MERCHANT := "(none)";
  DEFAULT_MERCHANT := "Expense";
  OWNER_ACCOUNT_ID_FAKE := 0;
  REPORT_TYPE_EXPENSE := "expense";
  REPORT_TYPE_IOU := "iou";
  ACTION_TYPES_VIEW := "view";
  ACTION_TYPES_PAID := "paid";
  CURRENCY_USD := "USD";
|}.

(** A transaction record of report [reportID], with the given dates and
    merchant and nothing else set. *)
Definition sampleTransaction (transactionID reportID created : string)
    (modifiedCreated merchant : option string) : SearchTransaction.t :=
  SearchTransaction.mk transactionID reportID 1 None created modifiedCreated 0
    merchant None None None None None None None.

(** A report record with only its ID set. *)
Definition sampleReport (reportID : string) : SearchReport.t :=
  SearchReport.mk reportID None None None None None None None.

(** A transaction row as a caller may hand it to [getSortedTransactionData]:
    [formattedTotal] and the description are as given. *)
Definition sampleRow (transactionID : string) (formattedTotal : option Z)
    (description : option string) : TransactionListItemType.t :=
  TransactionListItemType.mk
    (SearchTransaction.mk transactionID "r" 1 None "2024-01-01" None 0
       None None None None None None (Some description) None)
    None None (Some EmptyString) (Some EmptyString) formattedTotal (Some EmptyString)
    (Some "2024-01-01"%string) false None None None transactionID false.

(** A transaction row of a report, with its two dates. *)
Definition sampleDatedRow (transactionID created : string) (modifiedCreated : option string)
    : TransactionListItemType.t :=
  TransactionListItemType.mk
    (sampleTransaction transactionID "r" created modifiedCreated None)
    None None (Some EmptyString) (Some EmptyString) (Some 0) (Some EmptyString)
    (Some (default created modifiedCreated)) false None None None transactionID false.

(** A report row holding the given transaction rows. *)
Definition sampleReportRow (reportID : string) (transactions : list TransactionListItemType.t)
    : ReportListItemType.t :=
  ReportListItemType.mk (sampleReport reportID) reportID None None (Some transactions) None.

(** A chat row created at the given time. *)
Definition sampleReportActionRow (reportActionID : string) (created : option string)
    : ReportActionListItemType.t :=
  ReportActionListItemType.mk (ReportAction.mk reportActionID 1 created) None EmptyString
    created reportActionID.

(** ** What [getReportSections] is compared with

    The two functions below are not taken from the source: they describe a
    payload, in the words used to state what [getReportSections] files under
    a report. *)



(** ** Shapes of filter trees and of heaps

    Used to state what [standardizeQueryJSON] needs and keeps; none of this is
    taken from the source. *)

(** A tree in which a node whose [left] is a string has a string or an array
    as its [right], never a node: a string on the left makes the node a
    constraint, and its right-hand side is the value or the values. *)
Fixpoint leafShaped (tree : ASTNode) : bool :=
  match tree with
  | mkASTNode _ nodeLeft nodeRight =>
      match nodeLeft, nodeRight with
      | LeftString _, RightNode _ => false
      | _, _ => true
      end
      && match nodeLeft with LeftNode l => leafShaped l | LeftString _ => true end
      && match nodeRight with RightNode r => leafShaped r | _ => true end
  end.

(** The nodes below [node] form a tree of depth at most [fuel] that is
    [leafShaped]. *)
Definition wellShaped (fuel : nat) (heap : gmap NodeRef ASTObject) (node : NodeRef) : Prop :=
  exists tree, readTree fuel heap node = Some tree /\ leafShaped tree = true.

(** The nodes below [node] form a tree of depth at most [fuel]; when
    [strict], the tree is [leafShaped] too. *)
Definition shaped (strict : bool) (fuel : nat) (heap : gmap NodeRef ASTObject)
    (node : NodeRef) : Prop :=
  exists tree, readTree fuel heap node = Some tree /\ (strict = true -> leafShaped tree = true).

(** The nodes below [node] form a tree of depth at most [fuel]. *)
Definition isTree (fuel : nat) (heap : gmap NodeRef ASTObject) (node : NodeRef) : Prop :=
  exists tree, readTree fuel heap node = Some tree.

(** Every object of [heap] is in [heap'], unchanged. *)
Definition preserved (heap heap' : Heap) : Prop :=
  (forall node obj, nodes heap !! node = Some obj -> nodes heap' !! node = Some obj)
  /\ (forall ref query, queries heap !! ref = Some query -> queries heap' !! ref = Some query).

(** [right'] is [right], or is not a reference. *)
Definition sameOrValue (right right' : RightValue) : Prop :=
  right' = right \/ forall node, right' <> RightRef node.

(** [heap'] holds objects at the references where [heap] does; each node has
    kept its operator and its [left]; its [right] is what it was, or has
    become a string or an array. *)
Definition keepsShape (heap heap' : gmap NodeRef ASTObject) : Prop :=
  forall node,
    match heap !! node, heap' !! node with
    | Some obj, Some obj' =>
        o_operator obj' = o_operator obj
        /\ o_left obj' = o_left obj
        /\ sameOrValue (o_right obj) (o_right obj')
    | None, None => True
    | _, _ => False
    end.

(** The nodes at the references that satisfy [P] refer to such nodes only. *)
Definition closedUnder (P : NodeRef -> Prop) (heap : gmap NodeRef ASTObject) : Prop :=
  forall node obj,
    P node -> heap !! node = Some obj ->
    (forall l, o_left obj = LeftRef l -> P l)
    /\ (forall r, o_right obj = RightRef r -> P r).

(** The heap a call over the nodes leaves, if the call ends. *)
Definition heapOf {A : Type} (outcome : Outcome A) : option (gmap NodeRef ASTObject) :=
  match outcome with
  | Returns _ heap => Some heap
  | Throws _ heap => Some heap
  | Stuck => None
  end.

(** A heap with one query, [from:alice@example.com category:A], whose filter
    tree is an [and] node over the two constraints. *)
Definition sampleHeap : Heap :=
  mkHeap
    {[ 1%positive := mkASTObject (Some AND) (LeftRef 2%positive) (RightRef 3%positive);
       2%positive := mkASTObject (Some EQUAL_TO) (LeftStr "from") (RightStr "alice@example.com");
       3%positive := mkASTObject (Some EQUAL_TO) (LeftStr "category") (RightArr ["A"%string]) ]}
    {[ 1%positive :=
         mkQueryObject "expense" "all" "date" "desc" None (Some 1%positive)
           [("from"%string, [{| operator := EQUAL_TO; value := "alice@example.com" |}]);
            ("category"%string, [{| operator := EQUAL_TO; value := "A" |}])]
           "from:alice@example.com category:A" 42 ]}.

(** The query [date<op1>2024-01-01 date<op2>2024-01-01] with the four root
    keys spelled out, as a parser returns it that turns each token into a
    node and joins the nodes, in the order of the tokens, under [and]. *)
Definition dateRangeQuery (first second : Operator) : ParsedQuery :=
  {| parsed_type := "expense"; parsed_status := "all";
     parsed_sortBy := "date"; parsed_sortOrder := "desc";
     parsed_policyID := None;
     parsed_filters :=
       Some (mkASTNode (Some AND)
               (LeftNode (mkASTNode (Some first) (LeftString "date") (RightString "2024-01-01")))
               (RightNode (mkASTNode (Some second) (LeftString "date") (RightString "2024-01-01")))) |}.

Definition atMostFirst : string :=
  "type:expense status:all sortBy:date sortOrder:desc  date<=2024-01-01 date>=2024-01-01".

Definition atLeastFirst : string :=
  "type:expense status:all sortBy:date sortOrder:desc  date>=2024-01-01 date<=2024-01-01".

(** Modelled from the spec: searchParser.parse (the generated parser is not
    under src/), on the three strings it is applied to below: the empty one,
    which gets the default root values, and the two above, whose two date
    tokens become one [and] node over two leaves in the order written. *)
Definition sampleParser (query : string) : JS.Completion ParsedQuery :=
  if String.eqb query EmptyString then
    JS.Normal {| parsed_type := "expense"; parsed_status := "all";
                 parsed_sortBy := "date"; parsed_sortOrder := "desc";
                 parsed_policyID := None; parsed_filters := None |}
  else if String.eqb query atMostFirst then
    JS.Normal (dateRangeQuery LOWER_THAN_OR_EQUAL_TO GREATER_THAN_OR_EQUAL_TO)
  else if String.eqb query atLeastFirst then
    JS.Normal (dateRangeQuery GREATER_THAN_OR_EQUAL_TO LOWER_THAN_OR_EQUAL_TO)
  else JS.Throw "SyntaxError".

(** ** Filters up to order

    Used to state when two queries hold the same filters; not taken from the
    source. *)

(** Two dictionaries of constraints with the same keys, in any order, and
    under each key the same constraints, in any order. *)
Definition permutedFilters (filters1 filters2 : QueryFilters) : Prop :=
  List.NoDup (Object_keys filters1)
  /\ List.NoDup (Object_keys filters2)
  /\ forall key,
       match Record_get filters1 key, Record_get filters2 key with
       | Some constraints1, Some constraints2 => Permutation constraints1 constraints2
       | None, None => True
       | _, _ => False
       end.

(** Under each key, no two constraints have the same value. *)
Definition distinctValues (filters : QueryFilters) : Prop :=
  forall key constraints,
    Record_get filters key = Some constraints -> List.NoDup (map value constraints).

(** [a < b] on strings, in code-unit order. *)
Definition string_lt (a b : string) : Prop := String.compare a b = Lt.

(** ** Orders in which the sorts are stated

    Not taken from the source: the orders that the three sorting functions
    are shown to produce, and the rows on which their comparators are
    orders at all. *)

(** [a <= b] on strings, in code-unit order. *)
Definition string_le (a b : string) : Prop := String.compare a b <> Gt.

(** What is asked of the collation of the host where an order is stated: the
    two ways of comparing a pair agree, and the comparison is transitive. *)
Definition consistentCollation (ext : Externals) : Prop :=
  (forall a b, localeCompare ext a b < 0 <-> 0 < localeCompare ext b a)
  /\ (forall a b c,
        localeCompare ext a b <= 0 -> localeCompare ext b c <= 0 ->
        localeCompare ext a c <= 0).

(** [a <= b] on strings, in the collation of the host. *)
Definition collated_le (ext : Externals) (a b : string) : Prop := localeCompare ext a b <= 0.



(** The same for an optional date: defined, not empty, without upper-case
    letters. *)
Definition orderableDate (date : option string) : Prop :=
  match date with
  | Some d => d <> EmptyString /\ JS.toLowerCase d = d
  | None => False
  end.

(** [x <= y] on two defined dates. *)
Definition date_le (ext : Externals) (x y : option string) : Prop :=
  match x, y with
  | Some a, Some b => collated_le ext a b
  | _, _ => False
  end.


(** ** The results payload as a whole *)

(** [SearchResults]: the metadata and the payload. *)
Module SearchResults.
Record t : Type := mk {
  search : option SearchMetadata;
  data : SearchData;
}.
End SearchResults.

(** [isSearchResultsEmpty(searchResults)]; the parameter type leaves no
    [undefined] for [searchResults?.data] to meet. *)
Definition isSearchResultsEmpty (searchResults : SearchResults.t) : bool :=
  negb (existsb (fun key => JS.startsWith key ONYXKEYS.TRANSACTION)
          (Object_keys (SearchResults.data searchResults))).

(** ** Payloads as their type describes them

    Not taken from the source: what the type of the payload says about the
    value under a key, and the records of a payload in the order of its
    keys. *)

(** Under a key with the prefix of transactions, of reports or of report
    actions, the value has the shape that goes with the prefix. *)
Definition wellTyped (data : SearchData) : Prop :=
  forall key entry, In (key, entry) data ->
    (isTransactionEntry key = true -> exists transactionItem, entry = ETransaction transactionItem)
    /\ (isReportEntry key = true -> exists reportItem, entry = EReport reportItem)
    /\ (isReportActionEntry key = true -> exists reportActions, entry = EReportActions reportActions).

(** The report records of a payload, in the order of its keys. *)
Definition reportsOf (data : SearchData) : list SearchReport.t :=
  flat_map
    (fun '(key, entry) =>
       match entry with
       | EReport reportItem => if isReportEntry key then [reportItem] else []
       | _ => []
       end)
    data.

(** The elements of a list, each at the place where it occurs first. *)
Fixpoint distinctInOrder (l : list string) : list string :=
  match l with
  | [] => []
  | x :: rest => x :: List.filter (fun y => negb (String.eqb y x)) (distinctInOrder rest)
  end.

(** ** More of the query helpers *)

(** [s.split(sep)] for a separator of one character; the empty string
    splits into one empty part. *)
Fixpoint String_split (sep : ascii) (s : string) : list string :=
  match s with
  | EmptyString => [EmptyString]
  | String c rest =>
      if Ascii.eqb c sep then EmptyString :: String_split sep rest
      else
        match String_split sep rest with
        | part :: parts => String c part :: parts
        | [] => [String c EmptyString]
        end
  end.

(** Given a SearchQueryJSON this function will try to find the value of
    policyID filter saved in query and return just the first policyID value
    from the filter. *)
Definition getPolicyIDFromSearchQuery (queryJSON : SearchQueryJSON) : option string :=
  let policyIDFilter := policyID queryJSON in
  if negb (JS.truthy_opt policyIDFilter) then None
  else head (String_split "," (default EmptyString policyIDFilter)).

(** ** The constraints of a key, read off the tree

    Not taken from the source: what a filter tree holds for one key, in the
    words of a walk that visits the left subtree, then the right subtree,
    then the node itself. *)

(** The constraints a node stands for when its [left] is [key]. *)
Definition constraintsOfLeaf (nodeOperator : Operator) (nodeRight : ASTRight)
    : list QueryFilter :=
  match nodeRight with
  | RightArray elements =>
      map (fun element => {| operator := nodeOperator; value := element |}) elements
  | RightString s => [{| operator := nodeOperator; value := s |}]
  | RightNode _ => [{| operator := nodeOperator; value := "[object Object]" |}]
  end.

Fixpoint constraintsOf (key : string) (node : ASTNode) : list QueryFilter :=
  match node with
  | mkASTNode None _ _ => []
  | mkASTNode (Some nodeOperator) nodeLeft nodeRight =>
      match nodeLeft with LeftNode leftNode => constraintsOf key leftNode | LeftString _ => [] end
      ++ match nodeRight with RightNode rightNode => constraintsOf key rightNode | _ => [] end
      ++ match nodeLeft with
         | LeftString nodeKey =>
             if String.eqb nodeKey key then constraintsOfLeaf nodeOperator nodeRight else []
         | LeftNode _ => []
         end
  end.

(** Whether the walk meets a node whose [left] is [key]. *)
Fixpoint mentions (key : string) (node : ASTNode) : bool :=
  match node with
  | mkASTNode None _ _ => false
  | mkASTNode (Some _) nodeLeft nodeRight =>
      match nodeLeft with LeftNode leftNode => mentions key leftNode | LeftString _ => false end
      || match nodeRight with RightNode rightNode => mentions key rightNode | _ => false end
      || match nodeLeft with LeftString nodeKey => String.eqb nodeKey key | LeftNode _ => false end
  end.

Scheme ASTNode_mutind := Induction for ASTNode Sort Prop
  with ASTLeft_mutind := Induction for ASTLeft Sort Prop
  with ASTRight_mutind := Induction for ASTRight Sort Prop.

(** ** The title of a search *)

(** Modelled from the spec: CONST.SEARCH.SYNTAX_FILTER_KEYS.IN, the key [in]
    of the list of filter keys in section 6. *)
Definition SYNTAX_FILTER_KEY_IN : string := "in".

(** [OnyxTypes.PersonalDetails], the property read here. *)
Record PersonalDetails : Type := {
  pd_login : option string;
}.

Section SearchHeaderTitle.
(** [OnyxTypes.Report]; nothing of it is read in this module. *)
Variable Report : Type.
(** [ReportUtils.getReportName(report)] *)
Variable getReportName : option Report -> string.

Variable personalDetails : gmap string PersonalDetails.
(** [cardList] and [TaxRates], in the order [Object.entries] lists them. *)
Variable cardList : list (string * Card).
Variable reports : gmap string Report.
Variable TaxRates : list (string * list string).

(** [value || filter] *)
Definition orFilter (displayValue : option string) (filterValue : string) : string :=
  if JS.truthy_opt displayValue then default EmptyString displayValue else filterValue.

Definition getDisplayValue (filterName filterValue : string) : string :=
  if String.eqb filterName FROM || String.eqb filterName TO then
    (* login can be an empty string *)
    orFilter (personalDetails !! filterValue ≫= pd_login) filterValue
  else if String.eqb filterName CARD_ID then
    orFilter (bank <$> Record_get cardList filterValue) filterValue
  else if String.eqb filterName SYNTAX_FILTER_KEY_IN then
    orFilter (Some (getReportName (reports !! (ONYXKEYS.REPORT +:+ filterValue)))) filterValue
  else filterValue.

(** The constraints shown in the title for one key. *)
Definition displayQueryFilters (key : string) (queryFilter : list QueryFilter)
    : list QueryFilter :=
  if String.eqb key TAX_RATE then
    let taxRateIDs := map value queryFilter in
    let taxRateNames :=
      flat_map
        (fun id =>
           let taxRate :=
             map fst
               (List.filter (fun '(_, IDs) => existsb (String.eqb id) IDs) TaxRates) in
           if (0 <? List.length taxRate)%nat then taxRate else [id])
        taxRateIDs in
    map (fun taxRate =>
           {| operator := default AND (operator <$> head queryFilter); value := taxRate |})
        taxRateNames
  else
    map (fun queryFilter =>
           {| operator := operator queryFilter;
              value := getDisplayValue key (value queryFilter) |})
        queryFilter.

Definition getSearchHeaderTitle (queryJSON : SearchQueryJSON) : string :=
  let filters := flatFilters queryJSON in
  fold_left
    (fun title key =>
       let queryFilter := default [] (Record_get filters key) in
       title +:+ buildFilterString key (displayQueryFilters key queryFilter))
    (Object_keys filters)
    ("type:" +:+ type queryJSON +:+ " status:" +:+ status queryJSON).

End SearchHeaderTitle.

(** ** The standard form of a filter tree

    Not taken from the source: the rewriting of [standardizeQueryJSON] told
    for a tree as a value, with which the walk over the heap is compared, and
    the references a tree takes up in the heap. *)

(** The references of the nodes below [node], itself first, each as often as
    the tree reaches it. *)
Fixpoint nodesOf (fuel : nat) (heap : gmap NodeRef ASTObject) (node : NodeRef)
    : option (list NodeRef) :=
  match fuel with
  | O => None
  | S fuel' =>
      obj ← heap !! node;
      refsLeft ←
        match o_left obj with
        | LeftRef l => nodesOf fuel' heap l
        | LeftStr _ => Some []
        end;
      refsRight ←
        match o_right obj with
        | RightRef r => nodesOf fuel' heap r
        | _ => Some []
        end;
      Some (node :: refsLeft ++ refsRight)
  end.

(** A string or an array as the right-hand side of a node of a tree. *)
Definition rightOfValue (rightValue : RightValue) (otherwise : ASTRight) : ASTRight :=
  match rightValue with
  | RightStr s => RightString s
  | RightArr elements => RightArray elements
  | RightRef _ => otherwise
  end.

Section StandardTree.
Variable ext : Externals.
Variable cardList : list (string * Card).
Variable taxRates : gmap string (list string).

(** The right-hand side of a constraint on [filterName], with display values
    replaced by IDs. *)
Definition standardizeRight (filterName : string) (nodeRight : ASTRight) : ASTRight :=
  let replaced rightValue :=
    match findIDFromDisplayValue ext cardList taxRates filterName rightValue with
    | JS.Normal newRight => rightOfValue newRight nodeRight
    | JS.Throw _ => nodeRight
    end in
  match nodeRight with
  | RightString s => replaced (RightStr s)
  | RightArray elements => replaced (RightArr elements)
  | RightNode _ => nodeRight
  end.

(** The tree with the right-hand side of every constraint standardized;
    a node without operator, and whatever is below it, stays as it is. *)
Fixpoint standardizeTree (tree : ASTNode) : ASTNode :=
  match tree with
  | mkASTNode None _ _ => tree
  | mkASTNode (Some nodeOperator) nodeLeft nodeRight =>
      let newRight :=
        match nodeRight with
        | RightNode rightNode => RightNode (standardizeTree rightNode)
        | _ => nodeRight
        end in
      match nodeLeft with
      | LeftNode leftNode =>
          mkASTNode (Some nodeOperator) (LeftNode (standardizeTree leftNode)) newRight
      | LeftString filterName =>
          mkASTNode (Some nodeOperator) nodeLeft (standardizeRight filterName newRight)
      end
  end.

End StandardTree.

(** ** Notions used in the proofs

    Not taken from the source: the relations and the pieces of functions in
    whose terms the lemmas of the second part are stated. *)

(** The comparator agrees with [R] on every pair of elements of [l], equal
    ones too. *)
Definition agreesOn {A : Type} (comparefn : A -> A -> Z) (R : A -> A -> Prop) (l : list A)
    : Prop :=
  forall a b, In a l -> In b l ->
    (comparefn a b < 0 -> R a b) /\ (0 <= comparefn a b -> R b a).

(** No element of [rest] compares below the one before it, [previousElement]
    being before the first. *)
Fixpoint isRun {A : Type} (comparefn : A -> A -> Z) (previousElement : A) (rest : list A)
    : Prop :=
  match rest with
  | [] => True
  | currentElement :: rest' =>
      0 <= comparefn currentElement previousElement /\ isRun comparefn currentElement rest'
  end.

(** Every group is filed under the key of its own [keyForList]. *)
Definition filedByID (groups : list (string * ReportListItemType.t)) : Prop :=
  forall key group, In (key, group) groups ->
    key = reportKeyOf (ReportListItemType.keyForList group).

(** The subtree on the left, and on the right, that [traverse] walks into. *)
Definition leftSubtree (nodeLeft : ASTLeft) : option ASTNode :=
  match nodeLeft with LeftNode node => Some node | LeftString _ => None end.

Definition rightSubtree (nodeRight : ASTRight) : option ASTNode :=
  match nodeRight with RightNode node => Some node | _ => None end.

Definition traverse_subtree (subtree : option ASTNode) (filters : QueryFilters) : QueryFilters :=
  match subtree with Some node => traverse node filters | None => filters end.

(** What [traverse] does at the node itself, once it is back from the two
    subtrees. *)
Definition traverse_node (nodeOperator : Operator) (nodeLeft : ASTLeft) (nodeRight : ASTRight)
    (filters : QueryFilters) : QueryFilters :=
  match nodeLeft with
  | LeftString nodeKey =>
      if existsb (String.eqb nodeKey) SYNTAX_FILTER_KEYS
      then Record_set filters nodeKey
             (default [] (Record_get filters nodeKey) ++ constraintsOfLeaf nodeOperator nodeRight)
      else filters
  | LeftNode _ => filters
  end.

(** What a walk of [node] does to the dictionary of constraints. *)
Definition walks (node : ASTNode) : Prop :=
  (forall key, mentions key node = false -> constraintsOf key node = [])
  /\ (forall filters key, In key SYNTAX_FILTER_KEYS ->
        Record_get (traverse node filters) key
        = if mentions key node
          then Some (default [] (Record_get filters key) ++ constraintsOf key node)
          else Record_get filters key)
  /\ (forall filters key, ~ In key SYNTAX_FILTER_KEYS ->
        Record_get (traverse node filters) key = Record_get filters key)
  /\ (forall filters, List.NoDup (Object_keys filters) ->
        List.NoDup (Object_keys (traverse node filters))).

Definition walks_subtree (subtree : option ASTNode) : Prop :=
  (forall key, from_option (mentions key) false subtree = false ->
     from_option (constraintsOf key) [] subtree = [])
  /\ (forall filters key, In key SYNTAX_FILTER_KEYS ->
        Record_get (traverse_subtree subtree filters) key
        = if from_option (mentions key) false subtree
          then Some (default [] (Record_get filters key)
                     ++ from_option (constraintsOf key) [] subtree)
          else Record_get filters key)
  /\ (forall filters key, ~ In key SYNTAX_FILTER_KEYS ->
        Record_get (traverse_subtree subtree filters) key = Record_get filters key)
  /\ (forall filters, List.NoDup (Object_keys filters) ->
        List.NoDup (Object_keys (traverse_subtree subtree filters))).




(** The constraints of a parsed query, as [getFilters] flattens them. *)
Definition parsedFilters (parsed : ParsedQuery) : QueryFilters :=
  match parsed_filters parsed with
  | Some root => traverse root []
  | None => []
  end.

(** * Properties *)

(** ** Dictionaries *)

Lemma Record_get_set_eq {V : Type} (o : list (string * V)) (k : string) (v : V) :
  Record_get (Record_set o k v) k = Some v.
Proof.
  induction o as [|[k' v'] o IH]; simpl.
  - now rewrite String.eqb_refl.
  - destruct (String.eqb k' k) eqn:E; simpl; rewrite E; auto.
Qed.

Lemma Record_get_set_ne {V : Type} (o : list (string * V)) (k k' : string) (v : V) :
  k' <> k -> Record_get (Record_set o k v) k' = Record_get o k'.
Proof.
  intros Hne. induction o as [|[k0 v0] o IH]; simpl.
  - destruct (String.eqb k k') eqn:E; auto.
    apply String.eqb_eq in E. congruence.
  - destruct (String.eqb k0 k) eqn:E; simpl.
    + apply String.eqb_eq in E. subst k0.
      destruct (String.eqb k k') eqn:E'; auto.
      apply String.eqb_eq in E'. congruence.
    + destruct (String.eqb k0 k'); auto.
Qed.

Lemma In_Record_set {V : Type} (o : list (string * V)) (k k' : string) (v v' : V) :
  In (k', v') (Record_set o k v) -> (k' = k /\ v' = v) \/ In (k', v') o.
Proof.
  induction o as [|[k0 v0] o IH]; simpl.
  - intros [H|[]]. inversion H. auto.
  - destruct (String.eqb k0 k) eqn:E; simpl.
    + apply String.eqb_eq in E. subst k0.
      intros [H|H]; [inversion H; auto | auto].
    + intros [H|H]; [auto | ]. destruct (IH H); auto.
Qed.

Lemma Record_get_In {V : Type} (o : list (string * V)) (k : string) (v : V) :
  Record_get o k = Some v -> In (k, v) o.
Proof.
  induction o as [|[k0 v0] o IH]; simpl; [discriminate|].
  destruct (String.eqb k0 k) eqn:E.
  - apply String.eqb_eq in E. intros [= ->]. subst. auto.
  - auto.
Qed.

(** ** The filter flattener *)

Lemma filterKeys_includes (nodeKey : string) :
  existsb (String.eqb nodeKey) SYNTAX_FILTER_KEYS = true <-> In nodeKey SYNTAX_FILTER_KEYS.
Proof.
  rewrite existsb_exists. split.
  - intros (k & Hin & Heq). apply String.eqb_eq in Heq. now subst.
  - intros Hin. exists nodeKey. split; [assumption | apply String.eqb_refl].
Qed.

(** C6. A node whose [left] is a filter key and whose [right] is an array
    adds, at the end of the constraints already filed under that key, one
    constraint per element of the array, in order, each with the operator of
    the node and the element as value; no other key is touched.  The tree
    [category:A,B] alone, and the same leaf under an [and] next to another
    constraint, yield for [category] exactly the two constraints [eq A] and
    [eq B]. *)
Theorem getFilters_array_right
    (nodeOperator : Operator) (nodeKey : string) (elements : list string)
    (filters : QueryFilters) :
  In nodeKey SYNTAX_FILTER_KEYS ->
  let node := mkASTNode (Some nodeOperator) (LeftString nodeKey) (RightArray elements) in
  let category_A_B :=
    mkASTNode (Some EQUAL_TO) (LeftString "category") (RightArray ["A"; "B"]%string) in
  let amount_gt_100 :=
    mkASTNode (Some GREATER_THAN) (LeftString "amount") (RightString "100") in
  let queryOf root :=
    {| type := "expense"; status := "all"; sortBy := "date"; sortOrder := "desc";
       policyID := None; filters := Some root; flatFilters := [];
       inputQuery := EmptyString; hash := 0 |} in
  Record_get (traverse node filters) nodeKey
    = Some (default [] (Record_get filters nodeKey)
            ++ map (fun element => {| operator := nodeOperator; value := element |}) elements)
  /\ (forall other, other <> nodeKey ->
        Record_get (traverse node filters) other = Record_get filters other)
  /\ getFilters (queryOf category_A_B)
     = [("category"%string,
         [{| operator := EQUAL_TO; value := "A" |}; {| operator := EQUAL_TO; value := "B" |}])]
  /\ Record_get
       (getFilters (queryOf (mkASTNode (Some AND) (LeftNode amount_gt_100) (RightNode category_A_B))))
       "category"
     = Some [{| operator := EQUAL_TO; value := "A" |}; {| operator := EQUAL_TO; value := "B" |}].
Proof.
  intros Hkey node category_A_B amount_gt_100 queryOf.
  apply filterKeys_includes in Hkey.
  repeat split.
  - unfold node. cbn [traverse]. rewrite Hkey. apply Record_get_set_eq.
  - intros other Hne. unfold node. cbn [traverse]. rewrite Hkey.
    now apply Record_get_set_ne.
Qed.

Lemma getFilters_array_right_witness :
  In "category"%string SYNTAX_FILTER_KEYS
  /\ Record_get
       (traverse (mkASTNode (Some EQUAL_TO) (LeftString "category") (RightArray ["A"; "B"]%string))
          [("category"%string, [{| operator := NOT_EQUAL_TO; value := "C" |}])])
       "category"
     = Some [{| operator := NOT_EQUAL_TO; value := "C" |};
             {| operator := EQUAL_TO; value := "A" |};
             {| operator := EQUAL_TO; value := "B" |}].
Proof.
  assert (Hin : In "category"%string SYNTAX_FILTER_KEYS) by (vm_compute; tauto).
  split; [exact Hin|].
  exact (proj1 (getFilters_array_right EQUAL_TO "category" ["A"; "B"]%string
                  [("category"%string, [{| operator := NOT_EQUAL_TO; value := "C" |}])] Hin)).
Defined.

(** ** Merchant-column visibility *)

Lemma fold_left_invariant {A B : Type} (P : A -> Prop) (f : A -> B -> A) (l : list B) (a : A) :
  P a -> (forall a x, P a -> P (f a x)) -> P (fold_left f l a).
Proof.
  intros Ha Hstep. revert a Ha.
  induction l as [|x l IH]; simpl; auto.
Qed.

Lemma negb_eqb_true (a b : string) : negb (String.eqb a b) = true <-> a <> b.
Proof.
  rewrite negb_true_iff. apply String.eqb_neq.
Qed.

Lemma merchantOfEntry_eq (item : SearchTransaction.t) :
  merchantOfEntry item
  = match SearchTransaction.modifiedMerchant item with
    | Some (String c rest) => String c rest
    | _ => default EmptyString (SearchTransaction.merchant item)
    end.
Proof.
  unfold merchantOfEntry.
  destruct (SearchTransaction.modifiedMerchant item) as [[|c rest]|]; reflexivity.
Qed.

(** Every transaction filed in a group by [getReportSections] carries the
    flag the loop was started with. *)
Lemma getReportSections_step_flag (ext : Externals) (data : SearchData)
    (metadata : option SearchMetadata) (flag year : bool)
    (acc : list (string * ReportListItemType.t)) (keyed : string * Entry) :
  (forall k group transactions row,
      In (k, group) acc -> ReportListItemType.transactions group = Some transactions ->
      In row transactions -> TransactionListItemType.shouldShowMerchant row = flag) ->
  forall k group transactions row,
    In (k, group) (getReportSections_step ext data metadata flag year acc keyed) ->
    ReportListItemType.transactions group = Some transactions ->
    In row transactions -> TransactionListItemType.shouldShowMerchant row = flag.
Proof.
  intros Hacc k group transactions row Hin Hts Hrow.
  destruct keyed as [key entry]. unfold getReportSections_step in Hin.
  destruct (isReportEntry key).
  - destruct entry as [reportItem| | |]; try (eapply Hacc; eassumption).
    apply In_Record_set in Hin. destruct Hin as [[_ ->]|Hin]; [|eapply Hacc; eassumption].
    simpl in Hts. injection Hts as <-.
    destruct (Record_get acc (reportKeyOf (SearchReport.reportID reportItem))) as [old|] eqn:Hold;
      simpl in Hrow; [|contradiction].
    destruct (ReportListItemType.transactions old) as [ts|] eqn:Hts'; simpl in Hrow; [|contradiction].
    eapply Hacc; [eapply Record_get_In; exact Hold | exact Hts' | exact Hrow].
  - destruct (isTransactionEntry key); [|eapply Hacc; eassumption].
    destruct entry as [|transactionItem| |]; try (eapply Hacc; eassumption).
    destruct (Record_get acc (reportKeyOf (SearchTransaction.reportID transactionItem)))
      as [old|] eqn:Hold; [|eapply Hacc; eassumption].
    destruct (ReportListItemType.transactions old) as [ts|] eqn:Hts';
      apply In_Record_set in Hin; destruct Hin as [[_ ->]|Hin];
      try (eapply Hacc; eassumption);
      simpl in Hts; injection Hts as <-.
    + apply in_app_or in Hrow. destruct Hrow as [Hrow|[<-|[]]].
      * eapply Hacc; [eapply Record_get_In; exact Hold | exact Hts' | exact Hrow].
      * reflexivity.
    + destruct Hrow as [<-|[]]. reflexivity.
Qed.

(** C8. [getShouldShowMerchant] is true exactly when some transaction entry of
    the payload has a merchant (its [modifiedMerchant] when that is a
    non-empty string, its [merchant] or [''] otherwise) that is neither empty
    nor one of the two placeholder merchants; and that one value is the flag
    of every row built from the payload, by [getTransactionsSections] and by
    [getReportSections] alike. *)
Theorem getShouldShowMerchant_iff
    (ext : Externals) (data : SearchData) (metadata : option SearchMetadata) :
  (getShouldShowMerchant ext data = true <->
   exists key item,
     In (key, ETransaction item) data
     /\ isTransactionEntry key = true
     /\ let merchant :=
          match SearchTransaction.modifiedMerchant item with
          | Some (String c rest) => String c rest
          | _ => default EmptyString (SearchTransaction.merchant item)
          end in
        merchant <> EmptyString
        /\ merchant <> PARTIAL_TRANSACTION_MERCHANT ext
        /\ merchant <> DEFAULT_MERCHANT ext)
  /\ (forall row,
        In row (getTransactionsSections ext data metadata) ->
        TransactionListItemType.shouldShowMerchant row = getShouldShowMerchant ext data)
  /\ (forall group transactions row,
        In group (getReportSections ext data metadata) ->
        ReportListItemType.transactions group = Some transactions ->
        In row transactions ->
        TransactionListItemType.shouldShowMerchant row = getShouldShowMerchant ext data).
Proof.
  split; [|split].
  - unfold getShouldShowMerchant. rewrite existsb_exists. split.
    + intros ([key entry] & Hin & Htest).
      destruct (isTransactionEntry key) eqn:Hkey; [|discriminate].
      destruct entry as [|item| |]; try discriminate.
      exists key, item. rewrite <- merchantOfEntry_eq. cbv zeta.
      apply andb_true_iff in Htest. destruct Htest as [Htest H3].
      apply andb_true_iff in Htest. destruct Htest as [H1 H2].
      rewrite negb_eqb_true in H1, H2, H3. auto.
    + intros (key & item & Hin & Hkey & Hmerchant).
      rewrite <- merchantOfEntry_eq in Hmerchant. cbv zeta in Hmerchant.
      destruct Hmerchant as (H1 & H2 & H3).
      exists (key, ETransaction item). split; [assumption|].
      rewrite Hkey. rewrite !andb_true_iff, !negb_eqb_true. auto.
  - intros row Hin. unfold getTransactionsSections in Hin.
    apply in_flat_map in Hin. destruct Hin as ([key entry] & _ & Hin).
    destruct (isTransactionEntry key); [|contradiction].
    destruct entry as [|item| |]; try contradiction.
    destruct Hin as [<-|[]]. reflexivity.
  - intros group transactions row Hin.
    unfold getReportSections, Object_values in Hin.
    apply in_map_iff in Hin. destruct Hin as ([k g] & <- & Hin). simpl.
    revert k g transactions row Hin. unfold getReportSections_groups.
    apply fold_left_invariant.
    + intros k g transactions row [].
    + intros acc keyed Hacc. now apply getReportSections_step_flag.
Qed.

Lemma getShouldShowMerchant_iff_witness :
  let blank := sampleTransaction "t1" "r" "2024-01-01" None (Some EmptyString) in
  let coffee := sampleTransaction "t2" "r" "2024-01-01" None (Some "Coffee Shop"%string) in
  let partial := sampleTransaction "t3" "r" "2024-01-01" None (Some "(none)"%string) in
  let expense := sampleTransaction "t4" "r" "2024-01-01" None (Some "Expense"%string) in
  getShouldShowMerchant sampleExternals
    [("transaction_t1"%string, ETransaction blank); ("transaction_t2"%string, ETransaction coffee)]
  = true
  /\ getShouldShowMerchant sampleExternals
       [("transaction_t1"%string, ETransaction blank);
        ("transaction_t3"%string, ETransaction partial);
        ("transaction_t4"%string, ETransaction expense)]
     = false.
Proof.
  intros blank coffee partial expense. split; [|reflexivity].
  apply (proj1 (getShouldShowMerchant_iff sampleExternals
                  [("transaction_t1"%string, ETransaction blank);
                   ("transaction_t2"%string, ETransaction coffee)] None)).
  exists "transaction_t2"%string, coffee.
  split; [simpl; auto|]. split; [reflexivity|].
  cbv zeta. repeat split; discriminate.
Defined.

(** ** Parsing never throws outward *)

(** C5. Whatever the parser does on [query], [buildSearchQueryJSON] ends
    normally.  When the parser throws, the result is [undefined] and one line
    has been written with [console.error]; when the parser returns, the result
    is a query that carries the parser's root values, the input string, the
    hash of the flattened filters and those filters as the hash left them
    (each key's constraints sorted), and nothing is written.  The result is
    [undefined] exactly when the parser threw. *)
Theorem buildSearchQueryJSON_never_throws
    (ext : Externals) (searchParser_parse : string -> JS.Completion ParsedQuery)
    (query : string) (console : JS.Console) :
  (exists (result : option SearchQueryJSON) (console' : JS.Console),
      buildSearchQueryJSON ext searchParser_parse query console = (JS.Normal result, console')
      /\ (result = None <-> exists e, searchParser_parse query = JS.Throw e))
  /\ match searchParser_parse query with
     | JS.Throw e =>
         exists line,
           buildSearchQueryJSON ext searchParser_parse query console
           = (JS.Normal None, console ++ [line])
     | JS.Normal parsed =>
         let parsedQuery flat :=
           {| type := parsed_type parsed; status := parsed_status parsed;
              sortBy := parsed_sortBy parsed; sortOrder := parsed_sortOrder parsed;
              policyID := parsed_policyID parsed; filters := parsed_filters parsed;
              flatFilters := flat; inputQuery := query; hash := 0 |} in
         let flat := getFilters (parsedQuery []) in
         exists result,
           buildSearchQueryJSON ext searchParser_parse query console
           = (JS.Normal (Some result), console)
           /\ type result = parsed_type parsed
           /\ status result = parsed_status parsed
           /\ sortBy result = parsed_sortBy parsed
           /\ sortOrder result = parsed_sortOrder parsed
           /\ policyID result = parsed_policyID parsed
           /\ filters result = parsed_filters parsed
           /\ inputQuery result = query
           /\ flatFilters result = flatFilters_afterHash (parsedQuery flat)
           /\ hash result = getQueryHash ext (parsedQuery flat)
     end.
Proof.
  unfold buildSearchQueryJSON, JS.try_catch, JS.bind, JS.call, JS.console_error, JS.ret.
  destruct (searchParser_parse query) as [parsed|e] eqn:Hparse.
  - split.
    + eexists _, _. split; [reflexivity|]. split; [discriminate|].
      intros [e He]. discriminate.
    + eexists. split; [reflexivity|]. cbn. repeat split.
  - split.
    + eexists _, _. split; [reflexivity|]. split; [eauto|reflexivity].
    + eexists. reflexivity.
Qed.

(** ** [Array.prototype.sort] *)

Section ArraySortFacts.
Context {A : Type}.
Variable comparefn : A -> A -> Z.

Lemma insertPivot_Permutation (sorted : list A) (pivot : A) :
  Permutation (JS.insertPivot comparefn sorted pivot) (pivot :: sorted).
Proof.
  unfold JS.insertPivot.
  set (left := JS.findInsertionPoint _ _ _ _ _ _).
  rewrite <- Permutation_middle. constructor.
  now rewrite firstn_skipn.
Qed.

Lemma BinaryInsertionSort_Permutation (rest sorted : list A) :
  Permutation (JS.BinaryInsertionSort comparefn sorted rest) (sorted ++ rest).
Proof.
  revert sorted. induction rest as [|pivot rest IH]; intros sorted; simpl.
  - now rewrite app_nil_r.
  - rewrite IH, insertPivot_Permutation.
    now rewrite <- Permutation_middle.
Qed.

Lemma CountAndMakeRun_Permutation (array : list A) :
  Permutation (snd (JS.CountAndMakeRun comparefn array)) array.
Proof.
  destruct array as [|x [|y rest]]; simpl; try reflexivity.
  destruct (comparefn y x <? 0); [|reflexivity].
  set (n := JS.runTail comparefn true y rest).
  change (Permutation (rev (firstn (S (S n)) (x :: y :: rest)) ++ skipn (S (S n)) (x :: y :: rest))
            (x :: y :: rest)).
  rewrite <- Permutation_rev. now rewrite firstn_skipn.
Qed.

(** Sorting permutes: no element is lost or made up, whatever the comparator. *)
Lemma Array_sort_Permutation (array : list A) :
  Permutation (JS.Array_sort comparefn array) array.
Proof.
  unfold JS.Array_sort.
  destruct (List.length array <? 2)%nat; [reflexivity|].
  pose proof (CountAndMakeRun_Permutation array) as Hrun.
  destruct (JS.CountAndMakeRun comparefn array) as [runLength workArray]. simpl in Hrun.
  rewrite BinaryInsertionSort_Permutation, firstn_skipn. exact Hrun.
Qed.

Lemma runTail_all_zero (rest : list A) (previousElement : A) :
  (forall a b, In a (previousElement :: rest) -> In b (previousElement :: rest) ->
               comparefn a b = 0) ->
  JS.runTail comparefn false previousElement rest = List.length rest.
Proof.
  revert previousElement. induction rest as [|current rest IH]; intros previous H; simpl.
  - reflexivity.
  - rewrite (H current previous) by (simpl; auto). simpl.
    f_equal. apply IH. intros a b Ha Hb. apply H; simpl; auto.
Qed.

(** When the comparator answers [0] on every pair of elements, the array is
    one ascending run and is left as it is. *)
Lemma Array_sort_all_zero (array : list A) :
  (forall a b, In a array -> In b array -> comparefn a b = 0) ->
  JS.Array_sort comparefn array = array.
Proof.
  intros H. unfold JS.Array_sort.
  destruct array as [|x [|y rest]]; try reflexivity.
  change (List.length (x :: y :: rest) <? 2)%nat with false. cbv iota.
  unfold JS.CountAndMakeRun.
  rewrite (H y x) by (simpl; auto). simpl (0 <? 0). cbv iota.
  rewrite runTail_all_zero by (intros a b Ha Hb; apply H; simpl; simpl in Ha, Hb; tauto).
  change (2 + List.length rest)%nat with (List.length (x :: y :: rest)).
  change (0 <? 0) with false. cbv iota.
  rewrite firstn_all, skipn_all. reflexivity.
Qed.

End ArraySortFacts.

(** *** Sorting by a consistent comparator

    [R] is the strict order the comparator is meant to decide.  On an array
    of distinct elements on which the comparator agrees with [R], [sort]
    returns the elements in ascending order. *)
Section ArraySortSorts.
Context {A : Type}.
Variable comparefn : A -> A -> Z.
Variable R : A -> A -> Prop.
Hypothesis R_trans : forall a b c, R a b -> R b c -> R a c.

(** The comparator agrees with [R] on the distinct elements of [l]. *)
Definition consistentOn (l : list A) : Prop :=
  forall a b, In a l -> In b l -> a <> b ->
    (comparefn a b < 0 -> R a b) /\ (0 <= comparefn a b -> R b a).

Lemma consistentOn_Permutation (l l' : list A) :
  Permutation l l' -> consistentOn l -> consistentOn l'.
Proof.
  intros Hperm H a b Ha Hb. apply H; eapply Permutation_in; try eassumption;
    now symmetry.
Qed.

Lemma nth_error_take_drop (s : list A) (mid : nat) (element : A) :
  nth_error s mid = Some element ->
  skipn mid s = element :: skipn (S mid) s
  /\ firstn (S mid) s = firstn mid s ++ [element].
Proof.
  intros Hnth.
  destruct (nth_error_split s mid Hnth) as (l1 & l2 & -> & <-).
  rewrite take_app_length, drop_app_length.
  rewrite (cons_middle element l1 l2), app_assoc.
  rewrite (take_app_length' (l1 ++ [element]) l2) by (rewrite length_app; simpl; lia).
  rewrite (drop_app_length' (l1 ++ [element]) l2) by (rewrite length_app; simpl; lia).
  auto.
Qed.

Lemma StronglySorted_nth_error (s : list A) (mid : nat) (element : A) :
  StronglySorted R s -> nth_error s mid = Some element ->
  Forall (fun x => R x element) (firstn mid s) /\ Forall (R element) (skipn (S mid) s).
Proof.
  intros Hsorted Hnth.
  destruct (nth_error_take_drop s mid element Hnth) as [Hdrop _].
  rewrite <- (firstn_skipn mid s), Hdrop in Hsorted.
  apply StronglySorted_app in Hsorted. destruct Hsorted as (Hcross & _ & Hright).
  apply StronglySorted_cons in Hright. destruct Hright as [Hright _].
  split; [|exact Hright].
  apply List.Forall_forall. intros x Hx. apply Hcross.
  - now apply list_elem_of_In.
  - left.
Qed.

(** The binary search keeps what lies left of [left] below the pivot and
    what lies from [right] on above it. *)
Lemma findInsertionPoint_spec (pivot : A) (s : list A) :
  StronglySorted R s ->
  (forall x, In x s -> (comparefn pivot x < 0 -> R pivot x) /\ (0 <= comparefn pivot x -> R x pivot)) ->
  forall fuel left right,
    (left <= right <= List.length s)%nat -> (right - left <= fuel)%nat ->
    Forall (fun x => R x pivot) (firstn left s) ->
    Forall (R pivot) (skipn right s) ->
    let p := JS.findInsertionPoint comparefn fuel pivot s left right in
    Forall (fun x => R x pivot) (firstn p s) /\ Forall (R pivot) (skipn p s).
Proof.
  intros Hsorted Hpivot.
  induction fuel as [|fuel IH]; intros left right Hbounds Hfuel Hleft Hright; simpl.
  - assert (left = right) as -> by lia. auto.
  - destruct (left <? right)%nat eqn:Hlt.
    2: { apply Nat.ltb_ge in Hlt. assert (left = right) as -> by lia. auto. }
    apply Nat.ltb_lt in Hlt.
    set (mid := (left + Nat.div2 (right - left))%nat).
    assert (Hmid : (left <= mid < right)%nat).
    { unfold mid.
      assert (Hhalf : (Nat.div2 (right - left) < right - left)%nat)
        by (apply Nat.lt_div2; lia).
      revert Hhalf. generalize (Nat.div2 (right - left)). intros half Hhalf. lia. }
    destruct (nth_error s mid) as [element|] eqn:Hnth.
    2: { apply nth_error_None in Hnth. lia. }
    destruct (StronglySorted_nth_error s mid element Hsorted Hnth) as [Hbelow Habove].
    assert (Hin : In element s) by (eapply nth_error_In; eassumption).
    destruct (Hpivot element Hin) as [Hneg Hpos].
    destruct (nth_error_take_drop s mid element Hnth) as [Hdrop Htake].
    destruct (comparefn pivot element <? 0) eqn:Hcmp.
    + apply Z.ltb_lt in Hcmp. apply IH; [lia|lia|exact Hleft|].
      rewrite Hdrop. constructor; [auto|].
      eapply List.Forall_impl; [|exact Habove].
      intros x Hx. exact (R_trans _ _ _ (Hneg Hcmp) Hx).
    + apply Z.ltb_ge in Hcmp. apply IH; [lia|lia| |exact Hright].
      rewrite Htake. apply Forall_app. split.
      * eapply List.Forall_impl; [|exact Hbelow].
        intros x Hx. exact (R_trans _ _ _ Hx (Hpos Hcmp)).
      * constructor; auto.
Qed.

Lemma insertPivot_sorted (sorted : list A) (pivot : A) :
  StronglySorted R sorted ->
  (forall x, In x sorted ->
     (comparefn pivot x < 0 -> R pivot x) /\ (0 <= comparefn pivot x -> R x pivot)) ->
  StronglySorted R (JS.insertPivot comparefn sorted pivot).
Proof.
  intros Hsorted Hpivot. unfold JS.insertPivot.
  destruct (findInsertionPoint_spec pivot sorted Hsorted Hpivot
              (List.length sorted) 0 (List.length sorted)) as [Hbelow Habove].
  { lia. } { lia. } { constructor. } { rewrite skipn_all. constructor. }
  set (p := JS.findInsertionPoint _ _ _ _ _ _) in *.
  rewrite <- (firstn_skipn p sorted) in Hsorted.
  apply StronglySorted_app in Hsorted. destruct Hsorted as (Hcross & Hl & Hr).
  apply StronglySorted_app. split; [|split; [exact Hl|]].
  - intros x1 x2 H1 H2. apply list_elem_of_In in H2. destruct H2 as [<-|H2].
    + rewrite List.Forall_forall in Hbelow. apply Hbelow. now apply list_elem_of_In.
    + apply Hcross; [exact H1|now apply list_elem_of_In].
  - apply StronglySorted_cons. auto.
Qed.

Lemma BinaryInsertionSort_sorted (rest sorted : list A) :
  StronglySorted R sorted -> List.NoDup (sorted ++ rest) -> consistentOn (sorted ++ rest) ->
  StronglySorted R (JS.BinaryInsertionSort comparefn sorted rest).
Proof.
  revert sorted. induction rest as [|pivot rest IH]; intros sorted Hsorted Hnodup Hcons; simpl.
  - exact Hsorted.
  - assert (Hperm : Permutation (sorted ++ pivot :: rest)
                      (JS.insertPivot comparefn sorted pivot ++ rest)).
    { rewrite insertPivot_Permutation. now rewrite <- Permutation_middle. }
    apply IH.
    + apply insertPivot_sorted; [exact Hsorted|].
      intros x Hx. apply Hcons.
      * apply in_or_app. right. now left.
      * apply in_or_app. now left.
      * intros <-. apply NoDup_remove_2 in Hnodup. apply Hnodup.
        apply in_or_app. now left.
    + eapply Permutation_NoDup; [exact Hperm|exact Hnodup].
    + eapply consistentOn_Permutation; [exact Hperm|exact Hcons].
Qed.

(** The run that [CountAndMakeRun] finds is a chain for [Q], which is [R] for
    an ascending run and its converse for a descending one. *)
Lemma runTail_chain (Q : A -> A -> Prop) (isDescending : bool) :
  (forall a b c, Q a b -> Q b c -> Q a c) ->
  forall rest previous,
    (forall prev cur, In prev (previous :: rest) -> In cur (previous :: rest) -> prev <> cur ->
       (if isDescending then 0 <=? comparefn cur prev else comparefn cur prev <? 0) = false ->
       Q prev cur) ->
    List.NoDup (previous :: rest) ->
    StronglySorted Q
      (previous :: firstn (JS.runTail comparefn isDescending previous rest) rest).
Proof.
  intros Q_trans. induction rest as [|current rest IH]; intros previous Hstep Hnodup; simpl.
  - repeat constructor.
  - destruct (if isDescending then 0 <=? comparefn current previous
              else comparefn current previous <? 0) eqn:Hstop.
    + repeat constructor.
    + assert (Hq : Q previous current).
      { apply Hstep; [now left|right; now left| |exact Hstop].
        intros ->. inversion Hnodup as [|? ? Hnotin _]; subst. apply Hnotin. now left. }
      assert (Htail : StronglySorted Q
                        (current :: firstn (JS.runTail comparefn isDescending current rest) rest)).
      { apply IH.
        - intros prev cur Hp Hc. apply Hstep; now right.
        - now inversion Hnodup. }
      simpl. constructor; [exact Htail|].
      constructor; [exact Hq|].
      apply StronglySorted_cons in Htail. destruct Htail as [Htail _].
      eapply List.Forall_impl; [|exact Htail]. intros x Hx. eapply Q_trans; eauto.
Qed.

Lemma StronglySorted_rev (l : list A) :
  StronglySorted (fun a b => R b a) l -> StronglySorted R (rev l).
Proof.
  induction 1 as [|x l Hl IH Hx]; simpl; [constructor|].
  apply StronglySorted_app. split; [|split; [exact IH|repeat constructor]].
  intros x1 x2 H1 H2. apply list_elem_of_In in H2. destruct H2 as [<-|[]].
  rewrite List.Forall_forall in Hx. apply Hx.
  apply list_elem_of_In in H1. now apply in_rev.
Qed.

Lemma runTail_le (isDescending : bool) (rest : list A) :
  forall previous, (JS.runTail comparefn isDescending previous rest <= List.length rest)%nat.
Proof.
  induction rest as [|current rest IH]; intros previous; simpl; [lia|].
  destruct (if isDescending then _ else _); [lia|].
  specialize (IH current). lia.
Qed.

Lemma CountAndMakeRun_sorted (array : list A) :
  List.NoDup array -> consistentOn array ->
  StronglySorted R
    (firstn (fst (JS.CountAndMakeRun comparefn array)) (snd (JS.CountAndMakeRun comparefn array))).
Proof.
  intros Hnodup Hcons.
  destruct array as [|x [|y rest]]; [constructor|repeat constructor|].
  inversion Hnodup as [|? ? Hx Hnodup']; subst.
  assert (Hxy : x <> y) by (intros ->; apply Hx; now left).
  unfold JS.CountAndMakeRun.
  destruct (comparefn y x <? 0) eqn:Hdesc; cbn [fst snd].
  - (* a descending run, reversed *)
    apply Z.ltb_lt in Hdesc.
    set (n := JS.runTail comparefn true y rest).
    assert (Hrun : StronglySorted (fun a b => R b a) (x :: y :: firstn n rest)).
    { assert (Htail : StronglySorted (fun a b => R b a) (y :: firstn n rest)).
      { apply runTail_chain; [intros a b c Hab Hbc; eapply R_trans; eauto| |exact Hnodup'].
        intros prev cur Hp Hc Hne Hstop. apply Z.leb_gt in Hstop.
        apply (Hcons cur prev); [now right|now right|congruence|exact Hstop]. }
      constructor; [exact Htail|].
      assert (Hyx : R y x) by (apply (Hcons y x); [right; now left|now left|congruence|exact Hdesc]).
      constructor; [exact Hyx|].
      apply StronglySorted_cons in Htail. destruct Htail as [Htail _].
      eapply List.Forall_impl; [|exact Htail].
      intros z Hz. exact (R_trans _ _ _ Hz Hyx). }
    change (firstn (2 + n) (x :: y :: rest)) with (x :: y :: firstn n rest).
    rewrite take_app_length'.
    + apply StronglySorted_rev. exact Hrun.
    + rewrite length_rev. cbn [List.length]. rewrite length_firstn.
      pose proof (runTail_le true rest y). fold n in H. lia.
  - (* an ascending run *)
    apply Z.ltb_ge in Hdesc.
    set (n := JS.runTail comparefn false y rest).
    change (firstn (2 + n) (x :: y :: rest)) with (x :: y :: firstn n rest).
    assert (Htail : StronglySorted R (y :: firstn n rest)).
    { apply runTail_chain; [exact R_trans| |exact Hnodup'].
      intros prev cur Hp Hc Hne Hstop. apply Z.ltb_ge in Hstop.
      apply (Hcons cur prev); [now right|now right|congruence|exact Hstop]. }
    constructor; [exact Htail|].
    assert (Hxy' : R x y) by (apply (Hcons y x); [right; now left|now left|congruence|exact Hdesc]).
    constructor; [exact Hxy'|].
    apply StronglySorted_cons in Htail. destruct Htail as [Htail _].
    eapply List.Forall_impl; [|exact Htail].
    intros z Hz. exact (R_trans _ _ _ Hxy' Hz).
Qed.

(** [sort] sorts: on distinct elements on which the comparator agrees with
    the strict order [R], the result is in ascending order. *)
Lemma Array_sort_sorted (array : list A) :
  List.NoDup array -> consistentOn array -> StronglySorted R (JS.Array_sort comparefn array).
Proof.
  intros Hnodup Hcons. unfold JS.Array_sort.
  destruct (List.length array <? 2)%nat eqn:Hlen.
  - apply Nat.ltb_lt in Hlen.
    destruct array as [|x [|y rest]]; [constructor|repeat constructor|simpl in Hlen; lia].
  - pose proof (CountAndMakeRun_sorted array Hnodup Hcons) as Hrun.
    pose proof (CountAndMakeRun_Permutation comparefn array) as Hperm.
    destruct (JS.CountAndMakeRun comparefn array) as [runLength workArray].
    simpl in Hrun, Hperm.
    apply BinaryInsertionSort_sorted; [exact Hrun| |]; rewrite firstn_skipn.
    + eapply Permutation_NoDup; [symmetry; exact Hperm|exact Hnodup].
    + eapply consistentOn_Permutation; [symmetry; exact Hperm|exact Hcons].
Qed.

(** Two arrays with the same distinct elements sort to the same array. *)
Lemma Array_sort_Permutation_eq (array array' : list A) :
  (forall a, ~ R a a) ->
  List.NoDup array -> consistentOn array -> Permutation array array' ->
  JS.Array_sort comparefn array = JS.Array_sort comparefn array'.
Proof.
  intros Hirrefl Hnodup Hcons Hperm.
  apply (StronglySorted_unique_strong R).
  - intros x1 x2 _ _ H12 H21. destruct (Hirrefl x1). eapply R_trans; eauto.
  - now apply Array_sort_sorted.
  - apply Array_sort_sorted.
    + eapply Permutation_NoDup; eassumption.
    + eapply consistentOn_Permutation; eassumption.
  - rewrite !Array_sort_Permutation. exact Hperm.
Qed.

End ArraySortSorts.

(** ** The sorting functions work in place *)

Lemma Array_sort_in_place_spec {A : Type} (comparefn : A -> A -> Z)
    (data : ArrayRef) (store : gmap ArrayRef (list A)) :
  fst (Array_sort_in_place comparefn data store) = data
  /\ (forall other, other <> data ->
        snd (Array_sort_in_place comparefn data store) !! other = store !! other)
  /\ (forall elements, store !! data = Some elements ->
        snd (Array_sort_in_place comparefn data store) !! data
        = Some (JS.Array_sort comparefn elements)).
Proof.
  unfold Array_sort_in_place.
  destruct (store !! data) as [elements|] eqn:Hdata; simpl.
  - split; [reflexivity|]. split.
    + intros other Hne. now rewrite lookup_insert_ne.
    + intros ? [= <-]. now rewrite lookup_insert_eq.
  - split; [reflexivity|]. split; [reflexivity|]. intros ? [=].
Qed.

(** C7, the claim as it stands, refuted.  A caller's array of chat rows holds
    an older row before a newer one; after [getSortedReportActionData] the
    same array holds the newer row first.  Likewise for a caller's array of
    transaction rows sorted by total amount, and for an array of report
    rows.  (The dates are compared by the sample collation, which orders two
    dates of one format as their digits do.) *)
Lemma sorting_mutates_the_caller_array :
  let older := sampleReportActionRow "1" (Some "2024-01-01 10:00:00"%string) in
  let newer := sampleReportActionRow "2" (Some "2024-02-01 10:00:00"%string) in
  let dear := sampleRow "t1" (Some 500) None in
  let cheap := sampleRow "t2" (Some (-200)) None in
  let march := sampleReportRow "A" [sampleDatedRow "t1" "2024-03-01" None] in
  let may := sampleReportRow "B" [sampleDatedRow "t2" "2024-05-01" None] in
  let data : ArrayRef := 1%positive in
  (({[ data := [older; newer] ]} : gmap ArrayRef _) !! data = Some [older; newer]
   /\ snd (getSortedReportActionData sampleExternals data {[ data := [older; newer] ]}) !! data
      = Some [newer; older])
  /\ snd (getSortedTransactionData sampleExternals data (Some COLUMN_TOTAL_AMOUNT) (Some ASC)
            {[ data := [dear; cheap] ]}) !! data
     = Some [cheap; dear]
  /\ snd (getSortedReportData sampleExternals data {[ data := [march; may] ]}) !! data
     = Some [may; march].
Proof.
  vm_compute. repeat split.
Qed.

(** C7, amended.  Each of the three sorting functions returns the reference
    it was given; the array behind that reference holds, after the call, the
    sorted elements, a permutation of the elements it held before; every
    other array of the store is left as it was. *)
Theorem sorting_functions_sort_in_place (ext : Externals) :
  (forall data sortBy sortOrder (store : gmap ArrayRef (list TransactionListItemType.t)),
      fst (getSortedTransactionData ext data sortBy sortOrder store) = data
      /\ (forall other, other <> data ->
            snd (getSortedTransactionData ext data sortBy sortOrder store) !! other
            = store !! other)
      /\ (forall elements, store !! data = Some elements ->
            snd (getSortedTransactionData ext data sortBy sortOrder store) !! data
            = Some (getSortedTransactionData_elements ext elements sortBy sortOrder)
            /\ Permutation (getSortedTransactionData_elements ext elements sortBy sortOrder)
                           elements))
  /\ (forall data (store : gmap ArrayRef (list ReportListItemType.t)),
        fst (getSortedReportData ext data store) = data
        /\ (forall other, other <> data ->
              snd (getSortedReportData ext data store) !! other = store !! other)
        /\ (forall elements, store !! data = Some elements ->
              snd (getSortedReportData ext data store) !! data
              = Some (getSortedReportData_elements ext elements)
              /\ Permutation (getSortedReportData_elements ext elements) elements))
  /\ (forall data (store : gmap ArrayRef (list ReportActionListItemType.t)),
        fst (getSortedReportActionData ext data store) = data
        /\ (forall other, other <> data ->
              snd (getSortedReportActionData ext data store) !! other = store !! other)
        /\ (forall elements, store !! data = Some elements ->
              snd (getSortedReportActionData ext data store) !! data
              = Some (getSortedReportActionData_elements ext elements)
              /\ Permutation (getSortedReportActionData_elements ext elements) elements)).
Proof.
  split; [|split].
  - intros data sortBy sortOrder store.
    unfold getSortedTransactionData, getSortedTransactionData_elements.
    destruct sortBy as [sortBy|]; [destruct sortOrder as [sortOrder|]|];
      try (simpl; repeat split; auto; fail).
    destruct (columnNamesToSortingProperty sortBy) as [sortingProperty|];
      try (simpl; repeat split; auto; fail).
    destruct (Array_sort_in_place_spec (compareTransactions ext sortingProperty sortOrder)
                data store)
      as (H1 & H2 & H3).
    repeat split; auto. apply Array_sort_Permutation.
  - intros data store.
    destruct (Array_sort_in_place_spec (compareReports ext) data store) as (H1 & H2 & H3).
    unfold getSortedReportData, getSortedReportData_elements.
    repeat split; auto. apply Array_sort_Permutation.
  - intros data store.
    destruct (Array_sort_in_place_spec (compareReportActions ext) data store) as (H1 & H2 & H3).
    unfold getSortedReportActionData, getSortedReportActionData_elements.
    repeat split; auto. apply Array_sort_Permutation.
Qed.

Lemma sorting_functions_sort_in_place_witness :
  let older := sampleReportActionRow "1" (Some "2024-01-01 10:00:00"%string) in
  let newer := sampleReportActionRow "2" (Some "2024-02-01 10:00:00"%string) in
  let store : gmap ArrayRef (list ReportActionListItemType.t) :=
    {[ 1%positive := [older; newer]; 2%positive := [older] ]} in
  snd (getSortedReportActionData sampleExternals 1%positive store) !! 2%positive = Some [older]
  /\ Permutation (getSortedReportActionData_elements sampleExternals [older; newer]) [older; newer].
Proof.
  intros older newer store.
  destruct (sorting_functions_sort_in_place sampleExternals) as (_ & _ & H).
  destruct (H 1%positive store) as (_ & Hother & Hdata).
  split.
  - rewrite Hother by discriminate. reflexivity.
  - apply (Hdata [older; newer]). reflexivity.
Defined.

(** ** Sorting transactions when a value is missing *)

(** C9 at two failing inputs.  Rows are sorted by total amount, ascending;
    one of them has no [formattedTotal], and the comparator answers [0] for
    every pair that involves it.  From the totals 2, 1, undefined, 0 the sort
    makes 0, 1, 2, undefined: the row without a total stood before the row of
    total 0 and ends behind it, last.  From 3, undefined, 2, 1 it makes
    3, undefined, 1, 2: the row without a total stays, and the rows around it
    are left out of order, 3 before 1. *)
Theorem undefined_value_row_is_moved (ext : Externals) :
  let row3 := sampleRow "t3" (Some 3) None in
  let row2 := sampleRow "t2" (Some 2) None in
  let row1 := sampleRow "t1" (Some 1) None in
  let rowU := sampleRow "tU" None None in
  let row0 := sampleRow "t0" (Some 0) None in
  sortingValue formattedTotal_ rowU = None
  /\ (forall row, compareTransactions ext formattedTotal_ ASC rowU row = 0
                  /\ compareTransactions ext formattedTotal_ ASC row rowU = 0)
  /\ getSortedTransactionData_elements ext [row2; row1; rowU; row0]
       (Some COLUMN_TOTAL_AMOUNT) (Some ASC)
     = [row0; row1; row2; rowU]
  /\ getSortedTransactionData_elements ext [row3; rowU; row2; row1]
       (Some COLUMN_TOTAL_AMOUNT) (Some ASC)
     = [row3; rowU; row1; row2].
Proof.
  intros row3 row2 row1 rowU row0.
  split; [reflexivity|]. split; [|split; vm_compute; reflexivity].
  intros row. unfold compareTransactions.
  change (sortingValue formattedTotal_ rowU) with (@None SortValue).
  split; [reflexivity|].
  destruct (sortingValue formattedTotal_ row) as [[?|?]|]; reflexivity.
Qed.

(** X30.  What [getSortedTransactionData] leaves alone.  When [sortBy] or
    [sortOrder] is missing, or the column has no sorting property (as tax
    amount and receipt), or no row of the array has a value under the
    column, the call returns the given array and leaves every array as it
    was. *)
Theorem getSortedTransactionData_nothing_to_sort
    (ext : Externals) (data : ArrayRef)
    (sortBy : option SearchColumnType) (sortOrder : option SortOrder)
    (store : gmap ArrayRef (list TransactionListItemType.t)) :
  sortBy = None \/ sortOrder = None
  \/ (exists column, sortBy = Some column /\ columnNamesToSortingProperty column = None)
  \/ (exists column sortingProperty elements,
        sortBy = Some column
        /\ columnNamesToSortingProperty column = Some sortingProperty
        /\ store !! data = Some elements
        /\ forall row, In row elements -> sortingValue sortingProperty row = None) ->
  getSortedTransactionData ext data sortBy sortOrder store = (data, store).
Proof.
  unfold getSortedTransactionData.
  intros [->|[->|[(column & -> & Hcolumn)|(column & sortingProperty & elements & -> & Hcolumn
                                          & Helements & Hall)]]].
  - reflexivity.
  - destruct sortBy; reflexivity.
  - rewrite Hcolumn. destruct sortOrder; reflexivity.
  - rewrite Hcolumn. destruct sortOrder as [sortOrder|]; [|reflexivity].
    unfold Array_sort_in_place. rewrite Helements, Array_sort_all_zero.
    + now rewrite insert_id.
    + intros a b Ha _. unfold compareTransactions. now rewrite (Hall a Ha).
Qed.

Lemma getSortedTransactionData_nothing_to_sort_witness :
  let rowA := sampleRow "a" None None in
  let rowB := sampleRow "b" None None in
  let store : gmap ArrayRef (list TransactionListItemType.t) :=
    {[ 1%positive := [rowA; rowB] ]} in
  columnNamesToSortingProperty COLUMN_TAX_AMOUNT = None
  /\ getSortedTransactionData sampleExternals 1%positive (Some COLUMN_TOTAL_AMOUNT) (Some DESC)
       store
     = (1%positive, store).
Proof.
  intros rowA rowB store. split; [reflexivity|].
  apply getSortedTransactionData_nothing_to_sort.
  right. right. right. exists COLUMN_TOTAL_AMOUNT, formattedTotal_, [rowA; rowB].
  split; [reflexivity|]. split; [reflexivity|]. split; [reflexivity|].
  intros row [<-|[<-|[]]]; reflexivity.
Defined.

(** ** Reports by newest transaction *)

(** C4 at a failing input.  Report A holds a transaction created on
    2024-05-01 and one created on 2024-01-01 whose date was edited to
    2024-01-02; report B holds one transaction created on 2024-03-01.  The
    newest date in A is 2024-05-01, later than B's, yet
    [getReportNewestTransactionDate] answers 2024-01-01 for A (the edited
    transaction wins the [reduce] whatever its date, and its [created] is
    what is returned), so [getSortedReportData] puts B before A. *)
Theorem getSortedReportData_edited_date (ext : Externals) :
  localeCompare ext "2024-01-01" "2024-03-01" < 0 ->
  0 < localeCompare ext "2024-03-01" "2024-01-01" ->
  let reportA :=
    sampleReportRow "A" [sampleDatedRow "t1" "2024-05-01" None;
                         sampleDatedRow "t2" "2024-01-01" (Some "2024-01-02"%string)] in
  let reportB := sampleReportRow "B" [sampleDatedRow "t3" "2024-03-01" None] in
  getReportNewestTransactionDate reportA = Some "2024-01-01"%string
  /\ getReportNewestTransactionDate reportB = Some "2024-03-01"%string
  /\ getSortedReportData_elements ext [reportA; reportB] = [reportB; reportA]
  /\ getSortedReportData_elements ext [reportB; reportA] = [reportB; reportA].
Proof.
  intros Hbefore Hafter reportA reportB.
  assert (HA : getReportNewestTransactionDate reportA = Some "2024-01-01"%string)
    by reflexivity.
  assert (HB : getReportNewestTransactionDate reportB = Some "2024-03-01"%string)
    by reflexivity.
  assert (HBA : compareReports ext reportB reportA
                = localeCompare ext "2024-01-01" "2024-03-01").
  { unfold compareReports. rewrite HA, HB. reflexivity. }
  assert (HAB : compareReports ext reportA reportB
                = localeCompare ext "2024-03-01" "2024-01-01").
  { unfold compareReports. rewrite HA, HB. reflexivity. }
  split; [exact HA|]. split; [exact HB|].
  unfold getSortedReportData_elements, JS.Array_sort.
  cbn [List.length Nat.ltb Nat.leb JS.CountAndMakeRun JS.runTail].
  rewrite HBA, HAB.
  rewrite (proj2 (Z.ltb_lt _ _) Hbefore).
  rewrite (proj2 (Z.ltb_ge _ _) (Z.lt_le_incl _ _ Hafter)).
  split; reflexivity.
Qed.

Lemma getSortedReportData_edited_date_witness :
  let reportA :=
    sampleReportRow "A" [sampleDatedRow "t1" "2024-05-01" None;
                         sampleDatedRow "t2" "2024-01-01" (Some "2024-01-02"%string)] in
  let reportB := sampleReportRow "B" [sampleDatedRow "t3" "2024-03-01" None] in
  getSortedReportData_elements sampleExternals [reportA; reportB] = [reportB; reportA].
Proof.
  intros reportA reportB.
  apply (getSortedReportData_edited_date sampleExternals); reflexivity.
Defined.

(** The date [created] of a transaction row. *)
Lemma newestTransaction_step_unedited (max : option TransactionListItemType.t)
    (curr : TransactionListItemType.t) :
  SearchTransaction.modifiedCreated (TransactionListItemType.transactionItem curr) = None ->
  newestTransaction_step max curr
  = if JS.string_gt
         (SearchTransaction.created (TransactionListItemType.transactionItem curr))
         (default EmptyString
            ((fun t => SearchTransaction.created (TransactionListItemType.transactionItem t))
               <$> max))
    then Some curr else max.
Proof.
  intros Hnone. unfold newestTransaction_step. now rewrite Hnone.
Qed.

Lemma compare_not_Gt_trans (a b c : string) :
  String.compare a b <> Gt -> String.compare b c <> Gt -> String.compare a c <> Gt.
Proof.
  intros Hab Hbc Hac.
  assert (Hca : String.compare c a = Lt).
  { rewrite String.compare_antisym, Hac. reflexivity. }
  destruct (String.compare b c) eqn:Ebc; [| |congruence].
  - apply String.compare_eq_iff in Ebc. subst c.
    apply Hab. rewrite String.compare_antisym, Hca. reflexivity.
  - apply Hab. rewrite String.compare_antisym.
    apply String_as_OT.cmp_lt in Ebc, Hca.
    pose proof (String_as_OT.lt_trans _ _ _ Ebc Hca) as Hba.
    apply String_as_OT.cmp_lt in Hba. unfold String_as_OT.cmp in Hba. rewrite Hba. reflexivity.
Qed.

(** The [reduce] over transactions whose date was never edited: it ends on a
    transaction of the list whose [created] none exceeds. *)
Lemma newestTransaction_fold_unedited (rows : list TransactionListItemType.t) :
  let created t := SearchTransaction.created (TransactionListItemType.transactionItem t) in
  (forall t, In t rows ->
     SearchTransaction.modifiedCreated (TransactionListItemType.transactionItem t) = None) ->
  forall max,
    exists newest,
      fold_left newestTransaction_step rows (Some max) = Some newest
      /\ In newest (max :: rows)
      /\ String.compare (created max) (created newest) <> Gt
      /\ forall t, In t rows -> String.compare (created t) (created newest) <> Gt.
Proof.
  intros created. induction rows as [|curr rows IH]; intros Hunedited max.
  - exists max. cbn [fold_left]. split; [reflexivity|]. split; [now left|]. split.
    + assert (E : String.compare (created max) (created max) = Eq)
        by now apply String_as_OT.cmp_eq.
      congruence.
    + intros t [].
  - cbn [fold_left].
    rewrite newestTransaction_step_unedited by (apply Hunedited; now left).
    cbn [fmap option_fmap option_map default]. unfold JS.string_gt, String.ltb.
    unfold id. fold (created max). fold (created curr).
    destruct (String.compare (created max) (created curr)) eqn:Ecmp.
    + (* equal dates: max stays *)
      destruct (IH (fun t Ht => Hunedited t (or_intror Ht)) max)
        as (newest & Hfold & Hin & Hmax & Hall).
      exists newest. split; [exact Hfold|]. split; [|split; [exact Hmax|]].
      * destruct Hin as [<-|Hin]; [now left|right; now right].
      * intros t [<-|Ht]; [|now apply Hall].
        apply String.compare_eq_iff in Ecmp. rewrite <- Ecmp. exact Hmax.
    + (* curr is newer *)
      destruct (IH (fun t Ht => Hunedited t (or_intror Ht)) curr)
        as (newest & Hfold & Hin & Hcurr & Hall).
      exists newest. split; [exact Hfold|]. split; [|split].
      * right. exact Hin.
      * eapply compare_not_Gt_trans; [|exact Hcurr]. congruence.
      * intros t [<-|Ht]; [exact Hcurr|now apply Hall].
    + (* curr is older: max stays *)
      destruct (IH (fun t Ht => Hunedited t (or_intror Ht)) max)
        as (newest & Hfold & Hin & Hmax & Hall).
      exists newest. split; [exact Hfold|]. split; [|split; [exact Hmax|]].
      * destruct Hin as [<-|Hin]; [now left|right; now right].
      * intros t [<-|Ht]; [|now apply Hall].
        eapply compare_not_Gt_trans; [|exact Hmax].
        rewrite String.compare_antisym, Ecmp. discriminate.
Qed.

(** X3.  For a report none of whose transactions has a [modifiedCreated],
    [getReportNewestTransactionDate] is the greatest [created] among its
    transactions, and is undefined exactly when it has none. *)
Theorem getReportNewestTransactionDate_unedited
    (report : ReportListItemType.t) (rows : list TransactionListItemType.t) :
  let created t := SearchTransaction.created (TransactionListItemType.transactionItem t) in
  ReportListItemType.transactions report = Some rows ->
  (forall t, In t rows ->
     SearchTransaction.modifiedCreated (TransactionListItemType.transactionItem t) = None) ->
  match getReportNewestTransactionDate report with
  | Some newest =>
      In newest (map created rows)
      /\ forall t, In t rows -> String.compare (created t) newest <> Gt
  | None => rows = []
  end.
Proof.
  intros created Hrows Hunedited. unfold getReportNewestTransactionDate. rewrite Hrows.
  destruct rows as [|first rows]; [reflexivity|].
  cbn [head].
  destruct (newestTransaction_fold_unedited (first :: rows) Hunedited first)
    as (newest & Hfold & Hin & _ & Hall).
  rewrite Hfold. cbn [fmap option_fmap option_map]. split.
  - apply (in_map created). destruct Hin as [<-|Hin]; [now left|exact Hin].
  - exact Hall.
Qed.

Lemma getReportNewestTransactionDate_unedited_witness :
  let report :=
    sampleReportRow "A" [sampleDatedRow "t1" "2024-03-01" None;
                         sampleDatedRow "t2" "2024-05-01" None;
                         sampleDatedRow "t3" "2024-04-01" None] in
  getReportNewestTransactionDate report = Some "2024-05-01"%string
  /\ match getReportNewestTransactionDate report with
     | Some newest =>
         forall t, In t (default [] (ReportListItemType.transactions report)) ->
           String.compare
             (SearchTransaction.created (TransactionListItemType.transactionItem t)) newest
           <> Gt
     | None => True
     end.
Proof.
  intros report. split; [reflexivity|].
  pose proof (getReportNewestTransactionDate_unedited report
                (default [] (ReportListItemType.transactions report)) eq_refl) as H.
  cbv zeta in H.
  assert (Hunedited : forall t,
             In t (default [] (ReportListItemType.transactions report)) ->
             SearchTransaction.modifiedCreated (TransactionListItemType.transactionItem t) = None).
  { intros t [<-|[<-|[<-|[]]]]; reflexivity. }
  specialize (H Hunedited).
  destruct (getReportNewestTransactionDate report); [exact (proj2 H)|exact I].
Defined.

(** ** The hash and the order of constraints *)

(** C1 at a failing input.  Two queries hold the same two constraints under
    [date], [>= 2024-01-01] and [<= 2024-01-01], in opposite orders.  The
    comparator of [getQueryHash] looks at the values only and never answers
    [0], so [sort] swaps the two constraints in both queries; the texts handed
    to [hashText] differ, and so do the hashes under the sample hash. *)
Lemma getQueryHash_equal_values :
  let atLeast := {| operator := GREATER_THAN_OR_EQUAL_TO; value := "2024-01-01" |} in
  let atMost := {| operator := LOWER_THAN_OR_EQUAL_TO; value := "2024-01-01" |} in
  let queryOf constraints :=
    {| type := "expense"; status := "all"; sortBy := "date"; sortOrder := "desc";
       policyID := None; filters := None; flatFilters := [("date"%string, constraints)];
       inputQuery := EmptyString; hash := 0 |} in
  Permutation [atLeast; atMost] [atMost; atLeast]
  /\ getOrderedQuery (queryOf [atLeast; atMost])
     = "type:expense status:all sortBy:date sortOrder:desc  date<=2024-01-01 date>=2024-01-01"%string
  /\ getOrderedQuery (queryOf [atMost; atLeast])
     = "type:expense status:all sortBy:date sortOrder:desc  date>=2024-01-01 date<=2024-01-01"%string
  /\ getQueryHash sampleExternals (queryOf [atLeast; atMost])
     <> getQueryHash sampleExternals (queryOf [atMost; atLeast]).
Proof.
  cbv zeta. split; [apply perm_swap|].
  split; [reflexivity|]. split; [reflexivity|].
  vm_compute. discriminate.
Qed.

(** ** Grouping transactions by report *)


Lemma reportKeyOf_inj (a b : string) : reportKeyOf a = reportKeyOf b -> a = b.
Proof.
  cbv [reportKeyOf ONYXKEYS.REPORT String.append]. intros H. injection H. auto.
Qed.



(** C3 at a failing input.  The keys of the payload list the two transactions
    of report r1 before the report itself: the list item of r1 holds no
    transaction.  With the report listed first it holds both, in order; with
    the report listed between them it holds the second only. *)
Lemma getReportSections_transaction_before_report :
  let t1 := ETransaction (sampleTransaction "t1" "r1" "2024-01-01" None None) in
  let t2 := ETransaction (sampleTransaction "t2" "r1" "2024-01-02" None None) in
  let r1 := EReport (sampleReport "r1") in
  let shape data :=
    map (fun group =>
           (ReportListItemType.keyForList group,
            map TransactionListItemType.keyForList <$> ReportListItemType.transactions group))
        (getReportSections sampleExternals data None) in
  shape [("transaction_t1"%string, t1); ("transaction_t2"%string, t2); ("report_r1"%string, r1)]
  = [("r1"%string, Some [])]
  /\ shape [("report_r1"%string, r1); ("transaction_t1"%string, t1); ("transaction_t2"%string, t2)]
     = [("r1"%string, Some ["t1"; "t2"]%string)]
  /\ shape [("transaction_t1"%string, t1); ("report_r1"%string, r1); ("transaction_t2"%string, t2)]
     = [("r1"%string, Some ["t2"%string])].
Proof.
  vm_compute. repeat split.
Qed.

(** ** [standardizeQueryJSON] and its argument *)

Lemma readTree_weaken (fuel : nat) (heap heap' : gmap NodeRef ASTObject) (node : NodeRef)
    (tree : ASTNode) :
  heap ⊆ heap' -> readTree fuel heap node = Some tree -> readTree fuel heap' node = Some tree.
Proof.
  intros Hsub. revert node tree.
  induction fuel as [|fuel IH]; intros node tree; simpl; [discriminate|].
  destruct (heap !! node) as [obj|] eqn:Hnode; simpl; [|discriminate].
  rewrite (lookup_weaken _ _ _ _ Hnode Hsub). simpl.
  unfold readLeft, readRight.
  destruct (o_left obj) as [l|s], (o_right obj) as [r|s'|elements]; simpl;
    repeat match goal with
    | |- context [readTree fuel heap ?x] =>
        let E := fresh "E" in
        destruct (readTree fuel heap x) as [?t|] eqn:E; simpl; [|discriminate];
        rewrite (IH _ _ E); simpl
    end; auto.
Qed.

(** [cloneDeep] allocates: the nodes that were there stay as they are, the
    clone is a reference that was free, and it stands for the same tree. *)
Lemma cloneDeep_node_spec (fuel : nat) :
  forall (node : NodeRef) (heap : gmap NodeRef ASTObject) (tree : ASTNode),
    readTree fuel heap node = Some tree ->
    exists clone heap',
      cloneDeep_node fuel node heap = Some (clone, heap')
      /\ heap ⊆ heap'
      /\ heap !! clone = None
      /\ readTree fuel heap' clone = Some tree
      /\ (forall new obj, heap !! new = None -> heap' !! new = Some obj ->
            (forall l, o_left obj = LeftRef l -> heap !! l = None)
            /\ (forall r, o_right obj = RightRef r -> heap !! r = None)).
Proof.
  induction fuel as [|fuel IH]; intros node heap tree; simpl; [discriminate|].
  destruct (heap !! node) as [obj|] eqn:Hnode; simpl; [|discriminate].
  intros Hread.
  (* the left-hand side *)
  assert (Hleft : exists newLeft heap1 treeLeft,
             match o_left obj with
             | LeftRef l => '(l', h) ← cloneDeep_node fuel l heap; Some (LeftRef l', h)
             | LeftStr s => Some (LeftStr s, heap)
             end = Some (newLeft, heap1)
             /\ heap ⊆ heap1
             /\ readLeft (readTree fuel heap) (o_left obj) = Some treeLeft
             /\ match newLeft with
                | LeftRef l' => heap !! l' = None /\ LeftNode <$> readTree fuel heap1 l' = Some treeLeft
                | LeftStr s => treeLeft = LeftString s
                end
             /\ (forall new obj', heap !! new = None -> heap1 !! new = Some obj' ->
                   (forall l, o_left obj' = LeftRef l -> heap !! l = None)
                   /\ (forall r, o_right obj' = RightRef r -> heap !! r = None))).
  { unfold readLeft in *. destruct (o_left obj) as [l|s].
    - destruct (readTree fuel heap l) as [tl|] eqn:Hl; [|discriminate].
      destruct (IH l heap tl Hl) as (l' & heap1 & Hclone & Hsub & Hfree & Hread' & Hnew).
      exists (LeftRef l'), heap1, (LeftNode tl). rewrite Hclone. simpl.
      rewrite Hread'. auto 10.
    - exists (LeftStr s), heap, (LeftString s). repeat split; auto.
      all: intros; congruence. }
  destruct Hleft as (newLeft & heap1 & treeLeft & -> & Hsub1 & HreadL & HnewLeft & Hnew1).
  rewrite HreadL in Hread. simpl in *.
  (* the right-hand side *)
  assert (Hright : exists newRight heap2 treeRight,
             match o_right obj with
             | RightRef r => '(r', h) ← cloneDeep_node fuel r heap1; Some (RightRef r', h)
             | RightStr s => Some (RightStr s, heap1)
             | RightArr elements => Some (RightArr elements, heap1)
             end = Some (newRight, heap2)
             /\ heap1 ⊆ heap2
             /\ readRight (readTree fuel heap) (o_right obj) = Some treeRight
             /\ match newRight with
                | RightRef r' => heap1 !! r' = None /\ RightNode <$> readTree fuel heap2 r' = Some treeRight
                | RightStr s => treeRight = RightString s
                | RightArr elements => treeRight = RightArray elements
                end
             /\ (forall new obj', heap1 !! new = None -> heap2 !! new = Some obj' ->
                   (forall l, o_left obj' = LeftRef l -> heap1 !! l = None)
                   /\ (forall r, o_right obj' = RightRef r -> heap1 !! r = None))).
  { unfold readRight in *. destruct (o_right obj) as [r|s|elements].
    - destruct (readTree fuel heap r) as [tr|] eqn:Hr; [|discriminate].
      pose proof (readTree_weaken _ _ _ _ _ Hsub1 Hr) as Hr1.
      destruct (IH r heap1 tr Hr1) as (r' & heap2 & Hclone & Hsub & Hfree & Hread' & Hnew).
      exists (RightRef r'), heap2, (RightNode tr). rewrite Hclone. simpl.
      rewrite Hread'. auto 10.
    - exists (RightStr s), heap1, (RightString s). repeat split; auto.
      all: intros; congruence.
    - exists (RightArr elements), heap1, (RightArray elements). repeat split; auto.
      all: intros; congruence. }
  destruct Hright as (newRight & heap2 & treeRight & -> & Hsub2 & HreadR & HnewRight & Hnew2).
  rewrite HreadR in Hread. simpl in *. injection Hread as <-.
  (* the node itself *)
  set (clone := fresh (dom heap2)).
  assert (Hfresh2 : heap2 !! clone = None) by (apply not_elem_of_dom, is_fresh).
  assert (Hfresh1 : heap1 !! clone = None).
  { destruct (heap1 !! clone) eqn:E; [|reflexivity].
    rewrite (lookup_weaken _ _ _ _ E Hsub2) in Hfresh2. discriminate. }
  assert (Hfresh : heap !! clone = None).
  { destruct (heap !! clone) eqn:E; [|reflexivity].
    rewrite (lookup_weaken _ _ _ _ E Hsub1) in Hfresh1. discriminate. }
  assert (Hfree1 : forall x, heap1 !! x = None -> heap !! x = None).
  { intros x Hx. destruct (heap !! x) eqn:E; [|reflexivity].
    rewrite (lookup_weaken _ _ _ _ E Hsub1) in Hx. discriminate. }
  assert (Hsub' : heap2 ⊆ <[clone := mkASTObject (o_operator obj) newLeft newRight]> heap2)
    by (now apply insert_subseteq).
  eexists clone, _. split; [reflexivity|].
  split; [etrans; [exact Hsub1|]; etrans; [exact Hsub2|exact Hsub']|].
  split; [exact Hfresh|]. split.
  - rewrite lookup_insert_eq. simpl. unfold readLeft, readRight.
    destruct newLeft as [l'|s]; destruct newRight as [r'|s'|elements]; simpl;
      repeat match goal with
      | H : _ /\ _ |- _ => destruct H
      | H : LeftNode <$> readTree _ _ ?x = Some _ |- _ =>
          destruct (readTree fuel _ x) as [?t|] eqn:?E; simpl in H; [|discriminate H];
          injection H as <-
      | H : RightNode <$> readTree _ _ ?x = Some _ |- _ =>
          destruct (readTree fuel _ x) as [?t|] eqn:?E; simpl in H; [|discriminate H];
          injection H as <-
      end; subst;
      repeat match goal with
      | E : readTree _ heap1 ?x = Some ?t |- _ =>
          rewrite (readTree_weaken _ _ _ _ _ (transitivity Hsub2 Hsub') E); clear E; simpl
      | E : readTree _ heap2 ?x = Some ?t |- _ =>
          rewrite (readTree_weaken _ _ _ _ _ Hsub' E); clear E; simpl
      end; reflexivity.
  - intros new obj' Hnone Hsome.
    destruct (decide (new = clone)) as [->|Hne].
    + rewrite lookup_insert_eq in Hsome. injection Hsome as <-. simpl. split.
      * intros l ->. tauto.
      * intros r ->. apply Hfree1. tauto.
    + rewrite lookup_insert_ne in Hsome by congruence.
      destruct (heap1 !! new) as [o1|] eqn:E1.
      * rewrite (lookup_weaken _ _ _ _ E1 Hsub2) in Hsome. injection Hsome as <-.
        exact (Hnew1 new o1 Hnone E1).
      * destruct (Hnew2 new obj' E1 Hsome) as [HL HR]. split.
        -- intros l Hl. apply Hfree1. eauto.
        -- intros r Hr. apply Hfree1. eauto.
Qed.

Lemma keepsShape_refl (heap : gmap NodeRef ASTObject) : keepsShape heap heap.
Proof.
  intros node. destruct (heap !! node); [|exact I].
  repeat split. now left.
Qed.

Lemma sameOrValue_trans (a b c : RightValue) :
  sameOrValue a b -> sameOrValue b c -> sameOrValue a c.
Proof.
  intros [->|Hb] [->|Hc]; [now left|now right|now right|now right].
Qed.

Lemma keepsShape_trans (heap1 heap2 heap3 : gmap NodeRef ASTObject) :
  keepsShape heap1 heap2 -> keepsShape heap2 heap3 -> keepsShape heap1 heap3.
Proof.
  intros H12 H23 node. specialize (H12 node). specialize (H23 node).
  destruct (heap1 !! node), (heap2 !! node), (heap3 !! node); try tauto.
  destruct H12 as (? & ? & ?), H23 as (? & ? & ?).
  repeat split; try congruence. eapply sameOrValue_trans; eassumption.
Qed.

(** Writing [node.right] keeps the shape when the new value is the old one
    or is not a reference. *)
Lemma keepsShape_assign_right (heap : gmap NodeRef ASTObject) (node : NodeRef)
    (obj : ASTObject) (newRight : RightValue) :
  heap !! node = Some obj ->
  sameOrValue (o_right obj) newRight ->
  keepsShape heap (<[node := mkASTObject (o_operator obj) (o_left obj) newRight]> heap).
Proof.
  intros Hnode Hright other.
  destruct (decide (other = node)) as [->|Hne].
  - rewrite Hnode, lookup_insert_eq. simpl. auto.
  - rewrite lookup_insert_ne by congruence.
    destruct (heap !! other); [|exact I]. repeat split. now left.
Qed.

Lemma closedUnder_keepsShape (P : NodeRef -> Prop) (heap heap' : gmap NodeRef ASTObject) :
  keepsShape heap heap' -> closedUnder P heap -> closedUnder P heap'.
Proof.
  intros Hshape Hclosed node obj' HP Hnode.
  specialize (Hshape node). rewrite Hnode in Hshape.
  destruct (heap !! node) as [obj|] eqn:Hold; [|contradiction].
  destruct Hshape as (_ & Hleft & Hright).
  destruct (Hclosed node obj HP Hold) as [HL HR]. split.
  - intros l Hl. apply HL. congruence.
  - intros r Hr. apply HR. destruct Hright as [<-|Hvalue]; [assumption|].
    exfalso. exact (Hvalue r Hr).
Qed.

Section StandardizeFacts.
Variable ext : Externals.
Variable cardList : list (string * Card).
Variable taxRates : gmap string (list string).

(** What [findIDFromDisplayValue] returns is a string or an array, or else
    the very value it was given. *)
Lemma findIDFromDisplayValue_sameOrValue (filterName : string) (filterValue newRight : RightValue) :
  findIDFromDisplayValue ext cardList taxRates filterName filterValue = JS.Normal newRight ->
  sameOrValue filterValue newRight.
Proof.
  unfold findIDFromDisplayValue.
  destruct (String.eqb filterName FROM || String.eqb filterName TO).
  { destruct filterValue; intros [= <-]; right; discriminate. }
  destruct (String.eqb filterName TAX_RATE).
  { intros [= <-]; right; discriminate. }
  destruct (String.eqb filterName CARD_ID).
  { destruct filterValue; [discriminate| |]; intros [= <-]; right;
      [destruct (0 <? _)%nat|]; discriminate. }
  intros [= <-]. now left.
Qed.

(** It does not throw on a string or an array. *)
Lemma findIDFromDisplayValue_value (filterName : string) (filterValue : RightValue) :
  (forall node, filterValue <> RightRef node) ->
  exists newRight,
    findIDFromDisplayValue ext cardList taxRates filterName filterValue = JS.Normal newRight.
Proof.
  intros Hvalue. unfold findIDFromDisplayValue.
  destruct (String.eqb filterName FROM || String.eqb filterName TO).
  { destruct filterValue as [node| |]; [destruct (Hvalue node eq_refl)| |]; eauto. }
  destruct (String.eqb filterName TAX_RATE); [eauto|].
  destruct (String.eqb filterName CARD_ID); [|eauto].
  destruct filterValue as [node| |]; [destruct (Hvalue node eq_refl)| |]; eauto.
Qed.

(** [traverse] keeps the shape of the heap, whether it returns or throws. *)
Lemma standardize_traverse_keepsShape (fuel : nat) :
  forall (node : NodeRef) (heap heap' : gmap NodeRef ASTObject),
    heapOf (standardize_traverse ext cardList taxRates fuel node heap) = Some heap' ->
    keepsShape heap heap'.
Proof.
  induction fuel as [|fuel IH]; intros node heap heap'; simpl; [discriminate|].
  destruct (heap !! node) as [obj|] eqn:Hnode; [|discriminate].
  destruct (o_operator obj); [|intros [= <-]; apply keepsShape_refl].
  (* traverse(node.left) *)
  assert (Hleft : forall out,
             out = match o_left obj with
                   | LeftRef l => standardize_traverse ext cardList taxRates fuel l heap
                   | LeftStr _ => Returns tt heap
                   end ->
             forall heap1, heapOf out = Some heap1 -> keepsShape heap heap1).
  { intros out -> heap1. destruct (o_left obj); [apply IH|].
    intros [= <-]. apply keepsShape_refl. }
  destruct (match o_left obj with
            | LeftRef l => standardize_traverse ext cardList taxRates fuel l heap
            | LeftStr _ => Returns tt heap
            end) as [[] heap1|e heap1|] eqn:Eleft; [| |discriminate].
  2: { intros [= <-]. exact (Hleft _ eq_refl heap1 eq_refl). }
  specialize (Hleft _ eq_refl heap1 eq_refl).
  destruct (heap1 !! node) as [obj1|] eqn:Hnode1; [|discriminate].
  (* traverse(node.right) *)
  assert (Hright : forall out,
             out = match o_right obj1 with
                   | RightRef r => standardize_traverse ext cardList taxRates fuel r heap1
                   | _ => Returns tt heap1
                   end ->
             forall heap2, heapOf out = Some heap2 -> keepsShape heap1 heap2).
  { intros out -> heap2. destruct (o_right obj1); [apply IH| |];
      intros [= <-]; apply keepsShape_refl. }
  destruct (match o_right obj1 with
            | RightRef r => standardize_traverse ext cardList taxRates fuel r heap1
            | _ => Returns tt heap1
            end) as [[] heap2|e heap2|] eqn:Eright; [| |discriminate].
  2: { intros [= <-]. eapply keepsShape_trans; [exact Hleft|].
       exact (Hright _ eq_refl heap2 eq_refl). }
  specialize (Hright _ eq_refl heap2 eq_refl).
  pose proof (keepsShape_trans _ _ _ Hleft Hright) as Hshape.
  destruct (heap2 !! node) as [obj2|] eqn:Hnode2; [|discriminate].
  (* node.right = findIDFromDisplayValue(...) *)
  destruct (o_left obj2) as [l|filterName] eqn:Hleft2; [intros [= <-]; exact Hshape|].
  destruct (findIDFromDisplayValue ext cardList taxRates filterName (o_right obj2))
    as [newRight|e] eqn:Efind; intros [= <-]; [|exact Hshape].
  eapply keepsShape_trans; [exact Hshape|]. rewrite <- Hleft2.
  apply keepsShape_assign_right; [exact Hnode2|].
  eapply findIDFromDisplayValue_sameOrValue. exact Efind.
Qed.

(** [traverse] writes only into nodes it reaches: started at a node of a set
    of references that is closed under [left] and [right], it leaves every
    object outside the set as it was. *)
Lemma standardize_traverse_frame (P : NodeRef -> Prop) (fuel : nat) :
  forall (node : NodeRef) (heap heap' : gmap NodeRef ASTObject),
    P node -> closedUnder P heap ->
    heapOf (standardize_traverse ext cardList taxRates fuel node heap) = Some heap' ->
    forall other, ~ P other -> heap' !! other = heap !! other.
Proof.
  induction fuel as [|fuel IH]; intros node heap heap' HP Hclosed; simpl; [discriminate|].
  destruct (heap !! node) as [obj|] eqn:Hnode; [|discriminate].
  destruct (o_operator obj); [|intros [= <-]; reflexivity].
  destruct (Hclosed node obj HP Hnode) as [HPleft _].
  assert (Hleft : forall heap1,
             heapOf (match o_left obj with
                     | LeftRef l => standardize_traverse ext cardList taxRates fuel l heap
                     | LeftStr _ => Returns tt heap
                     end) = Some heap1 ->
             keepsShape heap heap1 /\ forall other, ~ P other -> heap1 !! other = heap !! other).
  { intros heap1 Hout. destruct (o_left obj) as [l|s].
    - split; [eapply standardize_traverse_keepsShape; exact Hout|].
      eapply IH; [apply HPleft; reflexivity | exact Hclosed | exact Hout].
    - injection Hout as <-. split; [apply keepsShape_refl|reflexivity]. }
  destruct (match o_left obj with
            | LeftRef l => standardize_traverse ext cardList taxRates fuel l heap
            | LeftStr _ => Returns tt heap
            end) as [[] heap1|e heap1|] eqn:Eleft; [| |discriminate].
  2: { intros [= <-]. exact (proj2 (Hleft heap1 eq_refl)). }
  destruct (Hleft heap1 eq_refl) as [Hshape1 Hframe1].
  pose proof (closedUnder_keepsShape P _ _ Hshape1 Hclosed) as Hclosed1.
  destruct (heap1 !! node) as [obj1|] eqn:Hnode1; [|discriminate].
  destruct (Hclosed1 node obj1 HP Hnode1) as [_ HPright].
  assert (Hright : forall heap2,
             heapOf (match o_right obj1 with
                     | RightRef r => standardize_traverse ext cardList taxRates fuel r heap1
                     | _ => Returns tt heap1
                     end) = Some heap2 ->
             forall other, ~ P other -> heap2 !! other = heap1 !! other).
  { intros heap2 Hout. destruct (o_right obj1) as [r|s|elements].
    - eapply IH; [apply HPright; reflexivity | exact Hclosed1 | exact Hout].
    - injection Hout as <-. reflexivity.
    - injection Hout as <-. reflexivity. }
  destruct (match o_right obj1 with
            | RightRef r => standardize_traverse ext cardList taxRates fuel r heap1
            | _ => Returns tt heap1
            end) as [[] heap2|e heap2|] eqn:Eright; [| |discriminate].
  2: { intros [= <-] other Hother.
       rewrite (Hright heap2 eq_refl other Hother). now apply Hframe1. }
  specialize (Hright heap2 eq_refl).
  assert (Hframe2 : forall other, ~ P other -> heap2 !! other = heap !! other).
  { intros other Hother. rewrite (Hright other Hother). now apply Hframe1. }
  destruct (heap2 !! node) as [obj2|] eqn:Hnode2; [|discriminate].
  destruct (o_left obj2) as [l|filterName]; [intros [= <-]; exact Hframe2|].
  destruct (findIDFromDisplayValue ext cardList taxRates filterName (o_right obj2))
    as [newRight|e] eqn:Efind; intros [= <-]; [|exact Hframe2].
  intros other Hother.
  rewrite lookup_insert_ne by (intros ->; contradiction).
  now apply Hframe2.
Qed.

End StandardizeFacts.

Lemma readTree_S (fuel : nat) (heap : gmap NodeRef ASTObject) (node : NodeRef) (tree : ASTNode) :
  readTree (S fuel) heap node = Some tree <->
  exists obj treeLeft treeRight,
    heap !! node = Some obj
    /\ readLeft (readTree fuel heap) (o_left obj) = Some treeLeft
    /\ readRight (readTree fuel heap) (o_right obj) = Some treeRight
    /\ tree = mkASTNode (o_operator obj) treeLeft treeRight.
Proof.
  cbn [readTree]. split.
  - destruct (heap !! node) as [obj|] eqn:Hnode; cbn [mbind option_bind]; [|discriminate].
    destruct (readLeft _ _) as [tl|] eqn:Hl; cbn [mbind option_bind]; [|discriminate].
    destruct (readRight _ _) as [tr|] eqn:Hr; cbn [mbind option_bind]; [|discriminate].
    intros [= <-]. exists obj, tl, tr. auto.
  - intros (obj & tl & tr & -> & Hl & Hr & ->). cbn [mbind option_bind].
    rewrite Hl. cbn [mbind option_bind]. rewrite Hr. reflexivity.
Qed.

Lemma leafShaped_node (op : option Operator) (treeLeft : ASTLeft) (treeRight : ASTRight) :
  leafShaped (mkASTNode op treeLeft treeRight) = true <->
  (forall s r, treeLeft = LeftString s -> treeRight <> RightNode r)
  /\ (forall l, treeLeft = LeftNode l -> leafShaped l = true)
  /\ (forall r, treeRight = RightNode r -> leafShaped r = true).
Proof.
  simpl. rewrite !andb_true_iff. split.
  - intros [[H1 H2] H3]. repeat split.
    + intros s r -> ->. discriminate.
    + now intros l ->.
    + now intros r ->.
  - intros (H1 & H2 & H3). repeat split.
    + destruct treeLeft as [l|s], treeRight as [r| |]; try reflexivity.
      destruct (H1 s r eq_refl eq_refl).
    + destruct treeLeft; auto.
    + destruct treeRight; auto.
Qed.

(** A heap that keeps its shape keeps its trees, up to the values on the
    right of their nodes. *)
Lemma shaped_keepsShape (strict : bool) (heap heap' : gmap NodeRef ASTObject) :
  keepsShape heap heap' ->
  forall fuel node, shaped strict fuel heap node -> shaped strict fuel heap' node.
Proof.
  intros Hshape. induction fuel as [|fuel IH]; intros node (tree & Hread & Hleaf);
    [discriminate|].
  apply readTree_S in Hread. destruct Hread as (obj & tl & tr & Hnode & Hl & Hr & ->).
  pose proof (Hshape node) as Hn. rewrite Hnode in Hn.
  destruct (heap' !! node) as [obj'|] eqn:Hnode'; [|contradiction].
  destruct Hn as (Hop & Hleft & Hright).
  assert (Hleaf' : strict = true ->
            (forall s r, tl = LeftString s -> tr <> RightNode r)
            /\ (forall l, tl = LeftNode l -> leafShaped l = true)
            /\ (forall r, tr = RightNode r -> leafShaped r = true)).
  { intros Hs. apply (leafShaped_node (o_operator obj)). auto. }
  (* the left-hand side *)
  assert (HL : exists tl',
             readLeft (readTree fuel heap') (o_left obj') = Some tl'
             /\ (forall s, tl = LeftString s -> tl' = LeftString s)
             /\ (strict = true -> forall l, tl' = LeftNode l -> leafShaped l = true)).
  { rewrite Hleft. unfold readLeft in *. destruct (o_left obj) as [l|s].
    - destruct (readTree fuel heap l) as [t|] eqn:Ht; [|discriminate].
      injection Hl as <-.
      destruct (IH l) as (t' & Ht' & Hleaft').
      { exists t. split; [exact Ht|]. intros Hs.
        destruct (Hleaf' Hs) as (_ & H & _). now apply H. }
      exists (LeftNode t'). rewrite Ht'. repeat split.
      + intros s [=].
      + intros Hs l0 [= <-]. auto.
    - injection Hl as <-. exists (LeftString s). repeat split; auto.
      intros _ l [=]. }
  destruct HL as (tl' & HL & HLs & HLn).
  (* the right-hand side *)
  assert (HR : exists tr',
             readRight (readTree fuel heap') (o_right obj') = Some tr'
             /\ (forall r', tr' = RightNode r' -> exists r, tr = RightNode r)
             /\ (strict = true -> forall r, tr' = RightNode r -> leafShaped r = true)).
  { destruct Hright as [->|Hvalue].
    - unfold readRight in *. destruct (o_right obj) as [r|s|elements].
      + destruct (readTree fuel heap r) as [t|] eqn:Ht; [|discriminate].
        injection Hr as <-.
        destruct (IH r) as (t' & Ht' & Hleaft').
        { exists t. split; [exact Ht|]. intros Hs.
          destruct (Hleaf' Hs) as (_ & _ & H). now apply H. }
        exists (RightNode t'). rewrite Ht'. repeat split; eauto.
        intros Hs r0 [= <-]. auto.
      + exists (RightString s). repeat split; intros; discriminate.
      + exists (RightArray elements). repeat split; intros; discriminate.
    - unfold readRight. destruct (o_right obj') as [r|s|elements].
      + destruct (Hvalue r eq_refl).
      + exists (RightString s). repeat split; intros; discriminate.
      + exists (RightArray elements). repeat split; intros; discriminate. }
  destruct HR as (tr' & HR & HRn & HRl).
  exists (mkASTNode (o_operator obj') tl' tr'). split.
  - apply readTree_S. eauto 10.
  - intros Hs. apply leafShaped_node. repeat split; auto.
    intros s r' -> ->. destruct (HRn r' eq_refl) as [r ->].
    destruct tl as [l|s0].
    + unfold readLeft in *. rewrite Hleft in HL.
      destruct (o_left obj); [|discriminate Hl].
      destruct (readTree fuel heap' node0); discriminate HL.
    + destruct (Hleaf' Hs) as (Hno & _ & _). exact (Hno s0 r eq_refl eq_refl).
Qed.

Section StandardizeEnds.
Variable ext : Externals.
Variable cardList : list (string * Card).
Variable taxRates : gmap string (list string).

(** On a tree, [traverse] ends; on a leaf-shaped tree it ends by returning. *)
Lemma standardize_traverse_ends (strict : bool) (fuel : nat) :
  forall (node : NodeRef) (heap : gmap NodeRef ASTObject),
    shaped strict fuel heap node ->
    match standardize_traverse ext cardList taxRates fuel node heap with
    | Returns _ _ => True
    | Throws _ _ => strict = false
    | Stuck => False
    end.
Proof.
  induction fuel as [|fuel IH]; intros node heap (tree & Hread & Hleaf); [discriminate|].
  apply readTree_S in Hread. destruct Hread as (obj & tl & tr & Hnode & Hl & Hr & ->).
  cbn [standardize_traverse]. rewrite Hnode.
  destruct (o_operator obj) as [op|] eqn:Hop; [|exact I].
  assert (Hleaf' : strict = true ->
            (forall s r, tl = LeftString s -> tr <> RightNode r)
            /\ (forall l, tl = LeftNode l -> leafShaped l = true)
            /\ (forall r, tr = RightNode r -> leafShaped r = true)).
  { intros Hs. apply (leafShaped_node (Some op)). auto. }
  (* traverse(node.left) *)
  assert (HL : match
                 match o_left obj with
                 | LeftRef l => standardize_traverse ext cardList taxRates fuel l heap
                 | LeftStr _ => Returns tt heap
                 end
               with
               | Returns _ heap1 => keepsShape heap heap1
               | Throws _ _ => strict = false
               | Stuck => False
               end).
  { unfold readLeft in Hl. destruct (o_left obj) as [l|s]; [|apply keepsShape_refl].
    destruct (readTree fuel heap l) as [t|] eqn:Ht; [|discriminate]. injection Hl as <-.
    assert (Hsh : shaped strict fuel heap l).
    { exists t. split; [exact Ht|]. intros Hs. destruct (Hleaf' Hs) as (_ & H & _). now apply H. }
    pose proof (IH l heap Hsh) as Hend.
    pose proof (standardize_traverse_keepsShape ext cardList taxRates fuel l heap) as Hks.
    destruct (standardize_traverse ext cardList taxRates fuel l heap);
      [apply Hks; reflexivity|exact Hend|exact Hend]. }
  destruct (match o_left obj with
            | LeftRef l => standardize_traverse ext cardList taxRates fuel l heap
            | LeftStr _ => Returns tt heap
            end) as [[] heap1|e heap1|]; [|exact HL|exact HL].
  pose proof (HL node) as Hn1. rewrite Hnode in Hn1.
  destruct (heap1 !! node) as [obj1|] eqn:Hnode1; [|contradiction].
  destruct Hn1 as (Hop1 & Hleft1 & Hright1).
  (* traverse(node.right) *)
  assert (HR : match
                 match o_right obj1 with
                 | RightRef r => standardize_traverse ext cardList taxRates fuel r heap1
                 | _ => Returns tt heap1
                 end
               with
               | Returns _ heap2 => keepsShape heap1 heap2
               | Throws _ _ => strict = false
               | Stuck => False
               end).
  { destruct (o_right obj1) as [r|s|elements] eqn:Hor1; try apply keepsShape_refl.
    assert (Hsh : shaped strict fuel heap1 r).
    { apply (shaped_keepsShape strict heap heap1 HL).
      destruct Hright1 as [Heq|Hvalue]; [|destruct (Hvalue r eq_refl)].
      unfold readRight in Hr. rewrite <- Heq in Hr.
      destruct (readTree fuel heap r) as [t|] eqn:Ht; [|discriminate]. injection Hr as <-.
      exists t. split; [exact Ht|]. intros Hs. destruct (Hleaf' Hs) as (_ & _ & H). now apply H. }
    pose proof (IH r heap1 Hsh) as Hend.
    pose proof (standardize_traverse_keepsShape ext cardList taxRates fuel r heap1) as Hks.
    destruct (standardize_traverse ext cardList taxRates fuel r heap1);
      [apply Hks; reflexivity|exact Hend|exact Hend]. }
  destruct (match o_right obj1 with
            | RightRef r => standardize_traverse ext cardList taxRates fuel r heap1
            | _ => Returns tt heap1
            end) as [[] heap2|e heap2|]; [|exact HR|exact HR].
  pose proof (HR node) as Hn2. rewrite Hnode1 in Hn2.
  destruct (heap2 !! node) as [obj2|] eqn:Hnode2; [|contradiction].
  destruct Hn2 as (Hop2 & Hleft2 & Hright2).
  (* node.right = findIDFromDisplayValue(...) *)
  destruct (o_left obj2) as [l|filterName] eqn:Hol2; [exact I|].
  destruct (findIDFromDisplayValue ext cardList taxRates filterName (o_right obj2))
    as [newRight|e] eqn:Efind; [exact I|].
  destruct strict; [exfalso|reflexivity].
  destruct (Hleaf' eq_refl) as (Hno & _ & _).
  assert (Hvalue : forall r, o_right obj2 <> RightRef r).
  { assert (Hobj : forall r, o_right obj <> RightRef r).
    { intros r Hor. unfold readLeft, readRight in *.
      rewrite Hor in Hr.
      assert (Hol : o_left obj = LeftStr filterName) by congruence.
      rewrite Hol in Hl. injection Hl as <-.
      destruct (readTree fuel heap r) as [t|]; [|discriminate]. injection Hr as <-.
      exact (Hno filterName t eq_refl eq_refl). }
    destruct (sameOrValue_trans _ _ _ Hright1 Hright2) as [->|H]; assumption. }
  destruct (findIDFromDisplayValue_value ext cardList taxRates filterName _ Hvalue) as [v Hv].
  congruence.
Qed.

End StandardizeEnds.

(** C10, the claim as it stands, refuted.  The filter of the query is one
    node with the key [from] on its left and another node on its right, which
    the type [ASTNode] allows.  [standardizeQueryJSON] clones the query, walks
    the clone and hands the right-hand node to [findIDFromDisplayValue] as a
    list of e-mail addresses: [emails.map] is not a function, the call throws,
    and no object is returned. *)
Lemma standardizeQueryJSON_throws_on_node_value :
  let heap :=
    mkHeap
      {[ 1%positive := mkASTObject (Some EQUAL_TO) (LeftStr "from") (RightRef 2%positive);
         2%positive := mkASTObject (Some EQUAL_TO) (LeftStr "category") (RightStr "A") ]}
      {[ 1%positive :=
           mkQueryObject "expense" "all" "date" "desc" None (Some 1%positive) []
             EmptyString 0 ]} in
  exists heap',
    standardizeQueryJSON sampleExternals [] ∅ 5 1%positive heap
    = StandardizeThrows "TypeError: emails.map is not a function" heap'.
Proof.
  eexists. vm_compute. reflexivity.
Qed.

(** C10, amended.  Let [queryJSON] be a query object whose filters, if any,
    form a tree.  Then [standardizeQueryJSON] ends, by returning or (only when
    some node with a string on its left has a node on its right) by throwing.
    Either way every object that was in the heap, the argument and each node
    of its filter tree among them, is afterwards what it was before.  When
    it returns, the result is an object that did not exist before, with the
    root values of the argument, and the nodes of its filter tree are new
    too.  It returns whenever the filter tree is leaf-shaped. *)
Theorem standardizeQueryJSON_leaves_input
    (ext : Externals) (cardList : list (string * Card)) (taxRates : gmap string (list string))
    (fuel : nat) (queryJSON : QueryRef) (heap : Heap) (query : QueryObject) :
  queries heap !! queryJSON = Some query ->
  (forall root, q_filters query = Some root -> isTree fuel (nodes heap) root) ->
  let result := standardizeQueryJSON ext cardList taxRates fuel queryJSON heap in
  result <> StandardizeStuck
  /\ (forall heap',
        (exists standardQuery, result = Standardized standardQuery heap')
        \/ (exists e, result = StandardizeThrows e heap') ->
        preserved heap heap')
  /\ (forall standardQuery heap',
        result = Standardized standardQuery heap' ->
        queries heap !! standardQuery = None
        /\ exists standard,
             queries heap' !! standardQuery = Some standard
             /\ q_type standard = q_type query
             /\ q_status standard = q_status query
             /\ q_sortBy standard = q_sortBy query
             /\ q_sortOrder standard = q_sortOrder query
             /\ q_policyID standard = q_policyID query
             /\ q_inputQuery standard = q_inputQuery query
             /\ q_hash standard = q_hash query
             /\ (q_filters standard = None <-> q_filters query = None)
             /\ (forall root', q_filters standard = Some root' -> nodes heap !! root' = None))
  /\ ((forall root, q_filters query = Some root -> wellShaped fuel (nodes heap) root) ->
      exists standardQuery heap', result = Standardized standardQuery heap').
Proof.
  intros Hquery Htree result. subst result.
  unfold standardizeQueryJSON. rewrite Hquery.
  set (standardQuery := fresh (dom (queries heap))).
  assert (Hfresh : queries heap !! standardQuery = None) by (apply not_elem_of_dom, is_fresh).
  assert (Hqueries : forall (a b : QueryObject) ref q,
             queries heap !! ref = Some q ->
             <[standardQuery := a]> (<[standardQuery := b]> (queries heap)) !! ref = Some q).
  { intros a b ref q Href.
    rewrite !lookup_insert_ne by (intros <-; congruence). exact Href. }
  destruct (q_filters query) as [root|] eqn:Hfilters.
  - (* the query has filters *)
    destruct (Htree root eq_refl) as [tree Hread].
    destruct (cloneDeep_node_spec fuel root (nodes heap) tree Hread)
      as (clone & nodes1 & Hclone & Hsub & Hnew & Hread1 & Hclosed).
    rewrite Hclone. cbn [mbind option_bind].
    assert (HP : closedUnder (fun node => nodes heap !! node = None) nodes1).
    { intros node obj Hnone Hnode. exact (Hclosed node obj Hnone Hnode). }
    pose proof (standardize_traverse_frame ext cardList taxRates
                  (fun node => nodes heap !! node = None) fuel clone nodes1) as Hframe.
    pose proof (standardize_traverse_keepsShape ext cardList taxRates fuel clone nodes1) as Hshape.
    assert (Hends : forall strict, (strict = true -> leafShaped tree = true) ->
               match standardize_traverse ext cardList taxRates fuel clone nodes1 with
               | Returns _ _ => True
               | Throws _ _ => strict = false
               | Stuck => False
               end).
    { intros strict Hleaf. apply standardize_traverse_ends. exists tree. auto. }
    assert (Hold : forall nodes2,
               heapOf (standardize_traverse ext cardList taxRates fuel clone nodes1) = Some nodes2 ->
               forall node obj, nodes heap !! node = Some obj -> nodes2 !! node = Some obj).
    { intros nodes2 Hout node obj Hnode.
      rewrite (Hframe nodes2 Hnew HP Hout node) by congruence.
      exact (lookup_weaken _ _ _ _ Hnode Hsub). }
    destruct (standardize_traverse ext cardList taxRates fuel clone nodes1)
      as [[] nodes2|e nodes2|] eqn:Etraverse.
    + (* traverse returned *)
      destruct (shaped_keepsShape false nodes1 nodes2 (Hshape nodes2 eq_refl) fuel clone)
        as (tree2 & Hread2 & _).
      { exists tree. split; [exact Hread1|discriminate]. }
      rewrite Hread2. cbn [fmap option_fmap option_map].
      split; [discriminate|]. split; [|split].
      * intros heap' [[sq [= _ <-]]|[e [=]]]. split; cbn [nodes queries].
        -- apply Hold. reflexivity.
        -- apply Hqueries.
      * intros sq heap' [= <- <-]. split; [exact Hfresh|].
        eexists. split; [cbn [queries]; apply lookup_insert_eq|].
        cbn. repeat split; try discriminate. intros root' [= <-]. exact Hnew.
      * intros _. eauto.
    + (* traverse threw *)
      split; [discriminate|]. split; [|split].
      * intros heap' [[sq [=]]|[e' [= _ <-]]]. split; cbn [nodes queries].
        -- apply Hold. reflexivity.
        -- intros ref q Href. rewrite lookup_insert_ne by (intros <-; congruence). exact Href.
      * intros sq heap' [=].
      * intros Hwell. destruct (Hwell root eq_refl) as (tree' & Hread' & Hleaf).
        assert (tree' = tree) by congruence. subst tree'.
        specialize (Hends true (fun _ => Hleaf)). discriminate Hends.
    + destruct (Hends false ltac:(discriminate)).
  - (* the query has no filters *)
    split; [discriminate|]. split; [|split].
    + intros heap' [[sq [= _ <-]]|[e [=]]]. split; cbn [nodes queries]; [auto|].
      apply Hqueries.
    + intros sq heap' [= <- <-]. split; [exact Hfresh|].
      eexists. split; [cbn [queries]; apply lookup_insert_eq|].
      cbn. repeat split; try discriminate.
    + intros _. eauto.
Qed.

Lemma standardizeQueryJSON_leaves_input_witness :
  (exists query,
      queries sampleHeap !! 1%positive = Some query
      /\ forall root, q_filters query = Some root -> isTree 5 (nodes sampleHeap) root)
  /\ standardizeQueryJSON sampleExternals [] ∅ 5 1%positive sampleHeap <> StandardizeStuck
  /\ (forall heap',
        (exists standardQuery,
            standardizeQueryJSON sampleExternals [] ∅ 5 1%positive sampleHeap
            = Standardized standardQuery heap')
        \/ (exists e,
              standardizeQueryJSON sampleExternals [] ∅ 5 1%positive sampleHeap
              = StandardizeThrows e heap') ->
        preserved sampleHeap heap').
Proof.
  assert (Hquery : exists query, queries sampleHeap !! 1%positive = Some query)
    by (eexists; vm_compute; reflexivity).
  destruct Hquery as [query Hquery].
  assert (Htree : forall root, q_filters query = Some root -> isTree 5 (nodes sampleHeap) root).
  { vm_compute in Hquery. injection Hquery as <-.
    intros root [= <-]. eexists. vm_compute. reflexivity. }
  destruct (standardizeQueryJSON_leaves_input sampleExternals [] ∅ 5 1%positive sampleHeap
              query Hquery Htree) as (Hends & Hpreserved & _).
  split; [exists query; split; assumption|].
  split; [exact Hends|exact Hpreserved].
Defined.

(** The rewrite happens in the clone: on the sample heap the result is a new
    query whose [from] node, a new node, holds the account ID, while the
    [from] node of the argument still holds the e-mail address. *)
Lemma standardizeQueryJSON_rewrites_the_clone :
  exists heap',
    standardizeQueryJSON sampleExternals [] ∅ 5 1%positive sampleHeap
    = Standardized 2%positive heap'
    /\ nodes heap' !! 2%positive
       = Some (mkASTObject (Some EQUAL_TO) (LeftStr "from") (RightStr "alice@example.com"))
    /\ nodes sampleHeap !! 4%positive = None
    /\ nodes heap' !! 4%positive
       = Some (mkASTObject (Some EQUAL_TO) (LeftStr "from") (RightStr "7"))
    /\ q_flatFilters <$> queries heap' !! 2%positive
       = Some [("from"%string, [{| operator := EQUAL_TO; value := "7" |}]);
               ("category"%string, [{| operator := EQUAL_TO; value := "A" |}])]
    /\ queries heap' !! 1%positive = queries sampleHeap !! 1%positive.
Proof.
  eexists. split; [vm_compute; reflexivity|].
  vm_compute. repeat split.
Qed.

(** *** When the values under each key are all different *)

Lemma string_lt_trans (a b c : string) : string_lt a b -> string_lt b c -> string_lt a c.
Proof.
  unfold string_lt. intros Hab Hbc.
  apply String_as_OT.cmp_lt. apply String_as_OT.cmp_lt in Hab, Hbc.
  eapply String_as_OT.lt_trans; eassumption.
Qed.

Lemma string_lt_irrefl (a : string) : ~ string_lt a a.
Proof.
  unfold string_lt. intros H.
  assert (E : String.compare a a = Eq) by now apply String_as_OT.cmp_eq.
  congruence.
Qed.

Lemma string_lt_total (a b : string) : a <> b -> String.compare a b <> Lt -> string_lt b a.
Proof.
  unfold string_lt. intros Hne Hnlt. rewrite String.compare_antisym.
  destruct (String.compare a b) eqn:E; [|congruence|reflexivity].
  apply String.compare_eq_iff in E. contradiction.
Qed.

Lemma SortCompareDefault_consistent (keys : list string) :
  consistentOn JS.SortCompareDefault string_lt keys.
Proof.
  intros a b _ _ Hne. unfold JS.SortCompareDefault. split.
  - destruct (String.compare a b) eqn:E; [lia|intros _; exact E|lia].
  - intros Hpos. apply string_lt_total; [exact Hne|].
    intros E. rewrite E in Hpos. lia.
Qed.

Lemma compareFilterValues_consistent (constraints : list QueryFilter) :
  List.NoDup (map value constraints) ->
  consistentOn compareFilterValues (fun a b => string_lt (value a) (value b)) constraints.
Proof.
  intros Hnodup a b Ha Hb Hne.
  assert (Hvalues : value a <> value b).
  { intros Heq. apply Hne. clear Hne.
    induction constraints as [|c constraints IH]; [destruct Ha|].
    simpl in Hnodup. inversion Hnodup as [|? ? Hnotin Hnodup']; subst.
    destruct Ha as [->|Ha], Hb as [->|Hb]; auto.
    - exfalso. apply Hnotin. rewrite Heq. now apply in_map.
    - exfalso. apply Hnotin. rewrite <- Heq. now apply in_map. }
  unfold compareFilterValues, JS.string_gt, String.ltb. split.
  - destruct (String.compare (value b) (value a)) eqn:E; [|lia|].
    + intros _. apply String.compare_eq_iff in E. congruence.
    + intros _. apply string_lt_total; congruence.
  - destruct (String.compare (value b) (value a)) eqn:E; [lia| |lia].
    intros _. exact E.
Qed.

Lemma In_Object_keys {V : Type} (o : list (string * V)) (key : string) :
  In key (Object_keys o) <-> Record_get o key <> None.
Proof.
  unfold Object_keys. induction o as [|[k v] o IH]; simpl.
  - tauto.
  - destruct (String.eqb k key) eqn:E.
    + apply String.eqb_eq in E. split; [discriminate|auto].
    + apply String.eqb_neq in E. rewrite <- IH. tauto.
Qed.

Lemma fold_left_ext {X Y : Type} (f g : X -> Y -> X) (l : list Y) (x : X) :
  (forall a y, f a y = g a y) -> fold_left f l x = fold_left g l x.
Proof.
  intros Hfg. revert x. induction l as [|y l IH]; intros x; simpl; [reflexivity|].
  now rewrite Hfg, IH.
Qed.

(** X2.  Two queries with the same root values whose filters are the same up
    to the order of the keys and of the constraints under each key, no two
    constraints under a key having the same value, get the same hash. *)
Theorem getQueryHash_permuted_distinct_values
    (ext : Externals) (query1 query2 : SearchQueryJSON) :
  type query1 = type query2 ->
  status query1 = status query2 ->
  sortBy query1 = sortBy query2 ->
  sortOrder query1 = sortOrder query2 ->
  policyID query1 = policyID query2 ->
  permutedFilters (flatFilters query1) (flatFilters query2) ->
  distinctValues (flatFilters query1) ->
  getQueryHash ext query1 = getQueryHash ext query2.
Proof.
  intros Htype Hstatus HsortBy HsortOrder Hpolicy (Hkeys1 & Hkeys2 & Hsame) Hdistinct.
  unfold getQueryHash. f_equal. unfold getOrderedQuery.
  assert (Hroot : orderedQuery_rootKeys query1 = orderedQuery_rootKeys query2).
  { unfold orderedQuery_rootKeys. now rewrite Htype, Hstatus, HsortBy, HsortOrder, Hpolicy. }
  assert (Hperm : Permutation (Object_keys (flatFilters query1)) (Object_keys (flatFilters query2))).
  { apply Permutation.NoDup_Permutation; [exact Hkeys1|exact Hkeys2|].
    intros key. rewrite !In_Object_keys. specialize (Hsame key).
    destruct (Record_get (flatFilters query1) key), (Record_get (flatFilters query2) key);
      try contradiction; split; congruence. }
  rewrite <- (Array_sort_Permutation_eq JS.SortCompareDefault string_lt string_lt_trans
                _ _ string_lt_irrefl Hkeys1 (SortCompareDefault_consistent _) Hperm).
  rewrite Hroot. apply fold_left_ext. intros orderedQuery key. f_equal. f_equal.
  specialize (Hsame key). specialize (Hdistinct key).
  destruct (Record_get (flatFilters query1) key) as [constraints1|],
           (Record_get (flatFilters query2) key) as [constraints2|];
    try contradiction; [|reflexivity].
  simpl. f_equal.
  specialize (Hdistinct constraints1 eq_refl).
  apply (Array_sort_Permutation_eq compareFilterValues
           (fun a b => string_lt (value a) (value b))).
  - intros a b c. apply string_lt_trans.
  - intros a. apply string_lt_irrefl.
  - eapply List.NoDup_map_inv. exact Hdistinct.
  - now apply compareFilterValues_consistent.
  - exact Hsame.
Qed.

Lemma getQueryHash_permuted_distinct_values_witness :
  let queryOf filters :=
    {| type := "expense"; status := "all"; sortBy := "date"; sortOrder := "desc";
       policyID := None; filters := None; flatFilters := filters;
       inputQuery := EmptyString; hash := 0 |} in
  let A := {| operator := EQUAL_TO; value := "A" |} in
  let B := {| operator := NOT_EQUAL_TO; value := "B" |} in
  let low := {| operator := GREATER_THAN; value := "100" |} in
  getQueryHash sampleExternals (queryOf [("category"%string, [B; A]); ("amount"%string, [low])])
  = getQueryHash sampleExternals (queryOf [("amount"%string, [low]); ("category"%string, [A; B])]).
Proof.
  intros queryOf A B low.
  apply getQueryHash_permuted_distinct_values; try reflexivity.
  - split; [|split].
    + repeat constructor; simpl; intuition discriminate.
    + repeat constructor; simpl; intuition discriminate.
    + intros key. cbn [queryOf flatFilters Record_get].
      destruct (String.eqb_spec "category" key) as [<-|Hcategory].
      { cbn. apply perm_swap. }
      destruct (String.eqb_spec "amount" key) as [<-|Hamount]; [reflexivity|exact I].
  - intros key constraints. cbn [queryOf flatFilters Record_get].
    destruct (String.eqb_spec "category" key) as [<-|Hcategory].
    { intros [= <-]. repeat constructor; simpl; intuition discriminate. }
    destruct (String.eqb_spec "amount" key) as [<-|Hamount]; [|discriminate].
    intros [= <-]. repeat constructor; simpl; intuition discriminate.
Defined.

(** ** Normalizing a query twice *)

(** C2.  Whatever the parser is, if it reads the two date constraints of
    [atMostFirst] and of [atLeastFirst] in the order they are written, and
    sets no default [policyID], then [normalizeQuery] turns each of the two
    strings into the other: the hash sorts the two equal-valued constraints in
    place, which swaps them, and the string is built from the swapped list.
    Neither string is a fixed point. *)
Theorem normalizeQuery_swaps_equal_values
    (ext : Externals) (searchParser_parse : string -> JS.Completion ParsedQuery)
    (console : JS.Console) :
  searchParser_parse atMostFirst
  = JS.Normal (dateRangeQuery LOWER_THAN_OR_EQUAL_TO GREATER_THAN_OR_EQUAL_TO) ->
  searchParser_parse atLeastFirst
  = JS.Normal (dateRangeQuery GREATER_THAN_OR_EQUAL_TO LOWER_THAN_OR_EQUAL_TO) ->
  (forall defaults, searchParser_parse EmptyString = JS.Normal defaults ->
                    JS.truthy_opt (parsed_policyID defaults) = false) ->
  fst (normalizeQuery ext searchParser_parse atMostFirst console) = JS.Normal atLeastFirst
  /\ fst (normalizeQuery ext searchParser_parse atLeastFirst console) = JS.Normal atMostFirst
  /\ atMostFirst <> atLeastFirst.
Proof.
  intros H1 H2 Hdefault.
  unfold normalizeQuery, buildSearchQueryString, buildSearchQueryJSON,
    JS.bind, JS.try_catch, JS.call, JS.ret, JS.console_error.
  rewrite H1, H2.
  destruct (searchParser_parse EmptyString) as [defaults|e].
  - specialize (Hdefault defaults eq_refl).
    cbn -[JS.truthy_opt]. rewrite Hdefault.
    split; [reflexivity|]. split; [reflexivity|]. discriminate.
  - split; [reflexivity|]. split; [reflexivity|]. discriminate.
Qed.

Lemma normalizeQuery_swaps_equal_values_witness :
  sampleParser atMostFirst
  = JS.Normal (dateRangeQuery LOWER_THAN_OR_EQUAL_TO GREATER_THAN_OR_EQUAL_TO)
  /\ sampleParser atLeastFirst
     = JS.Normal (dateRangeQuery GREATER_THAN_OR_EQUAL_TO LOWER_THAN_OR_EQUAL_TO)
  /\ fst (normalizeQuery sampleExternals sampleParser atMostFirst []) = JS.Normal atLeastFirst
  /\ fst (normalizeQuery sampleExternals sampleParser atLeastFirst []) = JS.Normal atMostFirst.
Proof.
  assert (H1 : sampleParser atMostFirst
               = JS.Normal (dateRangeQuery LOWER_THAN_OR_EQUAL_TO GREATER_THAN_OR_EQUAL_TO))
    by reflexivity.
  assert (H2 : sampleParser atLeastFirst
               = JS.Normal (dateRangeQuery GREATER_THAN_OR_EQUAL_TO LOWER_THAN_OR_EQUAL_TO))
    by reflexivity.
  assert (H3 : forall defaults, sampleParser EmptyString = JS.Normal defaults ->
                                JS.truthy_opt (parsed_policyID defaults) = false)
    by (intros defaults [= <-]; reflexivity).
  destruct (normalizeQuery_swaps_equal_values sampleExternals sampleParser [] H1 H2 H3)
    as (Ha & Hb & _).
  repeat split; assumption.
Defined.

(** ** What the sorts produce on comparable rows *)

(** [sort] sees its elements through the comparator only: sorting the images
    under [f] with [comparefn] is sorting with [comparefn] after [f]. *)
Section ArraySortMap.
Context {A B : Type}.
Variable f : B -> A.
Variable comparefn : A -> A -> Z.

Lemma runTail_map (isDescending : bool) (rest : list B) (previousElement : B) :
  JS.runTail (fun x y => comparefn (f x) (f y)) isDescending previousElement rest
  = JS.runTail comparefn isDescending (f previousElement) (map f rest).
Proof.
  revert previousElement.
  induction rest as [|currentElement rest IH]; intros previousElement; [reflexivity|].
  cbn [JS.runTail map].
  destruct (if isDescending then _ else _); [reflexivity|]. now rewrite IH.
Qed.

Lemma CountAndMakeRun_map (workArray : list B) :
  JS.CountAndMakeRun comparefn (map f workArray)
  = (fst (JS.CountAndMakeRun (fun x y => comparefn (f x) (f y)) workArray),
     map f (snd (JS.CountAndMakeRun (fun x y => comparefn (f x) (f y)) workArray))).
Proof.
  destruct workArray as [|elementHigh [|elementLow rest]]; [reflexivity|reflexivity|].
  cbn [JS.CountAndMakeRun map fst snd].
  rewrite runTail_map.
  destruct (comparefn (f elementLow) (f elementHigh) <? 0); [|reflexivity].
  f_equal.
  change (f elementHigh :: f elementLow :: map f rest)
    with (map f (elementHigh :: elementLow :: rest)).
  now rewrite List.map_app, List.map_rev, List.firstn_map, List.skipn_map.
Qed.

Lemma findInsertionPoint_map (fuel : nat) (pivot : B) (workArray : list B) :
  forall left right,
    JS.findInsertionPoint (fun x y => comparefn (f x) (f y)) fuel pivot workArray left right
    = JS.findInsertionPoint comparefn fuel (f pivot) (map f workArray) left right.
Proof.
  induction fuel as [|fuel IH]; intros left right; [reflexivity|].
  cbn [JS.findInsertionPoint].
  destruct (left <? right)%nat; [|reflexivity].
  rewrite List.nth_error_map.
  destruct (nth_error workArray _) as [element|]; [|reflexivity].
  cbn [option_map].
  destruct (comparefn (f pivot) (f element) <? 0); apply IH.
Qed.

Lemma insertPivot_map (sorted : list B) (pivot : B) :
  map f (JS.insertPivot (fun x y => comparefn (f x) (f y)) sorted pivot)
  = JS.insertPivot comparefn (map f sorted) (f pivot).
Proof.
  unfold JS.insertPivot.
  rewrite List.length_map, findInsertionPoint_map.
  now rewrite List.map_app, List.firstn_map; cbn [map]; rewrite List.skipn_map.
Qed.

Lemma BinaryInsertionSort_map (rest : list B) :
  forall sorted,
    map f (JS.BinaryInsertionSort (fun x y => comparefn (f x) (f y)) sorted rest)
    = JS.BinaryInsertionSort comparefn (map f sorted) (map f rest).
Proof.
  induction rest as [|pivot rest IH]; intros sorted; [reflexivity|].
  cbn [JS.BinaryInsertionSort map]. now rewrite IH, insertPivot_map.
Qed.

Lemma Array_sort_map (array : list B) :
  map f (JS.Array_sort (fun x y => comparefn (f x) (f y)) array)
  = JS.Array_sort comparefn (map f array).
Proof.
  unfold JS.Array_sort. rewrite List.length_map.
  destruct (List.length array <? 2)%nat; [reflexivity|].
  rewrite CountAndMakeRun_map.
  destruct (JS.CountAndMakeRun _ array) as [runLength workArray].
  cbn [fst snd]. now rewrite BinaryInsertionSort_map, List.firstn_map, List.skipn_map.
Qed.
End ArraySortMap.

(** A comparator that agrees with a transitive relation on every pair of
    elements, equal ones too, sorts by it; the array may hold an element more
    than once. *)
Section ArraySortPreorder.
Context {A : Type}.
Variable comparefn : A -> A -> Z.
Variable R : A -> A -> Prop.
Hypothesis R_trans : forall a b c, R a b -> R b c -> R a c.

Lemma StronglySorted_map_snd (l : list (nat * A)) :
  StronglySorted (fun x y => R (snd x) (snd y)) l -> StronglySorted R (map snd l).
Proof.
  induction 1 as [|x l Hsorted IH Hall]; cbn [map]; constructor; [exact IH|].
  apply List.Forall_forall. intros y Hy. apply in_map_iff in Hy.
  destruct Hy as (z & <- & Hz).
  exact (proj1 (List.Forall_forall _ _) Hall z Hz).
Qed.

Lemma combine_seq (array : list A) :
  forall start,
    map fst (combine (seq start (List.length array)) array) = seq start (List.length array)
    /\ map snd (combine (seq start (List.length array)) array) = array.
Proof.
  induction array as [|a array IH]; intros start; [split; reflexivity|].
  cbn [List.length seq combine map fst snd].
  destruct (IH (S start)) as [-> ->]. split; reflexivity.
Qed.

Lemma Array_sort_sorted_preorder (array : list A) :
  agreesOn comparefn R array -> StronglySorted R (JS.Array_sort comparefn array).
Proof.
  intros Hagrees.
  set (tagged := combine (seq 0 (List.length array)) array).
  assert (Hsnd : map snd tagged = array) by apply combine_seq.
  assert (Hfst : map fst tagged = seq 0 (List.length array)) by apply combine_seq.
  rewrite <- Hsnd, <- (Array_sort_map snd comparefn).
  apply StronglySorted_map_snd.
  apply (Array_sort_sorted (fun x y => comparefn (snd x) (snd y))
           (fun x y => R (snd x) (snd y))).
  - intros a b c. apply R_trans.
  - apply (List.NoDup_map_inv fst). rewrite Hfst. apply List.seq_NoDup.
  - intros a b Ha Hb _. apply Hagrees; rewrite <- Hsnd; now apply in_map.
Qed.
End ArraySortPreorder.

Lemma string_le_refl (a : string) : string_le a a.
Proof.
  unfold string_le.
  assert (E : String.compare a a = Eq) by now apply String_as_OT.cmp_eq.
  congruence.
Qed.

(** Code-unit order, the collation of the examples, is consistent. *)
Lemma sampleExternals_collation : consistentCollation sampleExternals.
Proof.
  unfold consistentCollation. cbn [localeCompare sampleExternals]. unfold sampleLocaleCompare.
  split.
  - intros a b. rewrite (String.compare_antisym a b).
    destruct (String.compare b a); cbn [CompOpp]; lia.
  - intros a b c Hab Hbc.
    assert (Hac : String.compare a c <> Gt).
    { apply (compare_not_Gt_trans a b c).
      - destruct (String.compare a b); try discriminate; lia.
      - destruct (String.compare b c); try discriminate; lia. }
    destruct (String.compare a c); try lia. congruence.
Qed.

(** The comparison and the order of a consistent collation. *)
Section Collation.
Variable ext : Externals.
Hypothesis collation : consistentCollation ext.

Lemma localeCompare_negative (a b : string) : localeCompare ext a b < 0 -> collated_le ext a b.
Proof. unfold collated_le. lia. Qed.

Lemma localeCompare_not_negative (a b : string) :
  0 <= localeCompare ext a b -> collated_le ext b a.
Proof.
  unfold collated_le. intros Hab.
  destruct (Z.le_gt_cases (localeCompare ext b a) 0) as [Hle|Hgt]; [exact Hle|].
  apply (proj1 collation) in Hgt. lia.
Qed.

Lemma localeCompare_negative_strict (a b : string) :
  localeCompare ext b a < 0 -> ~ collated_le ext a b.
Proof.
  unfold collated_le. intros Hba. apply (proj1 collation) in Hba. lia.
Qed.


Lemma date_le_trans (x y z : option string) :
  date_le ext x y -> date_le ext y z -> date_le ext x z.
Proof.
  destruct x, y, z; cbn [date_le]; try tauto. apply (proj2 collation).
Qed.

End Collation.





(** X4.  Sorting by the total amount when every row has a [formattedTotal]:
    [getSortedTransactionData] leaves in the caller's array the same rows
    with their totals in ascending order, or in descending order when that is
    asked for; rows with equal totals may come in any order. *)
Theorem getSortedTransactionData_by_total
    (ext : Externals) (data : ArrayRef) (sortOrder : SortOrder)
    (store : gmap ArrayRef (list TransactionListItemType.t))
    (rows : list TransactionListItemType.t) :
  store !! data = Some rows ->
  (forall row, In row rows -> TransactionListItemType.formattedTotal row <> None) ->
  exists sorted,
    snd (getSortedTransactionData ext data (Some COLUMN_TOTAL_AMOUNT) (Some sortOrder) store)
      !! data
    = Some sorted
    /\ Permutation sorted rows
    /\ StronglySorted
         (fun a b =>
            match TransactionListItemType.formattedTotal a,
                  TransactionListItemType.formattedTotal b with
            | Some aNum, Some bNum =>
                match sortOrder with ASC => aNum <= bNum | DESC => bNum <= aNum end
            | _, _ => False
            end)
         sorted.
Proof.
  intros Hrows Htotals.
  exists (JS.Array_sort (compareTransactions ext formattedTotal_ sortOrder) rows).
  split; [|split].
  - now apply Array_sort_in_place_spec.
  - apply Array_sort_Permutation.
  - apply Array_sort_sorted_preorder.
    + intros a b c.
      destruct sortOrder, (TransactionListItemType.formattedTotal a),
        (TransactionListItemType.formattedTotal b),
        (TransactionListItemType.formattedTotal c); try tauto; lia.
    + intros a b Ha Hb.
      pose proof (Htotals a Ha) as Hta. pose proof (Htotals b Hb) as Htb.
      unfold compareTransactions. cbn [sortingValue].
      destruct (TransactionListItemType.formattedTotal a) as [aNum|]; [|contradiction].
      destruct (TransactionListItemType.formattedTotal b) as [bNum|]; [|contradiction].
      cbn [fmap option_fmap option_map]. destruct sortOrder; lia.
Qed.

Lemma getSortedTransactionData_by_total_witness :
  let rows := [sampleRow "a" (Some 500) None; sampleRow "b" (Some (-200)) None;
               sampleRow "c" (Some 0) None] in
  let store : gmap ArrayRef (list TransactionListItemType.t) := {[ 1%positive := rows ]} in
  snd (getSortedTransactionData sampleExternals 1%positive
      (Some COLUMN_TOTAL_AMOUNT) (Some ASC) store)
    !! 1%positive
  = Some [sampleRow "b" (Some (-200)) None; sampleRow "c" (Some 0) None;
          sampleRow "a" (Some 500) None]
  /\ exists sorted,
       snd (getSortedTransactionData sampleExternals 1%positive
           (Some COLUMN_TOTAL_AMOUNT) (Some ASC) store)
         !! 1%positive
       = Some sorted
       /\ Permutation sorted rows
       /\ StronglySorted
            (fun a b =>
               match TransactionListItemType.formattedTotal a,
                     TransactionListItemType.formattedTotal b with
               | Some aNum, Some bNum => aNum <= bNum
               | _, _ => False
               end)
            sorted.
Proof.
  intros rows store. split; [vm_compute; reflexivity|].
  apply (getSortedTransactionData_by_total sampleExternals 1%positive ASC store rows).
  - vm_compute. reflexivity.
  - intros row [<-|[<-|[<-|[]]]]; discriminate.
Defined.



(** X6.  When every chat row has a [created] without upper-case letters
    and the collation of the host is consistent, [getSortedReportActionData]
    leaves in the caller's array the same rows with their [created] in the
    descending order of that collation: for no row does [localeCompare] put
    its [created] before that of a row behind it. *)
Theorem getSortedReportActionData_newest_first
    (ext : Externals) (data : ArrayRef)
    (store : gmap ArrayRef (list ReportActionListItemType.t))
    (rows : list ReportActionListItemType.t) :
  consistentCollation ext ->
  store !! data = Some rows ->
  (forall row, In row rows ->
     exists created, ReportActionListItemType.created row = Some created
                     /\ JS.toLowerCase created = created) ->
  exists sorted,
    snd (getSortedReportActionData ext data store) !! data = Some sorted
    /\ Permutation sorted rows
    /\ StronglySorted
         (fun a b => date_le ext (ReportActionListItemType.created b)
                                 (ReportActionListItemType.created a))
         sorted.
Proof.
  intros Hcollation Hrows Hcreated.
  exists (JS.Array_sort (compareReportActions ext) rows).
  unfold getSortedReportActionData.
  split; [|split].
  - now apply Array_sort_in_place_spec.
  - apply Array_sort_Permutation.
  - apply Array_sort_sorted_preorder.
    + intros a b c Hab Hbc. eapply date_le_trans; eassumption.
    + intros a b Ha Hb.
      destruct (Hcreated a Ha) as (aValue & Ea & Hla).
      destruct (Hcreated b Hb) as (bValue & Eb & Hlb).
      unfold compareReportActions. rewrite Ea, Eb. cbn [date_le]. rewrite Hlb.
      split; [apply localeCompare_negative|now apply localeCompare_not_negative].
Qed.

Lemma getSortedReportActionData_newest_first_witness :
  let rows := [sampleReportActionRow "a" (Some "2024-01-05 10:00:00"%string);
               sampleReportActionRow "b" (Some "2024-03-01 09:30:00"%string);
               sampleReportActionRow "c" (Some "2024-02-11 18:45:00"%string)] in
  let store : gmap ArrayRef (list ReportActionListItemType.t) := {[ 1%positive := rows ]} in
  snd (getSortedReportActionData sampleExternals 1%positive store) !! 1%positive
  = Some [sampleReportActionRow "b" (Some "2024-03-01 09:30:00"%string);
          sampleReportActionRow "c" (Some "2024-02-11 18:45:00"%string);
          sampleReportActionRow "a" (Some "2024-01-05 10:00:00"%string)]
  /\ exists sorted,
       snd (getSortedReportActionData sampleExternals 1%positive store) !! 1%positive = Some sorted
       /\ Permutation sorted rows
       /\ StronglySorted
            (fun a b => date_le sampleExternals (ReportActionListItemType.created b)
                                (ReportActionListItemType.created a))
            sorted.
Proof.
  intros rows store. split; [vm_compute; reflexivity|].
  apply (getSortedReportActionData_newest_first sampleExternals 1%positive store rows).
  - exact sampleExternals_collation.
  - vm_compute. reflexivity.
  - intros row [<-|[<-|[<-|[]]]]; eexists; split; reflexivity.
Defined.

(** X7.  When [getReportNewestTransactionDate] gives every report row a date
    that is not empty and holds no upper-case letter, and the collation of
    the host is consistent, [getSortedReportData] leaves in the caller's
    array the same rows with those dates in the descending order of that
    collation. *)
Theorem getSortedReportData_newest_first
    (ext : Externals) (data : ArrayRef) (store : gmap ArrayRef (list ReportListItemType.t))
    (rows : list ReportListItemType.t) :
  consistentCollation ext ->
  store !! data = Some rows ->
  (forall row, In row rows -> orderableDate (getReportNewestTransactionDate row)) ->
  exists sorted,
    snd (getSortedReportData ext data store) !! data = Some sorted
    /\ Permutation sorted rows
    /\ StronglySorted
         (fun a b => date_le ext (getReportNewestTransactionDate b)
                                 (getReportNewestTransactionDate a))
         sorted.
Proof.
  intros Hcollation Hrows Hdates.
  exists (JS.Array_sort (compareReports ext) rows).
  unfold getSortedReportData.
  split; [|split].
  - now apply Array_sort_in_place_spec.
  - apply Array_sort_Permutation.
  - apply Array_sort_sorted_preorder.
    + intros a b c Hab Hbc. eapply date_le_trans; eassumption.
    + intros a b Ha Hb.
      pose proof (Hdates a Ha) as Hda. pose proof (Hdates b Hb) as Hdb.
      unfold compareReports.
      destruct (getReportNewestTransactionDate a) as [aNewest|]; [|contradiction].
      destruct (getReportNewestTransactionDate b) as [bNewest|]; [|contradiction].
      cbn [orderableDate date_le] in *.
      destruct Hda as [Hane Hla], Hdb as [Hbne Hlb].
      assert (Hta : JS.truthy aNewest = true).
      { unfold JS.truthy. apply negb_true_iff, String.eqb_neq. exact Hane. }
      assert (Htb : JS.truthy bNewest = true).
      { unfold JS.truthy. apply negb_true_iff, String.eqb_neq. exact Hbne. }
      rewrite Hta, Htb, Hlb. cbn [negb orb].
      split; [apply localeCompare_negative|now apply localeCompare_not_negative].
Qed.

Lemma getSortedReportData_newest_first_witness :
  let A := sampleReportRow "A" [sampleDatedRow "t1" "2024-01-02" None;
                                sampleDatedRow "t2" "2024-02-01" None] in
  let B := sampleReportRow "B" [sampleDatedRow "t3" "2024-03-01" None] in
  let store : gmap ArrayRef (list ReportListItemType.t) := {[ 1%positive := [A; B] ]} in
  snd (getSortedReportData sampleExternals 1%positive store) !! 1%positive = Some [B; A]
  /\ exists sorted,
       snd (getSortedReportData sampleExternals 1%positive store) !! 1%positive = Some sorted
       /\ Permutation sorted [A; B]
       /\ StronglySorted
            (fun a b => date_le sampleExternals (getReportNewestTransactionDate b)
                                (getReportNewestTransactionDate a))
            sorted.
Proof.
  intros A B store. split; [vm_compute; reflexivity|].
  apply (getSortedReportData_newest_first sampleExternals 1%positive store [A; B]).
  - exact sampleExternals_collation.
  - vm_compute. reflexivity.
  - intros row [<-|[<-|[]]]; (split; [discriminate|reflexivity]).
Defined.

(** ** The payload and its sections *)

Lemma getTransactionsSections_nil (ext : Externals) (data : SearchData)
    (metadata : option SearchMetadata) (flag year : bool) (entries : SearchData) :
  (forall key entry, In (key, entry) entries ->
     isTransactionEntry key = true -> exists transactionItem, entry = ETransaction transactionItem) ->
  flat_map
    (fun '(key, entry) =>
       if isTransactionEntry key then
         match entry with
         | ETransaction transactionItem =>
             [transactionListItem ext data metadata flag year transactionItem]
         | _ => []
         end
       else [])
    entries = []
  <-> existsb isTransactionEntry (Object_keys entries) = false.
Proof.
  induction entries as [|[key entry] entries IH]; intros Htyped; [split; reflexivity|].
  cbn [flat_map Object_keys map existsb fst].
  assert (IH' := IH (fun k e Hin => Htyped k e (or_intror Hin))).
  unfold Object_keys in IH'.
  destruct (isTransactionEntry key) eqn:Hkey; cbn [orb].
  - destruct (Htyped key entry (or_introl eq_refl) Hkey) as [transactionItem ->].
    cbn [app]. split; discriminate.
  - cbn [app]. exact IH'.
Qed.

(** X8.  On a payload whose values have the shapes its type gives them,
    [isSearchResultsEmpty] holds exactly when [getTransactionsSections]
    returns no row. *)
Theorem isSearchResultsEmpty_no_transaction_row
    (ext : Externals) (searchResults : SearchResults.t) :
  wellTyped (SearchResults.data searchResults) ->
  isSearchResultsEmpty searchResults = true
  <-> getTransactionsSections ext (SearchResults.data searchResults)
        (SearchResults.search searchResults) = [].
Proof.
  intros Htyped. unfold isSearchResultsEmpty, getTransactionsSections.
  rewrite getTransactionsSections_nil by (intros key entry Hin; apply (Htyped key entry Hin)).
  rewrite negb_true_iff. reflexivity.
Qed.

Lemma isSearchResultsEmpty_no_transaction_row_witness :
  let withTransaction :=
    SearchResults.mk None
      [("report_r1"%string, EReport (sampleReport "r1"));
       ("transaction_t1"%string,
        ETransaction (sampleTransaction "t1" "r1" "2024-01-01" None None))] in
  let withoutTransaction :=
    SearchResults.mk None [("report_r1"%string, EReport (sampleReport "r1"))] in
  isSearchResultsEmpty withTransaction = false
  /\ (isSearchResultsEmpty withoutTransaction = true
      <-> getTransactionsSections sampleExternals (SearchResults.data withoutTransaction)
            (SearchResults.search withoutTransaction) = []).
Proof.
  intros withTransaction withoutTransaction. split; [reflexivity|].
  apply (isSearchResultsEmpty_no_transaction_row sampleExternals withoutTransaction).
  intros key entry [[= <- <-]|[]].
  split; [discriminate|]. split; [eauto|discriminate].
Defined.

Lemma In_getTransactionsSections (ext : Externals) (data : SearchData)
    (metadata : option SearchMetadata) (key : string) (transactionItem : SearchTransaction.t) :
  In (key, ETransaction transactionItem) data -> isTransactionEntry key = true ->
  In (transactionListItem ext data metadata (getShouldShowMerchant ext data)
        (shouldShowYear ext data) transactionItem)
     (getTransactionsSections ext data metadata).
Proof.
  intros Hin Hkey. unfold getTransactionsSections. apply in_flat_map.
  exists (key, ETransaction transactionItem). split; [exact Hin|].
  rewrite Hkey. now left.
Qed.

(** The loop of [getReportSections] files nothing but rows that
    [getTransactionsSections] builds. *)
Lemma getReportSections_loop_rows (ext : Externals) (data : SearchData)
    (metadata : option SearchMetadata) (entries : SearchData) :
  let rowsOf (groups : list (string * ReportListItemType.t)) :=
    forall key group transactions row,
      In (key, group) groups -> ReportListItemType.transactions group = Some transactions ->
      In row transactions -> In row (getTransactionsSections ext data metadata) in
  (forall keyed, In keyed entries -> In keyed data) ->
  forall acc, rowsOf acc ->
    rowsOf (fold_left
              (getReportSections_step ext data metadata (getShouldShowMerchant ext data)
                 (shouldShowYear ext data))
              entries acc).
Proof.
  intros rowsOf. induction entries as [|[key entry] entries IH]; intros Hdata acc Hacc;
    [exact Hacc|].
  cbn [fold_left]. apply IH; [intros keyed Hin; apply Hdata; now right|].
  assert (Hentry : In (key, entry) data) by (apply Hdata; now left).
  unfold getReportSections_step.
  destruct (isReportEntry key).
  - destruct entry as [reportItem| | |]; try exact Hacc.
    intros k group transactions row Hin Htransactions Hrow.
    apply In_Record_set in Hin. destruct Hin as [[_ ->]|Hin]; [|eapply Hacc; eassumption].
    cbn [ReportListItemType.transactions] in Htransactions.
    injection Htransactions as <-.
    destruct (Record_get acc (reportKeyOf (SearchReport.reportID reportItem)))
      as [old|] eqn:Hold; cbn [mbind option_bind] in Hrow; [|destruct Hrow].
    destruct (ReportListItemType.transactions old) as [oldTransactions|] eqn:Holdts;
      cbn [default] in Hrow; [|destruct Hrow].
    eapply Hacc; [apply Record_get_In; exact Hold|exact Holdts|exact Hrow].
  - destruct (isTransactionEntry key) eqn:Hkey; [|exact Hacc].
    destruct entry as [|transactionItem| |]; try exact Hacc.
    destruct (Record_get acc (reportKeyOf (SearchTransaction.reportID transactionItem)))
      as [group|] eqn:Hgroup; [|exact Hacc].
    pose proof (In_getTransactionsSections ext data metadata key transactionItem Hentry Hkey)
      as Hnew.
    destruct (ReportListItemType.transactions group) as [oldTransactions|] eqn:Holdts;
      intros k group' transactions row Hin Htransactions Hrow;
      apply In_Record_set in Hin;
      (destruct Hin as [[_ ->]|Hin]; [|eapply Hacc; eassumption]);
      cbn [ReportListItemType.set_transactions ReportListItemType.transactions]
        in Htransactions;
      injection Htransactions as <-.
    + apply in_app_or in Hrow. destruct Hrow as [Hrow|[<-|[]]]; [|exact Hnew].
      eapply Hacc; [apply Record_get_In; exact Hgroup|exact Holdts|exact Hrow].
    + destruct Hrow as [<-|[]]. exact Hnew.
Qed.

(** X9.  Every transaction row that [getReportSections] files under a report
    is a row that [getTransactionsSections] returns for the same payload and
    metadata: a transaction shows the same in the two lists. *)
Theorem getReportSections_rows_from_getTransactionsSections
    (ext : Externals) (data : SearchData) (metadata : option SearchMetadata)
    (item : ReportListItemType.t) (transactions : list TransactionListItemType.t)
    (row : TransactionListItemType.t) :
  In item (getReportSections ext data metadata) ->
  ReportListItemType.transactions item = Some transactions ->
  In row transactions ->
  In row (getTransactionsSections ext data metadata).
Proof.
  unfold getReportSections, Object_values. intros Hitem Htransactions Hrow.
  apply in_map_iff in Hitem. destruct Hitem as ([key group] & Hsnd & Hin).
  cbn [snd] in Hsnd. subst group.
  eapply (getReportSections_loop_rows ext data metadata data (fun keyed Hk => Hk) []);
    [intros ? ? ? ? []|exact Hin|exact Htransactions|exact Hrow].
Qed.

Lemma getReportSections_rows_from_getTransactionsSections_witness :
  let data :=
    [("report_r1"%string, EReport (sampleReport "r1"));
     ("transaction_t1"%string,
      ETransaction (sampleTransaction "t1" "r1" "2024-01-01" None None));
     ("transaction_t2"%string,
      ETransaction (sampleTransaction "t2" "r1" "2024-01-02" None None))] in
  exists item transactions row,
    nth_error (getReportSections sampleExternals data None) 0 = Some item
    /\ ReportListItemType.transactions item = Some transactions
    /\ nth_error transactions 1 = Some row
    /\ TransactionListItemType.keyForList row = "t2"%string
    /\ In row (getTransactionsSections sampleExternals data None).
Proof.
  intros data.
  assert (H : exists item transactions row,
             nth_error (getReportSections sampleExternals data None) 0 = Some item
             /\ ReportListItemType.transactions item = Some transactions
             /\ nth_error transactions 1 = Some row
             /\ TransactionListItemType.keyForList row = "t2"%string).
  { vm_compute. do 3 eexists. repeat split. }
  destruct H as (item & transactions & row & Hitem & Htransactions & Hrow & Hkey).
  exists item, transactions, row.
  split; [exact Hitem|]. split; [exact Htransactions|]. split; [exact Hrow|].
  split; [exact Hkey|].
  apply (getReportSections_rows_from_getTransactionsSections sampleExternals data None
           item transactions row).
  - eapply nth_error_In. exact Hitem.
  - exact Htransactions.
  - eapply nth_error_In. exact Hrow.
Defined.

(** X10.  The chat rows of [getReportActionsSections] are built from the
    report actions held under the keys with the report-action prefix that
    [isDeletedAction] does not flag, and from all of those: a deleted action
    is never returned, an action that is not deleted always is. *)
Theorem getReportActionsSections_not_deleted
    (ext : Externals) (data : SearchData) (action : ReportAction.t) :
  In action (map ReportActionListItemType.reportAction (getReportActionsSections ext data))
  <-> isDeletedAction ext action = false
      /\ exists key reportActions name,
           In (key, EReportActions reportActions) data
           /\ isReportActionEntry key = true
           /\ In (name, action) reportActions.
Proof.
  unfold getReportActionsSections. rewrite in_map_iff. split.
  - intros (row & <- & Hrow). apply in_flat_map in Hrow.
    destruct Hrow as ([key entry] & Hentry & Hrow).
    destruct (isReportActionEntry key) eqn:Hkey; [|destruct Hrow].
    destruct entry as [| |reportActions|]; try destruct Hrow.
    apply in_flat_map in Hrow. destruct Hrow as (reportAction & Haction & Hrow).
    destruct (isDeletedAction ext reportAction) eqn:Hdeleted; [destruct Hrow|].
    destruct Hrow as [<-|[]]. cbn [ReportActionListItemType.reportAction].
    split; [exact Hdeleted|].
    unfold Object_values in Haction. apply in_map_iff in Haction.
    destruct Haction as ([name action'] & Hsnd & Hin). cbn [snd] in Hsnd. subst action'.
    exists key, reportActions, name. auto.
  - intros (Hdeleted & key & reportActions & name & Hentry & Hkey & Hin).
    eexists. split; [|apply in_flat_map; exists (key, EReportActions reportActions);
                      split; [exact Hentry|]].
    2:{ rewrite Hkey. apply in_flat_map. exists action. split.
        - unfold Object_values. apply in_map_iff. exists (name, action). auto.
        - rewrite Hdeleted. left. reflexivity. }
    reflexivity.
Qed.

(** ** One list item per report *)

Lemma Record_set_absent {V : Type} (o : list (string * V)) (k : string) (v : V) :
  Record_get o k = None -> Record_set o k v = o ++ [(k, v)].
Proof.
  induction o as [|[k' v'] o IH]; cbn [Record_get Record_set app]; [reflexivity|].
  destruct (String.eqb k' k); [discriminate|]. intros H. now rewrite IH.
Qed.

Lemma Record_set_present {V W : Type} (f : V -> W) (o : list (string * V)) (k : string)
    (old v : V) :
  Record_get o k = Some old -> f v = f old ->
  map f (Object_values (Record_set o k v)) = map f (Object_values o).
Proof.
  unfold Object_values.
  induction o as [|[k' v'] o IH]; cbn [Record_get Record_set]; [discriminate|].
  destruct (String.eqb k' k); cbn [map snd].
  - intros [= ->] ->. reflexivity.
  - intros Hget Hf. now rewrite IH.
Qed.

Lemma Record_get_None {V : Type} (o : list (string * V)) (k : string) (v : V) :
  Record_get o k = None -> ~ In (k, v) o.
Proof.
  induction o as [|[k' v'] o IH]; cbn [Record_get]; [intros _ []|].
  destruct (String.eqb k' k) eqn:E; [discriminate|].
  intros Hget [[= -> ->]|Hin]; [|now apply IH].
  rewrite String.eqb_refl in E. discriminate.
Qed.

Lemma Record_get_NoDup {V : Type} (o : list (string * V)) (k : string) (v : V) :
  List.NoDup (Object_keys o) -> In (k, v) o -> Record_get o k = Some v.
Proof.
  unfold Object_keys.
  induction o as [|[k' v'] o IH]; cbn [Record_get map fst]; [intros _ []|].
  intros Hnodup [[= -> ->]|Hin]; [now rewrite String.eqb_refl|].
  apply List.NoDup_cons_iff in Hnodup. destruct Hnodup as [Hk' Hnodup].
  destruct (String.eqb_spec k' k) as [->|Hne]; [|now apply IH].
  destruct Hk'. apply in_map_iff. exists (k, v). auto.
Qed.

Lemma filter_filter_andb {X : Type} (p q : X -> bool) (l : list X) :
  List.filter p (List.filter q l) = List.filter (fun x => p x && q x) l.
Proof.
  induction l as [|x l IH]; [reflexivity|]. cbn [List.filter].
  destruct (q x); cbn [List.filter]; rewrite ?andb_true_r, ?andb_false_r;
    [destruct (p x)|]; now rewrite IH.
Qed.

Lemma In_distinctInOrder (l : list string) (x : string) :
  In x (distinctInOrder l) <-> In x l.
Proof.
  induction l as [|y l IH]; [reflexivity|]. cbn [distinctInOrder In].
  rewrite List.filter_In, IH, negb_true_iff, String.eqb_neq.
  destruct (String.eqb_spec y x); intuition congruence.
Qed.

Lemma NoDup_distinctInOrder (l : list string) : List.NoDup (distinctInOrder l).
Proof.
  induction l as [|y l IH]; cbn [distinctInOrder]; constructor.
  - rewrite List.filter_In, String.eqb_refl. intros [_ [=]].
  - now apply List.NoDup_filter.
Qed.

Section OneItemPerReport.
Variable ext : Externals.
Variable data : SearchData.
Variable metadata : option SearchMetadata.
Variables flag year : bool.

Lemma filedByID_existsb (groups : list (string * ReportListItemType.t)) (reportID : string) :
  filedByID groups ->
  existsb (String.eqb reportID) (map ReportListItemType.keyForList (Object_values groups))
  = bool_decide (Record_get groups (reportKeyOf reportID) <> None).
Proof.
  intros Hfiled.
  destruct (Record_get groups (reportKeyOf reportID)) as [old|] eqn:Hget.
  - rewrite bool_decide_eq_true_2 by discriminate.
    apply existsb_exists. exists reportID. split; [|apply String.eqb_refl].
    apply Record_get_In in Hget. pose proof (Hfiled _ _ Hget) as Hkey.
    apply reportKeyOf_inj in Hkey. rewrite Hkey.
    apply in_map. unfold Object_values. apply in_map_iff. exists (reportKeyOf reportID, old).
    split; [reflexivity|exact Hget].
  - rewrite bool_decide_eq_false_2 by (intros H; now apply H).
    apply not_true_is_false. intros Hex. apply existsb_exists in Hex.
    destruct Hex as (y & Hy & Heq). apply String.eqb_eq in Heq. subst y.
    apply in_map_iff in Hy. destruct Hy as (group & Hid & Hgroup).
    unfold Object_values in Hgroup. apply in_map_iff in Hgroup.
    destruct Hgroup as ([key group'] & Hsnd & Hin). cbn [snd] in Hsnd. subst group'.
    pose proof (Hfiled _ _ Hin) as Hkey. rewrite Hid in Hkey. subst key.
    exact (Record_get_None _ _ _ Hget Hin).
Qed.

Lemma getReportSections_loop_ids (entries : SearchData) :
  forall groups, filedByID groups ->
    let groups' := fold_left (getReportSections_step ext data metadata flag year) entries groups in
    let ids := map ReportListItemType.keyForList (Object_values groups) in
    filedByID groups'
    /\ map ReportListItemType.keyForList (Object_values groups')
       = ids ++ List.filter (fun y => negb (existsb (String.eqb y) ids))
                  (distinctInOrder (map SearchReport.reportID (reportsOf entries))).
Proof.
  induction entries as [|[key entry] entries IH]; intros groups Hfiled; cbv zeta.
  - cbn. split; [exact Hfiled|now rewrite app_nil_r].
  - cbn [fold_left].
    set (groups1 := getReportSections_step ext data metadata flag year groups (key, entry)).
    assert (Hunchanged :
              filedByID groups ->
              groups1 = groups -> reportsOf ((key, entry) :: entries) = reportsOf entries ->
              filedByID (fold_left (getReportSections_step ext data metadata flag year)
                           entries groups1)
              /\ map ReportListItemType.keyForList
                   (Object_values
                      (fold_left (getReportSections_step ext data metadata flag year)
                         entries groups1))
                 = map ReportListItemType.keyForList (Object_values groups)
                   ++ List.filter
                        (fun y => negb (existsb (String.eqb y)
                                          (map ReportListItemType.keyForList
                                             (Object_values groups))))
                        (distinctInOrder
                           (map SearchReport.reportID (reportsOf ((key, entry) :: entries))))).
    { intros Hf -> ->. exact (IH groups Hf). }
    unfold getReportSections_step in groups1.
    destruct (isReportEntry key) eqn:Hreport.
    + destruct entry as [reportItem| | |];
        try (apply Hunchanged; [exact Hfiled|reflexivity|];
             cbn [reportsOf flat_map app]; reflexivity).
      clear Hunchanged.
      assert (Hreports : reportsOf ((key, EReport reportItem) :: entries)
                         = reportItem :: reportsOf entries).
      { cbn [reportsOf flat_map]. now rewrite Hreport. }
      rewrite Hreports. cbn [map distinctInOrder List.filter].
      rewrite (filedByID_existsb groups (SearchReport.reportID reportItem) Hfiled).
      assert (Hfiled1 : filedByID groups1).
      { intros k group Hin. apply In_Record_set in Hin.
        destruct Hin as [[-> ->]|Hin]; [reflexivity|now apply Hfiled]. }
      destruct (IH groups1 Hfiled1) as [Hfiled' Hids]. cbv zeta in Hids.
      split; [exact Hfiled'|]. rewrite Hids. clear Hids.
      destruct (Record_get groups (reportKeyOf (SearchReport.reportID reportItem)))
        as [old|] eqn:Hold.
      * rewrite bool_decide_eq_true_2 by discriminate. cbn [negb].
        assert (Hsame : map ReportListItemType.keyForList (Object_values groups1)
                        = map ReportListItemType.keyForList (Object_values groups)).
        { apply (Record_set_present _ _ _ old); [exact Hold|].
          cbn [ReportListItemType.keyForList].
          apply Record_get_In in Hold. apply Hfiled in Hold.
          now apply reportKeyOf_inj in Hold. }
        rewrite Hsame, filter_filter_andb. f_equal.
        apply List.filter_ext_in. intros y _.
        destruct (String.eqb_spec y (SearchReport.reportID reportItem)) as [->|Hne];
          [|now rewrite andb_true_r].
        rewrite (filedByID_existsb groups _ Hfiled), Hold.
        rewrite bool_decide_eq_true_2 by discriminate. reflexivity.
      * rewrite bool_decide_eq_false_2 by (intros H; now apply H). cbn [negb].
        assert (Happended : map ReportListItemType.keyForList (Object_values groups1)
                            = map ReportListItemType.keyForList (Object_values groups)
                              ++ [SearchReport.reportID reportItem]).
        { subst groups1. rewrite Record_set_absent by exact Hold.
          unfold Object_values. now rewrite !List.map_app. }
        rewrite Happended, <- app_assoc. cbn [app]. do 2 f_equal.
        rewrite filter_filter_andb. apply List.filter_ext. intros y.
        rewrite existsb_app. cbn [existsb]. rewrite orb_false_r, negb_orb. reflexivity.
    + destruct (isTransactionEntry key) eqn:Htransaction.
      2:{ apply Hunchanged; [exact Hfiled|reflexivity|].
          cbn [reportsOf flat_map]. rewrite Hreport. now destruct entry. }
      assert (Hreports : reportsOf ((key, entry) :: entries) = reportsOf entries).
      { cbn [reportsOf flat_map]. rewrite Hreport. now destruct entry. }
      destruct entry as [|transactionItem| |];
        try (apply Hunchanged; [exact Hfiled|reflexivity|exact Hreports]).
      destruct (Record_get groups (reportKeyOf (SearchTransaction.reportID transactionItem)))
        as [group|] eqn:Hgroup;
        [|apply Hunchanged; [exact Hfiled|reflexivity|exact Hreports]].
      clear Hunchanged. rewrite Hreports.
      assert (Hkeep : forall transactions,
                filedByID
                  (Record_set groups (reportKeyOf (SearchTransaction.reportID transactionItem))
                     (ReportListItemType.set_transactions group transactions))
                /\ map ReportListItemType.keyForList
                     (Object_values
                        (Record_set groups
                           (reportKeyOf (SearchTransaction.reportID transactionItem))
                           (ReportListItemType.set_transactions group transactions)))
                   = map ReportListItemType.keyForList (Object_values groups)).
      { intros transactions. split.
        - intros k g Hin. apply In_Record_set in Hin.
          destruct Hin as [[-> ->]|Hin]; [|now apply Hfiled].
          cbn [ReportListItemType.set_transactions ReportListItemType.keyForList].
          apply Hfiled. now apply Record_get_In.
        - now apply (Record_set_present _ _ _ group). }
      destruct (ReportListItemType.transactions group) as [transactions|];
        subst groups1;
        match goal with
        | |- context [ReportListItemType.set_transactions group ?ts] =>
            destruct (Hkeep ts) as [Hfiled1 Hsame]
        end;
        destruct (IH _ Hfiled1) as [Hfiled' Hids]; cbv zeta in Hids;
        (split; [exact Hfiled'|]); rewrite Hids, Hsame; reflexivity.
Qed.
End OneItemPerReport.

(** The report record a group is built from is the last one enumerated with
    its ID. *)
Lemma getReportSections_loop_header (ext : Externals) (data : SearchData)
    (metadata : option SearchMetadata) (flag year : bool) (reportID : string)
    (entries : SearchData) :
  forall groups,
    ReportListItemType.reportItem
      <$> Record_get (fold_left (getReportSections_step ext data metadata flag year)
                        entries groups)
            (reportKeyOf reportID)
    = match last (List.filter (fun r => String.eqb (SearchReport.reportID r) reportID)
                    (reportsOf entries)) with
      | Some reportItem => Some reportItem
      | None => ReportListItemType.reportItem <$> Record_get groups (reportKeyOf reportID)
      end.
Proof.
  induction entries as [|[key entry] entries IH]; intros groups; [reflexivity|].
  cbn [fold_left]. rewrite IH. clear IH.
  cbn [reportsOf flat_map]. fold (reportsOf entries).
  unfold getReportSections_step.
  destruct (isReportEntry key) eqn:Hreport.
  - destruct entry as [reportItem| | |]; cbn [app]; try reflexivity.
    cbn [List.filter].
    destruct (String.eqb_spec (SearchReport.reportID reportItem) reportID) as [->|Hne].
    + rewrite Record_get_set_eq. cbn [fmap option_fmap option_map ReportListItemType.reportItem].
      destruct (List.filter _ (reportsOf entries)) as [|r rest] eqn:Hfilter; [reflexivity|].
      rewrite (last_cons reportItem). now destruct (last (r :: rest)).
    + rewrite Record_get_set_ne; [reflexivity|].
      intros Hkey. apply reportKeyOf_inj in Hkey. congruence.
  - assert (Hreports : (match entry with
                        | EReport reportItem => if false then [reportItem] else []
                        | _ => []
                        end) = []) by now destruct entry.
    rewrite Hreports. cbn [app].
    destruct (isTransactionEntry key); [|reflexivity].
    destruct entry as [|transactionItem| |]; try reflexivity.
    destruct (Record_get groups (reportKeyOf (SearchTransaction.reportID transactionItem)))
      as [group|] eqn:Hgroup; [|reflexivity].
    assert (Hkeep : forall transactions,
              ReportListItemType.reportItem
                <$> Record_get
                      (Record_set groups
                         (reportKeyOf (SearchTransaction.reportID transactionItem))
                         (ReportListItemType.set_transactions group transactions))
                      (reportKeyOf reportID)
              = ReportListItemType.reportItem <$> Record_get groups (reportKeyOf reportID)).
    { intros transactions.
      destruct (String.eqb_spec (SearchTransaction.reportID transactionItem) reportID)
        as [Heq|Hne].
      - rewrite Heq in *. rewrite Record_get_set_eq, Hgroup. reflexivity.
      - rewrite Record_get_set_ne; [reflexivity|].
        intros Hkey. apply reportKeyOf_inj in Hkey. congruence. }
    destruct (ReportListItemType.transactions group); now rewrite Hkeep.
Qed.

(** X11.  [getReportSections] returns one list item per report ID met in a
    report record, at the place where that ID is met first; the item holds
    the fields of the last report record with that ID. *)
Theorem getReportSections_one_item_per_report
    (ext : Externals) (data : SearchData) (metadata : option SearchMetadata) :
  map ReportListItemType.keyForList (getReportSections ext data metadata)
  = distinctInOrder (map SearchReport.reportID (reportsOf data))
  /\ forall item, In item (getReportSections ext data metadata) ->
       last (List.filter
               (fun r => String.eqb (SearchReport.reportID r) (ReportListItemType.keyForList item))
               (reportsOf data))
       = Some (ReportListItemType.reportItem item).
Proof.
  unfold getReportSections, getReportSections_groups.
  destruct (getReportSections_loop_ids ext data metadata (getShouldShowMerchant ext data)
              (shouldShowYear ext data) data [] (fun key group Hin => match Hin with end))
    as [Hfiled Hids].
  cbv zeta in Hids. cbn [Object_values map app existsb negb] in Hids.
  rewrite List.filter_true in Hids.
  split; [exact Hids|].
  set (groups := fold_left _ data []) in *.
  intros item Hitem. unfold Object_values in Hitem. apply in_map_iff in Hitem.
  destruct Hitem as ([key group] & Hsnd & Hin). cbn [snd] in Hsnd. subst group.
  pose proof (Hfiled _ _ Hin) as Hkey. subst key.
  assert (Hnodup : List.NoDup (Object_keys groups)).
  { assert (Hkeys : Object_keys groups
                    = map reportKeyOf (map ReportListItemType.keyForList (Object_values groups))).
    { unfold Object_keys, Object_values. rewrite !List.map_map.
      apply List.map_ext_in. intros [k g] Hkg. cbn [fst snd]. now apply Hfiled. }
    rewrite Hkeys, Hids. apply List.NoDup_map_NoDup_ForallPairs.
    - intros a b _ _. apply reportKeyOf_inj.
    - apply NoDup_distinctInOrder. }
  pose proof (getReportSections_loop_header ext data metadata (getShouldShowMerchant ext data)
                (shouldShowYear ext data) (ReportListItemType.keyForList item) data [])
    as Hheader.
  fold groups in Hheader.
  rewrite (Record_get_NoDup groups _ item Hnodup Hin) in Hheader.
  cbn [fmap option_fmap option_map Record_get] in Hheader.
  destruct (last _) as [reportItem|]; congruence.
Qed.

(** ** The first policy ID *)

Lemma String_split_first (sep : ascii) (s : string) :
  exists part parts,
    String_split sep s = part :: parts
    /\ ~ In sep (list_ascii_of_string part)
    /\ (parts = [] /\ s = part
        \/ exists rest, s = part +:+ String sep rest /\ parts = String_split sep rest).
Proof.
  induction s as [|c s IH]; cbn [String_split].
  - exists EmptyString, []. split; [reflexivity|]. split; [intros []|]. left. auto.
  - destruct (Ascii.eqb_spec c sep) as [->|Hne].
    + exists EmptyString, (String_split sep s). split; [reflexivity|]. split; [intros []|].
      right. exists s. auto.
    + destruct IH as (part & parts & -> & Hpart & Hs).
      exists (String c part), parts. split; [reflexivity|]. split.
      * cbn [list_ascii_of_string]. intros [Heq|Hin]; [congruence|contradiction].
      * destruct Hs as [[-> ->]|(rest & -> & ->)]; [left; auto|].
        right. exists rest. auto.
Qed.

(** X12.  [getPolicyIDFromSearchQuery] returns nothing exactly when the
    query has no [policyID] or an empty one.  Otherwise it returns the part of
    [policyID] before its first comma, the whole of it when it holds none:
    the result holds no comma. *)
Theorem getPolicyIDFromSearchQuery_first (queryJSON : SearchQueryJSON) :
  (getPolicyIDFromSearchQuery queryJSON = None <-> JS.truthy_opt (policyID queryJSON) = false)
  /\ forall first,
       getPolicyIDFromSearchQuery queryJSON = Some first ->
       ~ In ","%char (list_ascii_of_string first)
       /\ exists policyIDFilter,
            policyID queryJSON = Some policyIDFilter
            /\ (policyIDFilter = first
                \/ exists rest, policyIDFilter = first +:+ String "," rest).
Proof.
  unfold getPolicyIDFromSearchQuery.
  destruct (policyID queryJSON) as [policyIDFilter|];
    cbn [JS.truthy_opt negb default from_option id].
  2:{ split; [tauto|discriminate]. }
  destruct (JS.truthy policyIDFilter); cbn [negb].
  2:{ split; [tauto|discriminate]. }
  destruct (String_split_first "," policyIDFilter) as (part & parts & -> & Hpart & Hs).
  cbn [head]. split; [split; discriminate|].
  intros first [= <-]. split; [exact Hpart|].
  exists policyIDFilter. split; [reflexivity|].
  destruct Hs as [[_ ->]|(rest & -> & _)]; [left; reflexivity|right; eauto].
Qed.

(** ** Quoting a value *)

Lemma length_append (a b : string) :
  String.length (a +:+ b) = (String.length a + String.length b)%nat.
Proof.
  induction a as [|c a IH]; [reflexivity|].
  change (S (String.length (a +:+ b)) = S (String.length a + String.length b)).
  now f_equal.
Qed.

Lemma list_ascii_of_string_append (a b : string) :
  list_ascii_of_string (a +:+ b) = list_ascii_of_string a ++ list_ascii_of_string b.
Proof.
  induction a as [|c a IH]; [reflexivity|].
  change (c :: list_ascii_of_string (a +:+ b)
          = c :: (list_ascii_of_string a ++ list_ascii_of_string b)).
  now f_equal.
Qed.

Lemma sanitizeString_quoted_ne (str : string) : doubleQuote +:+ str +:+ doubleQuote <> str.
Proof.
  intros H. apply (f_equal String.length) in H.
  rewrite !length_append in H. cbn in H. lia.
Qed.

(** X13.  [sanitizeString] returns its argument, or its argument between two
    double quotes.  A second pass adds two more quotes whenever the first
    added two: sanitizing the result again gives it back only for strings
    that were left as they are. *)
Theorem sanitizeString_twice (str : string) :
  (sanitizeString str = str \/ sanitizeString str = doubleQuote +:+ str +:+ doubleQuote)
  /\ (sanitizeString (sanitizeString str) = sanitizeString str <-> sanitizeString str = str).
Proof.
  assert (Hcases : forall s,
             existsb (fun c => negb (sanitizeAllowed c)) (list_ascii_of_string s) = true
             /\ sanitizeString s = doubleQuote +:+ s +:+ doubleQuote
             \/ existsb (fun c => negb (sanitizeAllowed c)) (list_ascii_of_string s) = false
                /\ sanitizeString s = s).
  { intros s. unfold sanitizeString. destruct (existsb _ _); auto. }
  destruct (Hcases str) as [[Hstr ->]|[Hstr ->]].
  - split; [right; reflexivity|].
    destruct (Hcases (doubleQuote +:+ str +:+ doubleQuote)) as [[_ ->]|[Hquoted _]].
    + split; intros H; exfalso; eapply sanitizeString_quoted_ne; exact H.
    + rewrite !list_ascii_of_string_append, !existsb_app, Hstr, orb_true_r in Hquoted.
      discriminate.
  - split; [left; reflexivity|].
    destruct (Hcases str) as [[Hstr' _]|[_ ->]]; [congruence|tauto].
Qed.

(** ** Rendering the constraints of a key *)

Lemma append_assoc (a b c : string) : (a +:+ b) +:+ c = a +:+ b +:+ c.
Proof.
  induction a as [|x a IH]; [reflexivity|].
  change (String x ((a +:+ b) +:+ c) = String x (a +:+ b +:+ c)). now f_equal.
Qed.

Lemma append_empty_r (a : string) : a +:+ EmptyString = a.
Proof.
  induction a as [|x a IH]; [reflexivity|].
  change (String x (a +:+ EmptyString) = String x a). now f_equal.
Qed.

Lemma join_cons (sep part : string) (parts : list string) :
  parts <> [] -> JS.join sep (part :: parts) = part +:+ sep +:+ JS.join sep parts.
Proof. destruct parts; [congruence|reflexivity]. Qed.

(** X14.  Under the [keyword] key, [buildFilterString] writes a space and
    then the sanitized values separated by spaces; the operators of the
    constraints play no part, and the key itself is not written. *)
Theorem buildFilterString_keyword (queryFilters : list QueryFilter) :
  buildFilterString KEYWORD queryFilters
  = match queryFilters with
    | [] => EmptyString
    | _ => " " +:+ JS.join " " (map (fun queryFilter => sanitizeString (value queryFilter))
                                   queryFilters)
    end.
Proof.
  unfold buildFilterString. generalize (@None Operator) as previous.
  induction queryFilters as [|queryFilter rest IH]; intros previous; [reflexivity|].
  cbn [buildFilterString_from map]. rewrite String.eqb_refl, IH.
  assert (Hpiece : (if match previous with
                       | Some previousOperator =>
                           Operator_eqb (operator queryFilter) EQUAL_TO
                           && Operator_eqb previousOperator EQUAL_TO
                           || Operator_eqb (operator queryFilter) NOT_EQUAL_TO
                              && Operator_eqb previousOperator NOT_EQUAL_TO
                       | None => false
                       end
                    then " " +:+ sanitizeString (value queryFilter)
                    else " " +:+ sanitizeString (value queryFilter))
                   = " " +:+ sanitizeString (value queryFilter))
    by now destruct (match previous with Some _ => _ | None => _ end).
  rewrite Hpiece, append_assoc.
  destruct rest as [|next rest]; [now rewrite append_empty_r|].
  rewrite join_cons by discriminate. reflexivity.
Qed.

Lemma buildFilterString_from_equality (filterName : string) (nodeOperator : Operator)
    (values : list string) :
  String.eqb filterName KEYWORD = false ->
  Operator_eqb nodeOperator EQUAL_TO || Operator_eqb nodeOperator NOT_EQUAL_TO = true ->
  buildFilterString_from filterName (Some nodeOperator)
    (map (fun v => {| operator := nodeOperator; value := v |}) values)
  = match values with
    | [] => EmptyString
    | _ => "," +:+ JS.join "," (map sanitizeString values)
    end.
Proof.
  intros Hname Hoperator.
  induction values as [|v values IH]; [reflexivity|].
  cbn [map buildFilterString_from operator value]. rewrite Hname, IH.
  assert (Hsame : Operator_eqb nodeOperator EQUAL_TO && Operator_eqb nodeOperator EQUAL_TO
                  || Operator_eqb nodeOperator NOT_EQUAL_TO
                     && Operator_eqb nodeOperator NOT_EQUAL_TO = true)
    by (destruct nodeOperator; cbn in *; congruence).
  rewrite Hsame, append_assoc.
  destruct values as [|v' values]; [now rewrite append_empty_r|].
  rewrite join_cons by discriminate. reflexivity.
Qed.

Lemma buildFilterString_from_ordering (filterName : string) (nodeOperator : Operator)
    (values : list string) (previous : option Operator) :
  String.eqb filterName KEYWORD = false ->
  Operator_eqb nodeOperator EQUAL_TO || Operator_eqb nodeOperator NOT_EQUAL_TO = false ->
  buildFilterString_from filterName previous
    (map (fun v => {| operator := nodeOperator; value := v |}) values)
  = JS.join EmptyString
      (map (fun v => " " +:+ filterName +:+ operatorToSignMap nodeOperator +:+ sanitizeString v)
           values).
Proof.
  intros Hname Hoperator. revert previous.
  induction values as [|v values IH]; intros previous; [reflexivity|].
  cbn [map buildFilterString_from operator value]. rewrite Hname, IH.
  assert (Hdifferent : match previous with
                       | Some previousOperator =>
                           Operator_eqb nodeOperator EQUAL_TO
                           && Operator_eqb previousOperator EQUAL_TO
                           || Operator_eqb nodeOperator NOT_EQUAL_TO
                              && Operator_eqb previousOperator NOT_EQUAL_TO
                       | None => false
                       end = false).
  { destruct previous as [previousOperator|]; [|reflexivity].
    apply orb_false_elim in Hoperator. destruct Hoperator as [-> ->]. reflexivity. }
  rewrite Hdifferent.
  destruct values as [|v' values]; [now rewrite append_empty_r|].
  rewrite join_cons by discriminate. reflexivity.
Qed.

(** X15.  For a key other than [keyword] and constraints that all have one
    operator, [buildFilterString] writes, after a space, the key, the sign of
    the operator and the sanitized values separated by commas when the
    operator is [eq] or [neq]; for any other operator it writes one such
    segment, space first, per value. *)
Theorem buildFilterString_one_operator
    (filterName : string) (nodeOperator : Operator) (values : list string) :
  filterName <> KEYWORD ->
  values <> [] ->
  buildFilterString filterName
    (map (fun v => {| operator := nodeOperator; value := v |}) values)
  = if Operator_eqb nodeOperator EQUAL_TO || Operator_eqb nodeOperator NOT_EQUAL_TO
    then " " +:+ filterName +:+ operatorToSignMap nodeOperator
         +:+ JS.join "," (map sanitizeString values)
    else JS.join EmptyString
           (map (fun v => " " +:+ filterName +:+ operatorToSignMap nodeOperator
                          +:+ sanitizeString v)
                values).
Proof.
  intros Hname Hvalues. apply String.eqb_neq in Hname.
  destruct (Operator_eqb nodeOperator EQUAL_TO || Operator_eqb nodeOperator NOT_EQUAL_TO)
    eqn:Hoperator.
  - destruct values as [|v values]; [congruence|].
    unfold buildFilterString. cbn [map buildFilterString_from operator value].
    rewrite Hname, buildFilterString_from_equality by assumption.
    rewrite !append_assoc.
    destruct values as [|v' values]; [now rewrite append_empty_r|].
    rewrite join_cons by discriminate. reflexivity.
  - now apply buildFilterString_from_ordering.
Qed.

Lemma buildFilterString_one_operator_witness :
  buildFilterString "category"
    (map (fun v => {| operator := EQUAL_TO; value := v |}) ["A"; "B"; "C"]%string)
  = " category:A,B,C"%string
  /\ buildFilterString "amount"
       (map (fun v => {| operator := GREATER_THAN; value := v |}) ["100"; "200"]%string)
     = " amount>100 amount>200"%string.
Proof.
  split.
  - rewrite (buildFilterString_one_operator "category" EQUAL_TO ["A"; "B"; "C"]%string);
      [reflexivity|discriminate|discriminate].
  - rewrite (buildFilterString_one_operator "amount" GREATER_THAN ["100"; "200"]%string);
      [reflexivity|discriminate|discriminate].
Defined.

(** ** What the flattener files under a key *)

Lemma Object_keys_Record_set {V : Type} (o : list (string * V)) (k : string) (v : V) :
  Object_keys (Record_set o k v)
  = match Record_get o k with
    | Some _ => Object_keys o
    | None => Object_keys o ++ [k]
    end.
Proof.
  unfold Object_keys.
  induction o as [|[k' v'] o IH]; cbn [Record_get Record_set map fst app]; [reflexivity|].
  destruct (String.eqb k' k); cbn [map fst]; [reflexivity|].
  rewrite IH. now destruct (Record_get o k).
Qed.

Lemma Record_get_In_keys {V : Type} (o : list (string * V)) (k : string) :
  Record_get o k = None <-> ~ In k (Object_keys o).
Proof.
  unfold Object_keys.
  induction o as [|[k' v'] o IH]; cbn [Record_get map fst In]; [tauto|].
  destruct (String.eqb_spec k' k) as [->|Hne]; [split; [discriminate|tauto]|].
  rewrite IH. tauto.
Qed.

Lemma NoDup_Record_set {V : Type} (o : list (string * V)) (k : string) (v : V) :
  List.NoDup (Object_keys o) -> List.NoDup (Object_keys (Record_set o k v)).
Proof.
  intros Hnodup. rewrite Object_keys_Record_set.
  destruct (Record_get o k) eqn:Hget; [exact Hnodup|].
  apply Record_get_In_keys in Hget.
  apply List.NoDup_app; [exact Hnodup|repeat constructor; intros []|].
  intros x Hx [<-|[]]. contradiction.
Qed.

Section Flattener.

Lemma traverse_unfold (nodeOperator : Operator) (nodeLeft : ASTLeft) (nodeRight : ASTRight)
    (filters : QueryFilters) :
  traverse (mkASTNode (Some nodeOperator) nodeLeft nodeRight) filters
  = traverse_node nodeOperator nodeLeft nodeRight
      (traverse_subtree (rightSubtree nodeRight)
         (traverse_subtree (leftSubtree nodeLeft) filters)).
Proof. destruct nodeLeft, nodeRight; reflexivity. Qed.

Lemma constraintsOf_unfold (key : string) (nodeOperator : Operator) (nodeLeft : ASTLeft)
    (nodeRight : ASTRight) :
  constraintsOf key (mkASTNode (Some nodeOperator) nodeLeft nodeRight)
  = from_option (constraintsOf key) [] (leftSubtree nodeLeft)
    ++ from_option (constraintsOf key) [] (rightSubtree nodeRight)
    ++ match nodeLeft with
       | LeftString nodeKey =>
           if String.eqb nodeKey key then constraintsOfLeaf nodeOperator nodeRight else []
       | LeftNode _ => []
       end.
Proof. destruct nodeLeft, nodeRight; reflexivity. Qed.

Lemma mentions_unfold (key : string) (nodeOperator : Operator) (nodeLeft : ASTLeft)
    (nodeRight : ASTRight) :
  mentions key (mkASTNode (Some nodeOperator) nodeLeft nodeRight)
  = from_option (mentions key) false (leftSubtree nodeLeft)
    || from_option (mentions key) false (rightSubtree nodeRight)
    || match nodeLeft with
       | LeftString nodeKey => String.eqb nodeKey key
       | LeftNode _ => false
       end.
Proof. destruct nodeLeft, nodeRight; reflexivity. Qed.

Lemma walks_subtree_None : walks_subtree None.
Proof.
  repeat split; cbn [from_option traverse_subtree]; auto.
Qed.

Lemma walks_node (nodeOperator : option Operator) (nodeLeft : ASTLeft) (nodeRight : ASTRight) :
  walks_subtree (leftSubtree nodeLeft) -> walks_subtree (rightSubtree nodeRight) ->
  walks (mkASTNode nodeOperator nodeLeft nodeRight).
Proof.
  intros (HLnone & HLget & HLother & HLnodup) (HRnone & HRget & HRother & HRnodup).
  destruct nodeOperator as [nodeOperator|].
  2:{ repeat split; cbn [mentions constraintsOf traverse]; auto. }
  split; [|split; [|split]].
  - intros key. rewrite mentions_unfold, constraintsOf_unfold.
    intros Hmentions. apply orb_false_elim in Hmentions. destruct Hmentions as [Hm Hleaf].
    apply orb_false_elim in Hm. destruct Hm as [HmL HmR].
    rewrite (HLnone key HmL), (HRnone key HmR).
    destruct nodeLeft as [|nodeKey]; [reflexivity|]. now rewrite Hleaf.
  - intros filters key Hkey.
    rewrite traverse_unfold, mentions_unfold, constraintsOf_unfold.
    specialize (HLnone key). specialize (HRnone key).
    specialize (HLget filters key Hkey).
    specialize (HRget (traverse_subtree (leftSubtree nodeLeft) filters) key Hkey).
    rewrite HLget in HRget. clear HLget.
    set (filters2 := traverse_subtree (rightSubtree nodeRight)
                       (traverse_subtree (leftSubtree nodeLeft) filters)) in *.
    unfold traverse_node.
    assert (Hleaf : forall nodeKey,
               nodeLeft = LeftString nodeKey ->
               existsb (String.eqb nodeKey) SYNTAX_FILTER_KEYS = false ->
               String.eqb nodeKey key = false).
    { intros nodeKey _ Hfilter. apply String.eqb_neq. intros ->.
      apply filterKeys_includes in Hkey. congruence. }
    destruct (from_option (mentions key) false (leftSubtree nodeLeft)) eqn:HmL,
             (from_option (mentions key) false (rightSubtree nodeRight)) eqn:HmR;
      cbn [orb default from_option id] in HRget |- *;
      try rewrite (HLnone eq_refl); try rewrite (HRnone eq_refl);
      (destruct nodeLeft as [leftNode|nodeKey];
       [rewrite HRget, ?app_nil_r, ?app_nil_l, ?app_assoc; reflexivity|]);
      (destruct (existsb (String.eqb nodeKey) SYNTAX_FILTER_KEYS) eqn:Hfilter;
       [destruct (String.eqb_spec nodeKey key) as [->|Hne];
        [rewrite Record_get_set_eq, HRget; cbn [default from_option id];
         rewrite ?app_nil_r, ?app_nil_l, ?app_assoc; reflexivity
        |rewrite Record_get_set_ne by congruence;
         rewrite HRget, ?app_nil_r, ?app_nil_l, ?app_assoc; reflexivity]
       |rewrite (Hleaf nodeKey eq_refl Hfilter), HRget, ?app_nil_r, ?app_nil_l, ?app_assoc;
        reflexivity]).
  - intros filters key Hkey. rewrite traverse_unfold. unfold traverse_node.
    assert (Hsub : Record_get (traverse_subtree (rightSubtree nodeRight)
                                 (traverse_subtree (leftSubtree nodeLeft) filters)) key
                   = Record_get filters key) by now rewrite HRother, HLother.
    destruct nodeLeft as [leftNode|nodeKey]; [exact Hsub|].
    destruct (existsb (String.eqb nodeKey) SYNTAX_FILTER_KEYS) eqn:Hfilter; [|exact Hsub].
    rewrite Record_get_set_ne; [exact Hsub|].
    intros ->. apply filterKeys_includes in Hfilter. contradiction.
  - intros filters Hnodup. rewrite traverse_unfold. unfold traverse_node.
    assert (Hsub : List.NoDup (Object_keys (traverse_subtree (rightSubtree nodeRight)
                                              (traverse_subtree (leftSubtree nodeLeft) filters))))
      by now apply HRnodup, HLnodup.
    destruct nodeLeft as [leftNode|nodeKey]; [exact Hsub|].
    destruct (existsb (String.eqb nodeKey) SYNTAX_FILTER_KEYS); [|exact Hsub].
    now apply NoDup_Record_set.
Qed.

Lemma traverse_walks (node : ASTNode) : walks node.
Proof.
  induction node using ASTNode_mutind
    with (P0 := fun nodeLeft => walks_subtree (leftSubtree nodeLeft))
         (P1 := fun nodeRight => walks_subtree (rightSubtree nodeRight)).
  - now apply walks_node.
  - exact IHnode.
  - exact walks_subtree_None.
  - exact IHnode.
  - exact walks_subtree_None.
  - exact walks_subtree_None.
Qed.
End Flattener.

(** X16.  The dictionary [getFilters] returns has each key once, and every
    key is one of the filter keys: a node whose [left] is any other string
    adds nothing. *)
Theorem getFilters_keys (queryJSON : SearchQueryJSON) :
  List.NoDup (Object_keys (getFilters queryJSON))
  /\ forall key, In key (Object_keys (getFilters queryJSON)) -> In key SYNTAX_FILTER_KEYS.
Proof.
  unfold getFilters. destruct (filters queryJSON) as [root|].
  2:{ split; [constructor|intros key []]. }
  destruct (traverse_walks root) as (_ & _ & Hother & Hnodup).
  split; [apply Hnodup; constructor|].
  intros key Hin.
  destruct (existsb (String.eqb key) SYNTAX_FILTER_KEYS) eqn:Hfilter;
    [now apply filterKeys_includes|].
  exfalso. revert Hin. apply Record_get_In_keys.
  rewrite Hother; [reflexivity|].
  intros Hkey. apply filterKeys_includes in Hkey. congruence.
Qed.

(** X17.  Under a filter key, [getFilters] files the constraints of the
    nodes whose [left] is that key, in the order of a walk that visits the
    left subtree, the right subtree and then the node, wherever in the tree
    those nodes are; a key that no visited node has is not in the
    dictionary. *)
Theorem getFilters_constraints_of_key
    (queryJSON : SearchQueryJSON) (root : ASTNode) (key : string) :
  filters queryJSON = Some root ->
  In key SYNTAX_FILTER_KEYS ->
  Record_get (getFilters queryJSON) key
  = if mentions key root then Some (constraintsOf key root) else None.
Proof.
  intros Hroot Hkey. unfold getFilters. rewrite Hroot.
  destruct (traverse_walks root) as (_ & Hget & _ & _).
  now rewrite (Hget [] key Hkey).
Qed.

Lemma getFilters_constraints_of_key_witness :
  let leaf nodeOperator nodeKey nodeValue :=
    mkASTNode (Some nodeOperator) (LeftString nodeKey) (RightString nodeValue) in
  let root :=
    mkASTNode (Some AND)
      (LeftNode (mkASTNode (Some AND)
                   (LeftNode (leaf GREATER_THAN "amount" "100"))
                   (RightNode (leaf EQUAL_TO "category" "A"))))
      (RightNode (leaf LOWER_THAN "amount" "500")) in
  let queryJSON :=
    {| type := "expense"; status := "all"; sortBy := "date"; sortOrder := "desc";
       policyID := None; filters := Some root; flatFilters := [];
       inputQuery := EmptyString; hash := 0 |} in
  Record_get (getFilters queryJSON) "amount"
  = Some [{| operator := GREATER_THAN; value := "100" |};
          {| operator := LOWER_THAN; value := "500" |}]
  /\ Record_get (getFilters queryJSON) "tag" = None.
Proof.
  intros leaf root queryJSON. split.
  - rewrite (getFilters_constraints_of_key queryJSON root "amount" eq_refl).
    + reflexivity.
    + cbv. tauto.
  - rewrite (getFilters_constraints_of_key queryJSON root "tag" eq_refl).
    + reflexivity.
    + cbv. tauto.
Defined.

(** ** The constraints a parsed query carries *)

Lemma Record_get_map {V W : Type} (f : V -> W) (o : list (string * V)) (k : string) :
  Record_get (map (fun '(key, v) => (key, f v)) o) k = f <$> Record_get o k.
Proof.
  induction o as [|[k' v'] o IH]; cbn [map Record_get]; [reflexivity|].
  now destruct (String.eqb k' k).
Qed.

Lemma compareFilterValues_agrees (constraints : list QueryFilter) :
  agreesOn compareFilterValues (fun a b => string_le (value a) (value b)) constraints.
Proof.
  intros a b _ _. unfold compareFilterValues, JS.string_gt, String.ltb, string_le.
  rewrite (String.compare_antisym (value a) (value b)).
  destruct (String.compare (value b) (value a)); cbn [CompOpp];
    split; intros H; try discriminate; lia.
Qed.

(** X18.  In the query [buildSearchQueryJSON] returns, the constraints under
    a key are those the filter tree holds for that key, and they come sorted
    by value in ascending code-unit order, not in the order of the tree: the
    sort that [getQueryHash] runs on them works in place. *)
Theorem buildSearchQueryJSON_constraints_sorted
    (ext : Externals) (searchParser_parse : string -> JS.Completion ParsedQuery)
    (query : string) (console : JS.Console) (result : SearchQueryJSON)
    (key : string) (constraints : list QueryFilter) :
  fst (buildSearchQueryJSON ext searchParser_parse query console) = JS.Normal (Some result) ->
  Record_get (flatFilters result) key = Some constraints ->
  StronglySorted (fun a b => string_le (value a) (value b)) constraints
  /\ exists root,
       filters result = Some root
       /\ Permutation constraints (constraintsOf key root).
Proof.
  unfold buildSearchQueryJSON, JS.try_catch, JS.bind, JS.call, JS.console_error, JS.ret.
  destruct (searchParser_parse query) as [parsed|e]; cbn [fst]; [|discriminate].
  intros [= <-]. cbn [flatFilters filters]. unfold flatFilters_afterHash. cbn [flatFilters].
  rewrite Record_get_map.
  destruct (Record_get _ key) as [unsorted|] eqn:Hunsorted; [|discriminate].
  intros [= <-]. split.
  - apply Array_sort_sorted_preorder.
    + intros a b c. apply compare_not_Gt_trans.
    + apply compareFilterValues_agrees.
  - unfold getFilters in Hunsorted. cbn [filters] in Hunsorted.
    destruct (parsed_filters parsed) as [root|]; [|discriminate].
    exists root. split; [reflexivity|].
    rewrite Array_sort_Permutation.
    destruct (traverse_walks root) as (_ & Hget & Hother & _).
    destruct (existsb (String.eqb key) SYNTAX_FILTER_KEYS) eqn:Hfilter.
    + apply filterKeys_includes in Hfilter.
      rewrite (Hget [] key Hfilter) in Hunsorted.
      destruct (mentions key root); [|discriminate].
      injection Hunsorted as <-. reflexivity.
    + rewrite Hother in Hunsorted; [discriminate|].
      intros Hkey. apply filterKeys_includes in Hkey. congruence.
Qed.

Lemma buildSearchQueryJSON_constraints_sorted_witness :
  exists result constraints,
    fst (buildSearchQueryJSON sampleExternals sampleParser atMostFirst []) = JS.Normal (Some result)
    /\ Record_get (flatFilters result) "date" = Some constraints
    /\ constraints = [{| operator := GREATER_THAN_OR_EQUAL_TO; value := "2024-01-01" |};
                      {| operator := LOWER_THAN_OR_EQUAL_TO; value := "2024-01-01" |}]
    /\ StronglySorted (fun a b => string_le (value a) (value b)) constraints.
Proof.
  assert (H : exists result constraints,
             fst (buildSearchQueryJSON sampleExternals sampleParser atMostFirst [])
             = JS.Normal (Some result)
             /\ Record_get (flatFilters result) "date" = Some constraints
             /\ constraints = [{| operator := GREATER_THAN_OR_EQUAL_TO; value := "2024-01-01" |};
                               {| operator := LOWER_THAN_OR_EQUAL_TO; value := "2024-01-01" |}]).
  { vm_compute. do 2 eexists. repeat split. }
  destruct H as (result & constraints & Hresult & Hconstraints & Hvalue).
  exists result, constraints.
  split; [exact Hresult|]. split; [exact Hconstraints|]. split; [exact Hvalue|].
  exact (proj1 (buildSearchQueryJSON_constraints_sorted sampleExternals sampleParser atMostFirst
                  [] result "date" constraints Hresult Hconstraints)).
Defined.

(** ** Normalizing never throws *)

Lemma buildSearchQueryJSON_result
    (ext : Externals) (searchParser_parse : string -> JS.Completion ParsedQuery)
    (query : string) (console console' : JS.Console) :
  exists result,
    fst (buildSearchQueryJSON ext searchParser_parse query console) = JS.Normal result
    /\ fst (buildSearchQueryJSON ext searchParser_parse query console') = JS.Normal result
    /\ (result = None <-> exists e, searchParser_parse query = JS.Throw e).
Proof.
  unfold buildSearchQueryJSON, JS.try_catch, JS.bind, JS.call, JS.console_error, JS.ret.
  destruct (searchParser_parse query) as [parsed|e]; cbn [fst]; eexists.
  - split; [reflexivity|]. split; [reflexivity|].
    split; [discriminate|intros [e He]; discriminate].
  - split; [reflexivity|]. split; [reflexivity|]. split; [eauto|reflexivity].
Qed.

Lemma buildSearchQueryString_result
    (ext : Externals) (searchParser_parse : string -> JS.Completion ParsedQuery)
    (queryJSON : option SearchQueryJSON) (console console' : JS.Console) :
  exists queryString,
    fst (buildSearchQueryString ext searchParser_parse queryJSON console) = JS.Normal queryString
    /\ fst (buildSearchQueryString ext searchParser_parse queryJSON console')
       = JS.Normal queryString.
Proof.
  destruct (buildSearchQueryJSON_result ext searchParser_parse EmptyString console console')
    as (defaultQueryJSON & Hdefault & Hdefault' & _).
  unfold buildSearchQueryString, JS.bind.
  destruct (buildSearchQueryJSON ext searchParser_parse EmptyString console) as [r c].
  destruct (buildSearchQueryJSON ext searchParser_parse EmptyString console') as [r' c'].
  cbn [fst] in Hdefault, Hdefault'. subst r r'.
  destruct queryJSON as [queryJSON|]; unfold JS.ret; cbn [fst]; eauto.
Qed.

(** X19.  [normalizeQuery] always returns a string, whatever the parser does
    with its argument and with the empty string.  For an argument the parser
    rejects, the string is the one [buildSearchQueryString] gives for no
    query at all: the root keys of the default query. *)
Theorem normalizeQuery_never_throws
    (ext : Externals) (searchParser_parse : string -> JS.Completion ParsedQuery)
    (query : string) (console : JS.Console) :
  (exists queryString,
      fst (normalizeQuery ext searchParser_parse query console) = JS.Normal queryString)
  /\ ((exists e, searchParser_parse query = JS.Throw e) ->
      fst (normalizeQuery ext searchParser_parse query console)
      = fst (buildSearchQueryString ext searchParser_parse None console)).
Proof.
  destruct (buildSearchQueryJSON_result ext searchParser_parse query console console)
    as (result & Hresult & _ & Hnone).
  unfold normalizeQuery, JS.bind.
  destruct (buildSearchQueryJSON ext searchParser_parse query console) as [r console1].
  cbn [fst] in Hresult. subst r.
  destruct (buildSearchQueryString_result ext searchParser_parse result console1 console)
    as (queryString & Hstring & Hstring').
  split; [eauto|].
  intros Hthrows. apply Hnone in Hthrows. subst result. congruence.
Qed.

(** ** Display values that resolve to nothing *)

(** X20.  Names that resolve to nothing (no account for the e-mail, no card
    of a bank with that name, no tax rate under that name, the name not being
    one of the properties [taxRates] inherits as an object either, such as
    [constructor] or [toString]): under [from] and [to]
    [findIDFromDisplayValue] returns them as they are, a string as a string
    and a list as a list; under [taxRate] it returns them in a list, also
    when given one string; under [cardID] it returns one string as it is, but
    a list of them as the empty list. *)
Theorem findIDFromDisplayValue_unresolved
    (ext : Externals) (cardList : list (string * Card)) (taxRates : gmap string (list string))
    (names : list string) :
  (forall name, In name names ->
     getAccountIDByEmail ext name = None
     /\ taxRates !! name = None
     /\ JS.Object_prototype name = None
     /\ cardIDsOfBank cardList name = []) ->
  (forall filterName, filterName = FROM \/ filterName = TO ->
     findIDFromDisplayValue ext cardList taxRates filterName (RightArr names)
     = JS.Normal (RightArr names)
     /\ forall name, In name names ->
          findIDFromDisplayValue ext cardList taxRates filterName (RightStr name)
          = JS.Normal (RightStr name))
  /\ findIDFromDisplayValue ext cardList taxRates TAX_RATE (RightArr names)
     = JS.Normal (RightArr names)
  /\ findIDFromDisplayValue ext cardList taxRates CARD_ID (RightArr names)
     = JS.Normal (RightArr [])
  /\ forall name, In name names ->
       findIDFromDisplayValue ext cardList taxRates TAX_RATE (RightStr name)
       = JS.Normal (RightArr [name])
       /\ findIDFromDisplayValue ext cardList taxRates CARD_ID (RightStr name)
          = JS.Normal (RightStr name).
Proof.
  intros Hunresolved.
  assert (Hemails : map (fun email => default email (getAccountIDByEmail ext email)) names
                    = names).
  { rewrite <- (List.map_id names) at 2. apply List.map_ext_in.
    intros name Hname. now rewrite (proj1 (Hunresolved name Hname)). }
  assert (Htax : forall name, In name names -> taxRateOrName taxRates name = [name]).
  { intros name Hname. destruct (Hunresolved name Hname) as (_ & Hrate & Hinherited & _).
    unfold taxRateOrName. now rewrite Hrate, Hinherited. }
  assert (Htaxes : flat_map (taxRateOrName taxRates) names = names).
  { clear Hemails. induction names as [|name names IH]; [reflexivity|].
    cbn [flat_map]. rewrite (Htax name (or_introl eq_refl)).
    cbn [app]. f_equal. apply IH.
    - intros name' Hname'. apply Hunresolved. now right.
    - intros name' Hname'. apply Htax. now right. }
  assert (Hcards : flat_map (cardIDsOfBank cardList) names = []).
  { clear Hemails Htax Htaxes. induction names as [|name names IH]; [reflexivity|].
    cbn [flat_map]. rewrite (proj2 (proj2 (proj2 (Hunresolved name (or_introl eq_refl))))).
    apply IH. intros name' Hname'. apply Hunresolved. now right. }
  split; [|split; [|split]].
  - intros filterName [-> | ->]; (split; [cbn; now rewrite Hemails|]);
      intros name Hname; cbn; now rewrite (proj1 (Hunresolved name Hname)).
  - cbn. now rewrite Htaxes.
  - cbn. now rewrite Hcards.
  - intros name Hname. split.
    + cbn. now rewrite (Htax name Hname).
    + cbn. now rewrite (proj2 (proj2 (proj2 (Hunresolved name Hname)))).
Qed.

Lemma findIDFromDisplayValue_unresolved_witness :
  let cardList := [("1"%string, {| bank := "chase"; cardID := "1" |})] in
  let taxRates : gmap string (list string) := {[ "VAT"%string := ["id_VAT"%string] ]} in
  findIDFromDisplayValue sampleExternals cardList taxRates CARD_ID
    (RightArr ["amex"; "visa"]%string)
  = JS.Normal (RightArr [])
  /\ findIDFromDisplayValue sampleExternals cardList taxRates TAX_RATE
       (RightArr ["amex"; "visa"]%string)
     = JS.Normal (RightArr ["amex"; "visa"]%string)
  /\ findIDFromDisplayValue sampleExternals cardList taxRates CARD_ID (RightStr "amex")
     = JS.Normal (RightStr "amex")
  /\ findIDFromDisplayValue sampleExternals cardList taxRates CARD_ID (RightStr "chase")
     = JS.Normal (RightArr ["1"%string]).
Proof.
  intros cardList taxRates.
  assert (Hunresolved : forall name, In name ["amex"; "visa"]%string ->
             getAccountIDByEmail sampleExternals name = None
             /\ taxRates !! name = None
             /\ JS.Object_prototype name = None
             /\ cardIDsOfBank cardList name = []).
  { intros name [<-|[<-|[]]]; repeat split; vm_compute; reflexivity. }
  destruct (findIDFromDisplayValue_unresolved sampleExternals cardList taxRates
              ["amex"; "visa"]%string Hunresolved)
    as (_ & Htaxes & Hcards & Hone).
  split; [exact Hcards|]. split; [exact Htaxes|]. split; [|vm_compute; reflexivity].
  exact (proj2 (Hone "amex"%string (or_introl eq_refl))).
Defined.

(** ** The rows of the flat list *)

(** X22.  Every row of [getTransactionsSections] is built from a transaction
    record held under a key with the transaction prefix.  Its [keyForList] is
    the transaction ID, its year flag is that of the whole payload, its date
    is [modifiedCreated] when that is a non-empty string and [created]
    otherwise, and its [formattedMerchant] is what [getMerchant] gives unless
    that is one of the two placeholder merchants, which are shown as the
    empty string. *)
Theorem getTransactionsSections_rows
    (ext : Externals) (data : SearchData) (metadata : option SearchMetadata)
    (row : TransactionListItemType.t) :
  In row (getTransactionsSections ext data metadata) ->
  let transactionItem := TransactionListItemType.transactionItem row in
  (exists key, In (key, ETransaction transactionItem) data /\ isTransactionEntry key = true)
  /\ TransactionListItemType.keyForList row = SearchTransaction.transactionID transactionItem
  /\ TransactionListItemType.shouldShowYear row = shouldShowYear ext data
  /\ TransactionListItemType.date row
     = Some (if JS.truthy_opt (SearchTransaction.modifiedCreated transactionItem)
             then default EmptyString (SearchTransaction.modifiedCreated transactionItem)
             else SearchTransaction.created transactionItem)
  /\ (TransactionListItemType.formattedMerchant row = Some EmptyString
      /\ (getMerchant ext transactionItem = PARTIAL_TRANSACTION_MERCHANT ext
          \/ getMerchant ext transactionItem = DEFAULT_MERCHANT ext)
      \/ TransactionListItemType.formattedMerchant row = Some (getMerchant ext transactionItem)
         /\ getMerchant ext transactionItem <> PARTIAL_TRANSACTION_MERCHANT ext
         /\ getMerchant ext transactionItem <> DEFAULT_MERCHANT ext).
Proof.
  unfold getTransactionsSections. intros Hrow. apply in_flat_map in Hrow.
  destruct Hrow as ([key entry] & Hentry & Hrow).
  destruct (isTransactionEntry key) eqn:Hkey; [|destruct Hrow].
  destruct entry as [|transactionItem| |];
    [destruct Hrow| |destruct Hrow|destruct Hrow].
  destruct Hrow as [<-|[]].
  cbn [transactionListItem TransactionListItemType.transactionItem
       TransactionListItemType.keyForList TransactionListItemType.shouldShowYear
       TransactionListItemType.date TransactionListItemType.formattedMerchant
       getTransactionItemCommonFormattedProperties cfp_date cfp_formattedMerchant].
  split; [eauto|]. split; [reflexivity|]. split; [reflexivity|]. split.
  - destruct (SearchTransaction.modifiedCreated transactionItem) as [modifiedCreated|];
      cbn [JS.truthy_opt default from_option id]; [|reflexivity].
    now destruct (JS.truthy modifiedCreated).
  - destruct (String.eqb_spec (getMerchant ext transactionItem)
                (PARTIAL_TRANSACTION_MERCHANT ext)) as [Hpartial|Hpartial];
      cbn [orb]; [left; auto|].
    destruct (String.eqb_spec (getMerchant ext transactionItem) (DEFAULT_MERCHANT ext))
      as [Hdefault|Hdefault]; [left; auto|right; auto].
Qed.

Lemma getTransactionsSections_rows_witness :
  let data :=
    [("transaction_t1"%string,
      ETransaction (sampleTransaction "t1" "r1" "2024-01-01" (Some "2024-02-02"%string)
                      (Some "Expense"%string)))] in
  exists row,
    nth_error (getTransactionsSections sampleExternals data None) 0 = Some row
    /\ TransactionListItemType.keyForList row = "t1"%string
    /\ TransactionListItemType.date row = Some "2024-02-02"%string
    /\ TransactionListItemType.formattedMerchant row = Some EmptyString.
Proof.
  intros data.
  assert (H : exists row,
             nth_error (getTransactionsSections sampleExternals data None) 0 = Some row
             /\ SearchTransaction.transactionID (TransactionListItemType.transactionItem row)
                = "t1"%string
             /\ SearchTransaction.modifiedCreated (TransactionListItemType.transactionItem row)
                = Some "2024-02-02"%string
             /\ getMerchant sampleExternals (TransactionListItemType.transactionItem row)
                = "Expense"%string).
  { vm_compute. eexists. repeat split. }
  destruct H as (row & Hrow & Hid & Hmodified & Hmerchant).
  exists row. split; [exact Hrow|].
  destruct (getTransactionsSections_rows sampleExternals data None row
              (nth_error_In _ _ Hrow))
    as (_ & Hkey & _ & Hdate & Hformatted).
  rewrite Hkey, Hdate, Hid, Hmodified. split; [reflexivity|]. split; [reflexivity|].
  destruct Hformatted as [[Hblank _]|(_ & _ & Hdefault)]; [exact Hblank|].
  rewrite Hmerchant in Hdefault. now destruct Hdefault.
Defined.

(** ** The query string and the order of the keys *)

Lemma Record_get_Permutation {V : Type} (o o' : list (string * V)) (k : string) :
  Permutation o o' -> List.NoDup (Object_keys o) -> Record_get o k = Record_get o' k.
Proof.
  unfold Object_keys.
  induction 1 as [|[k1 v1] o o' Hperm IH|[k1 v1] [k2 v2] o|o o' o'' H1 IH1 H2 IH2];
    intros Hnodup.
  - reflexivity.
  - cbn [Record_get]. destruct (String.eqb k1 k); [reflexivity|].
    apply IH. now inversion Hnodup.
  - cbn [Record_get].
    destruct (String.eqb_spec k1 k) as [->|H1], (String.eqb_spec k2 k) as [->|H2];
      try reflexivity.
    cbn [map fst] in Hnodup. inversion Hnodup as [|? ? Hnotin _]. destruct Hnotin. now left.
  - rewrite IH1 by exact Hnodup. apply IH2.
    eapply Permutation.Permutation_NoDup; [|exact Hnodup].
    now apply Permutation.Permutation_map.
Qed.

(** X23.  [buildSearchQueryString] writes the filters in the order of
    CONST.SEARCH.SYNTAX_FILTER_KEYS: two queries with the same root values
    whose [flatFilters] hold the same keys with the same constraints,
    whatever the order of the keys, give the same string. *)
Theorem buildSearchQueryString_key_order
    (ext : Externals) (searchParser_parse : string -> JS.Completion ParsedQuery)
    (query1 query2 : SearchQueryJSON) (console : JS.Console) :
  type query1 = type query2 -> status query1 = status query2 ->
  sortBy query1 = sortBy query2 -> sortOrder query1 = sortOrder query2 ->
  policyID query1 = policyID query2 ->
  List.NoDup (Object_keys (flatFilters query1)) ->
  Permutation (flatFilters query1) (flatFilters query2) ->
  buildSearchQueryString ext searchParser_parse (Some query1) console
  = buildSearchQueryString ext searchParser_parse (Some query2) console.
Proof.
  intros Htype Hstatus HsortBy HsortOrder HpolicyID Hnodup Hperm.
  unfold buildSearchQueryString, JS.bind.
  destruct (buildSearchQueryJSON ext searchParser_parse EmptyString console)
    as [[defaultQueryJSON|e] console1]; [|reflexivity].
  unfold JS.ret. f_equal. f_equal. f_equal. f_equal.
  - apply List.flat_map_ext. intros key. unfold rootField.
    now rewrite Htype, Hstatus, HsortBy, HsortOrder, HpolicyID.
  - apply List.flat_map_ext. intros filterKey.
    now rewrite (Record_get_Permutation _ _ filterKey Hperm Hnodup).
Qed.

Lemma buildSearchQueryString_key_order_witness :
  let queryOf flat :=
    {| type := "expense"; status := "all"; sortBy := "date"; sortOrder := "desc";
       policyID := None; filters := None; flatFilters := flat;
       inputQuery := EmptyString; hash := 0 |} in
  let category := ("category"%string, [{| operator := EQUAL_TO; value := "A" |}]) in
  let amount := ("amount"%string, [{| operator := GREATER_THAN; value := "100" |}]) in
  fst (buildSearchQueryString sampleExternals sampleParser (Some (queryOf [category; amount])) [])
  = JS.Normal "type:expense status:all sortBy:date sortOrder:desc  amount>100  category:A"%string
  /\ buildSearchQueryString sampleExternals sampleParser (Some (queryOf [category; amount])) []
     = buildSearchQueryString sampleExternals sampleParser (Some (queryOf [amount; category])) [].
Proof.
  intros queryOf category amount. split; [vm_compute; reflexivity|].
  apply (buildSearchQueryString_key_order sampleExternals sampleParser
           (queryOf [category; amount]) (queryOf [amount; category]) []);
    try reflexivity.
  - repeat constructor; cbn; intuition discriminate.
  - apply Permutation.perm_swap.
Defined.

(** ** Sorting again *)

Section ArraySortAgain.
Context {A : Type}.
Variable comparefn : A -> A -> Z.

Lemma runTail_isRun (rest : list A) :
  forall previousElement,
    isRun comparefn previousElement rest ->
    JS.runTail comparefn false previousElement rest = List.length rest.
Proof.
  induction rest as [|currentElement rest IH]; intros previousElement; [reflexivity|].
  cbn [isRun JS.runTail List.length]. intros [Horder Hrest].
  destruct (comparefn currentElement previousElement <? 0) eqn:E; [lia|].
  now rewrite IH.
Qed.

(** [sort] leaves an array that is one run as it is. *)
Lemma Array_sort_isRun (array : list A) :
  match array with [] => True | first :: rest => isRun comparefn first rest end ->
  JS.Array_sort comparefn array = array.
Proof.
  destruct array as [|x [|y rest]]; [reflexivity|reflexivity|].
  cbn [isRun]. intros [Horder Hrest]. unfold JS.Array_sort.
  change (List.length (x :: y :: rest) <? 2)%nat with false. cbv iota.
  unfold JS.CountAndMakeRun.
  destruct (comparefn y x <? 0) eqn:E; [lia|].
  rewrite runTail_isRun by exact Hrest.
  change (2 + List.length rest)%nat with (List.length (x :: y :: rest)).
  now rewrite List.firstn_all, List.skipn_all.
Qed.

Variable R : A -> A -> Prop.

Lemma StronglySorted_isRun (array : list A) :
  (forall a b, In a array -> In b array -> comparefn b a < 0 -> ~ R a b) ->
  StronglySorted R array ->
  match array with [] => True | first :: rest => isRun comparefn first rest end.
Proof.
  intros Hstrict Hsorted.
  induction Hsorted as [|x l Hsorted IH Hall]; [exact I|].
  destruct l as [|y l]; [exact I|]. cbn [isRun]. split.
  - destruct (Z.lt_ge_cases (comparefn y x) 0) as [Hlt|Hge]; [|lia].
    exfalso. apply (Hstrict x y); [now left|right; now left|exact Hlt|].
    exact (proj1 (List.Forall_forall _ _) Hall y (or_introl eq_refl)).
  - apply IH. intros a b Ha Hb. apply Hstrict; now right.
Qed.
End ArraySortAgain.

Lemma Array_sort_in_place_again {A : Type} (comparefn : A -> A -> Z)
    (data : ArrayRef) (store : gmap ArrayRef (list A)) (rows : list A) :
  store !! data = Some rows ->
  JS.Array_sort comparefn (JS.Array_sort comparefn rows) = JS.Array_sort comparefn rows ->
  Array_sort_in_place comparefn data (snd (Array_sort_in_place comparefn data store))
  = Array_sort_in_place comparefn data store.
Proof.
  intros Hrows Hagain. unfold Array_sort_in_place. rewrite Hrows. cbn [snd].
  rewrite lookup_insert_eq, Hagain, insert_insert_eq. reflexivity.
Qed.



(** X25.  The two sorts by date change nothing when run a second time, if
    the collation of the host is consistent: on chat rows that all have a
    [created] without upper-case letters [getSortedReportActionData], and on
    report rows whose newest transaction dates are all non-empty and without
    upper-case letters [getSortedReportData], leave the array as their first
    call left it. *)
Theorem date_sorts_again
    (ext : Externals)
    (actions : ArrayRef) (actionStore : gmap ArrayRef (list ReportActionListItemType.t))
    (actionRows : list ReportActionListItemType.t)
    (reports : ArrayRef) (reportStore : gmap ArrayRef (list ReportListItemType.t))
    (reportRows : list ReportListItemType.t) :
  consistentCollation ext ->
  actionStore !! actions = Some actionRows ->
  (forall row, In row actionRows ->
     exists created, ReportActionListItemType.created row = Some created
                     /\ JS.toLowerCase created = created) ->
  reportStore !! reports = Some reportRows ->
  (forall row, In row reportRows -> orderableDate (getReportNewestTransactionDate row)) ->
  getSortedReportActionData ext actions (snd (getSortedReportActionData ext actions actionStore))
  = getSortedReportActionData ext actions actionStore
  /\ getSortedReportData ext reports (snd (getSortedReportData ext reports reportStore))
     = getSortedReportData ext reports reportStore.
Proof.
  intros Hcollation Hactions Hcreated Hreports Hdates. split.
  - apply (Array_sort_in_place_again _ _ _ actionRows Hactions).
    assert (Hin : forall row, In row (JS.Array_sort (compareReportActions ext) actionRows) ->
                              In row actionRows).
    { intros row. apply Permutation_in, Array_sort_Permutation. }
    assert (Hagrees : agreesOn (compareReportActions ext)
                        (fun a b => date_le ext (ReportActionListItemType.created b)
                                                (ReportActionListItemType.created a))
                        actionRows).
    { intros a b Ha Hb.
      destruct (Hcreated a Ha) as (aValue & Ea & Hla).
      destruct (Hcreated b Hb) as (bValue & Eb & Hlb).
      unfold compareReportActions. rewrite Ea, Eb. cbn [date_le]. rewrite Hlb.
      split; [apply localeCompare_negative|now apply localeCompare_not_negative]. }
    apply Array_sort_isRun.
    apply (StronglySorted_isRun (compareReportActions ext)
             (fun a b => date_le ext (ReportActionListItemType.created b)
                                     (ReportActionListItemType.created a)));
      [|apply Array_sort_sorted_preorder;
        [intros a b c Hab Hbc; eapply date_le_trans; eassumption|exact Hagrees]].
    intros a b Ha Hb. apply Hin in Ha, Hb.
    destruct (Hcreated a Ha) as (aValue & Ea & Hla).
    destruct (Hcreated b Hb) as (bValue & Eb & Hlb).
    unfold compareReportActions. rewrite Ea, Eb. cbn [date_le]. rewrite Hla.
    now apply localeCompare_negative_strict.
  - apply (Array_sort_in_place_again _ _ _ reportRows Hreports).
    assert (Hin : forall row, In row (JS.Array_sort (compareReports ext) reportRows) ->
                              In row reportRows).
    { intros row. apply Permutation_in, Array_sort_Permutation. }
    assert (Hcompare : forall a b, In a reportRows -> In b reportRows ->
               exists aNewest bNewest,
                 getReportNewestTransactionDate a = Some aNewest
                 /\ getReportNewestTransactionDate b = Some bNewest
                 /\ compareReports ext a b = localeCompare ext bNewest aNewest).
    { intros a b Ha Hb.
      pose proof (Hdates a Ha) as Hda. pose proof (Hdates b Hb) as Hdb.
      unfold compareReports.
      destruct (getReportNewestTransactionDate a) as [aNewest|]; [|contradiction].
      destruct (getReportNewestTransactionDate b) as [bNewest|]; [|contradiction].
      cbn [orderableDate] in Hda, Hdb. destruct Hda as [Hane Hla], Hdb as [Hbne Hlb].
      exists aNewest, bNewest. split; [reflexivity|]. split; [reflexivity|].
      unfold JS.truthy.
      rewrite (proj2 (String.eqb_neq _ _) Hane), (proj2 (String.eqb_neq _ _) Hbne), Hlb.
      reflexivity. }
    apply Array_sort_isRun.
    eapply (StronglySorted_isRun (compareReports ext)
              (fun a b => date_le ext (getReportNewestTransactionDate b)
                                      (getReportNewestTransactionDate a))).
    + intros a b Ha Hb. apply Hin in Ha, Hb.
      destruct (Hcompare b a Hb Ha) as (bNewest & aNewest & Eb & Ea & ->).
      rewrite Ea, Eb. cbn [date_le]. now apply localeCompare_negative_strict.
    + apply Array_sort_sorted_preorder.
      * intros a b c Hab Hbc. eapply date_le_trans; eassumption.
      * intros a b Ha Hb.
        destruct (Hcompare a b Ha Hb) as (aNewest & bNewest & Ea & Eb & ->).
        rewrite Ea, Eb. cbn [date_le].
        split; [apply localeCompare_negative|now apply localeCompare_not_negative].
Qed.

Lemma date_sorts_again_witness :
  let actionRows := [sampleReportActionRow "a" (Some "2024-01-05 10:00:00"%string);
                     sampleReportActionRow "b" (Some "2024-03-01 09:30:00"%string)] in
  let actionStore : gmap ArrayRef (list ReportActionListItemType.t) :=
    {[ 1%positive := actionRows ]} in
  let reportRows := [sampleReportRow "A" [sampleDatedRow "t1" "2024-01-02" None];
                     sampleReportRow "B" [sampleDatedRow "t3" "2024-03-01" None]] in
  let reportStore : gmap ArrayRef (list ReportListItemType.t) :=
    {[ 1%positive := reportRows ]} in
  getSortedReportActionData sampleExternals 1%positive
      (snd (getSortedReportActionData sampleExternals 1%positive actionStore))
  = getSortedReportActionData sampleExternals 1%positive actionStore
  /\ getSortedReportData sampleExternals 1%positive
      (snd (getSortedReportData sampleExternals 1%positive reportStore))
     = getSortedReportData sampleExternals 1%positive reportStore.
Proof.
  intros actionRows actionStore reportRows reportStore.
  apply (date_sorts_again sampleExternals 1%positive actionStore actionRows
           1%positive reportStore reportRows).
  - exact sampleExternals_collation.
  - vm_compute. reflexivity.
  - intros row [<-|[<-|[]]]; eexists; split; reflexivity.
  - vm_compute. reflexivity.
  - intros row [<-|[<-|[]]]; (split; [discriminate|reflexivity]).
Defined.

(** ** The title of a search *)

(** X26.  When no key of [flatFilters] is [taxRate] and every value shows as
    it is (its key calls for no display name, or none is found), the title
    that [getSearchHeaderTitle] builds is [type:] and [status:] followed by
    what [buildFilterString] writes for each key, in the order of the keys of
    [flatFilters]; [sortBy], [sortOrder] and [policyID] are not in it. *)
Theorem getSearchHeaderTitle_plain
    (Report : Type) (getReportName : option Report -> string)
    (personalDetails : gmap string PersonalDetails) (cardList : list (string * Card))
    (reports : gmap string Report) (TaxRates : list (string * list string))
    (queryJSON : SearchQueryJSON) :
  List.NoDup (Object_keys (flatFilters queryJSON)) ->
  (forall key queryFilter constraint,
     In (key, queryFilter) (flatFilters queryJSON) -> In constraint queryFilter ->
     key <> TAX_RATE
     /\ getDisplayValue Report getReportName personalDetails cardList reports key
          (value constraint)
        = value constraint) ->
  getSearchHeaderTitle Report getReportName personalDetails cardList reports TaxRates queryJSON
  = fold_left
      (fun title '(key, queryFilter) => title +:+ buildFilterString key queryFilter)
      (flatFilters queryJSON)
      ("type:" +:+ type queryJSON +:+ " status:" +:+ status queryJSON).
Proof.
  intros Hnodup Hplain. unfold getSearchHeaderTitle.
  generalize ("type:" +:+ type queryJSON +:+ " status:" +:+ status queryJSON) as title.
  assert (Hsuffix : forall entries,
             (forall entry, In entry entries -> In entry (flatFilters queryJSON)) ->
             forall title,
               fold_left
                 (fun title key =>
                    title +:+ buildFilterString key
                      (displayQueryFilters Report getReportName personalDetails cardList
                         reports TaxRates key
                         (default [] (Record_get (flatFilters queryJSON) key))))
                 (Object_keys entries) title
               = fold_left
                   (fun title '(key, queryFilter) => title +:+ buildFilterString key queryFilter)
                   entries title).
  { induction entries as [|[key queryFilter] entries IH]; intros Hin title; [reflexivity|].
    cbn [Object_keys map fst fold_left].
    assert (Hentry : In (key, queryFilter) (flatFilters queryJSON)) by (apply Hin; now left).
    rewrite (Record_get_NoDup _ _ _ Hnodup Hentry). cbn [default from_option id].
    assert (Hdisplay : displayQueryFilters Report getReportName personalDetails cardList
                         reports TaxRates key queryFilter = queryFilter).
    { unfold displayQueryFilters.
      destruct (String.eqb_spec key TAX_RATE) as [->|_].
      - destruct queryFilter as [|constraint rest]; [reflexivity|].
        now destruct (proj1 (Hplain _ _ constraint Hentry (or_introl eq_refl))).
      - rewrite <- (List.map_id queryFilter) at 2. apply List.map_ext_in.
        intros [constraintOperator constraintValue] Hconstraint. cbn [operator value].
        f_equal. exact (proj2 (Hplain _ _ _ Hentry Hconstraint)). }
    rewrite Hdisplay. apply (IH (fun entry Hentry' => Hin entry (or_intror Hentry'))). }
  intros title. apply (Hsuffix (flatFilters queryJSON)). auto.
Qed.

Lemma getSearchHeaderTitle_plain_witness :
  let queryJSON :=
    {| type := "expense"; status := "all"; sortBy := "date"; sortOrder := "desc";
       policyID := Some "P1"%string; filters := None;
       flatFilters :=
         [("category"%string, [{| operator := EQUAL_TO; value := "A" |};
                               {| operator := EQUAL_TO; value := "B" |}]);
          ("amount"%string, [{| operator := GREATER_THAN; value := "100" |}])];
       inputQuery := EmptyString; hash := 0 |} in
  getSearchHeaderTitle unit (fun _ => EmptyString) ∅ [] ∅ [] queryJSON
  = "type:expense status:all category:A,B amount>100"%string.
Proof.
  intros queryJSON.
  rewrite (getSearchHeaderTitle_plain unit (fun _ => EmptyString) ∅ [] ∅ [] queryJSON).
  - reflexivity.
  - repeat constructor; cbn; intuition discriminate.
  - intros key queryFilter constraint [[= <- <-]|[[= <- <-]|[]]] Hconstraint;
      (split; [discriminate|reflexivity]).
Defined.

(** ** Rows that tie keep their order *)

(** [sort] calls the comparator with an element that stood later in the
    array first and one that stood earlier second: two comparators that agree
    on such pairs sort alike. *)
Section ArraySortCalls.
Context {B : Type}.
Variable position : B -> nat.
Variables comparefn1 comparefn2 : B -> B -> Z.
Hypothesis comparefn_agree :
  forall x y, (position y < position x)%nat -> comparefn1 x y = comparefn2 x y.






End ArraySortCalls.



(** A comparator that agrees with a transitive relation, and answers below
    zero only for elements that do not tie, sorts stably: elements that tie
    come out in the order in which they stood. *)
Section ArraySortStable.
Context {A : Type}.
Variable comparefn : A -> A -> Z.
Variable R : A -> A -> Prop.
Hypothesis R_trans : forall a b c, R a b -> R b c -> R a c.


End ArraySortStable.




(** ** The standard query, as a tree *)

Lemma nodesOf_S (fuel : nat) (heap : gmap NodeRef ASTObject) (node : NodeRef)
    (refs : list NodeRef) :
  nodesOf (S fuel) heap node = Some refs <->
  exists obj refsLeft refsRight,
    heap !! node = Some obj
    /\ match o_left obj with
       | LeftRef l => nodesOf fuel heap l
       | LeftStr _ => Some []
       end = Some refsLeft
    /\ match o_right obj with
       | RightRef r => nodesOf fuel heap r
       | _ => Some []
       end = Some refsRight
    /\ refs = node :: refsLeft ++ refsRight.
Proof.
  cbn [nodesOf]. split.
  - destruct (heap !! node) as [obj|]; cbn [mbind option_bind]; [|discriminate].
    destruct (match o_left obj with LeftRef _ => _ | LeftStr _ => _ end)
      as [refsLeft|] eqn:Hl; cbn [mbind option_bind]; [|discriminate].
    destruct (match o_right obj with RightRef _ => _ | _ => _ end)
      as [refsRight|] eqn:Hr; cbn [mbind option_bind]; [|discriminate].
    intros [= <-]. exists obj, refsLeft, refsRight. auto.
  - intros (obj & refsLeft & refsRight & -> & Hl & Hr & ->). cbn [mbind option_bind].
    rewrite Hl. cbn [mbind option_bind]. rewrite Hr. reflexivity.
Qed.

(** A tree that can be read takes up references. *)
Lemma readTree_nodesOf (fuel : nat) :
  forall (heap : gmap NodeRef ASTObject) (node : NodeRef) (tree : ASTNode),
    readTree fuel heap node = Some tree -> exists refs, nodesOf fuel heap node = Some refs.
Proof.
  induction fuel as [|fuel IH]; intros heap node tree Hread; [discriminate|].
  apply readTree_S in Hread.
  destruct Hread as (obj & treeLeft & treeRight & Hnode & Hl & Hr & _).
  assert (HL : exists refsLeft,
             match o_left obj with
             | LeftRef l => nodesOf fuel heap l
             | LeftStr _ => Some []
             end = Some refsLeft).
  { unfold readLeft in Hl. destruct (o_left obj) as [l|s]; [|eauto].
    destruct (readTree fuel heap l) as [t|] eqn:Ht; [|discriminate]. eapply IH; eassumption. }
  assert (HR : exists refsRight,
             match o_right obj with
             | RightRef r => nodesOf fuel heap r
             | _ => Some []
             end = Some refsRight).
  { unfold readRight in Hr. destruct (o_right obj) as [r|s|elements]; [|eauto|eauto].
    destruct (readTree fuel heap r) as [t|] eqn:Ht; [|discriminate]. eapply IH; eassumption. }
  destruct HL as [refsLeft HL], HR as [refsRight HR].
  eexists. apply nodesOf_S. exists obj, refsLeft, refsRight. auto.
Qed.

(** A tree is read off the objects at its references alone. *)
Lemma readTree_agree (fuel : nat) :
  forall (heap heap1 : gmap NodeRef ASTObject) (node : NodeRef) (refs : list NodeRef),
    nodesOf fuel heap node = Some refs ->
    (forall ref, In ref refs -> heap1 !! ref = heap !! ref) ->
    readTree fuel heap1 node = readTree fuel heap node
    /\ nodesOf fuel heap1 node = Some refs.
Proof.
  induction fuel as [|fuel IH]; intros heap heap1 node refs Hrefs Hagree; [discriminate|].
  apply nodesOf_S in Hrefs.
  destruct Hrefs as (obj & refsLeft & refsRight & Hnode & Hl & Hr & ->).
  assert (Hnode1 : heap1 !! node = Some obj) by (rewrite Hagree; [exact Hnode|now left]).
  assert (HL : readLeft (readTree fuel heap1) (o_left obj)
               = readLeft (readTree fuel heap) (o_left obj)
               /\ match o_left obj with
                  | LeftRef l => nodesOf fuel heap1 l
                  | LeftStr _ => Some []
                  end = Some refsLeft).
  { unfold readLeft. destruct (o_left obj) as [l|s]; [|auto].
    destruct (IH heap heap1 l refsLeft Hl) as [-> ->]; [|auto].
    intros ref Href. apply Hagree. right. apply in_or_app. now left. }
  assert (HR : readRight (readTree fuel heap1) (o_right obj)
               = readRight (readTree fuel heap) (o_right obj)
               /\ match o_right obj with
                  | RightRef r => nodesOf fuel heap1 r
                  | _ => Some []
                  end = Some refsRight).
  { unfold readRight. destruct (o_right obj) as [r|s|elements]; [|auto|auto].
    destruct (IH heap heap1 r refsRight Hr) as [-> ->]; [|auto].
    intros ref Href. apply Hagree. right. apply in_or_app. now right. }
  destruct HL as [HL1 HL2], HR as [HR1 HR2]. split.
  - cbn [readTree]. rewrite Hnode, Hnode1. cbn [mbind option_bind]. now rewrite HL1, HR1.
  - apply nodesOf_S. exists obj, refsLeft, refsRight. auto.
Qed.

Section StandardizeRefines.
Variable ext : Externals.
Variable cardList : list (string * Card).
Variable taxRates : gmap string (list string).

(** On a constraint whose right-hand side is a string or an array, the walk
    assigns what [standardizeRight] says. *)
Lemma findIDFromDisplayValue_standardizeRight (filterName : string) (rightValue : RightValue)
    (nodeRight : ASTRight) :
  readRight (fun _ => None) rightValue = Some nodeRight ->
  exists newRight,
    findIDFromDisplayValue ext cardList taxRates filterName rightValue = JS.Normal newRight
    /\ (forall read, readRight read newRight
                     = Some (standardizeRight ext cardList taxRates filterName nodeRight))
    /\ forall node, newRight <> RightRef node.
Proof.
  intros Hread.
  assert (Hvalue : forall node, rightValue <> RightRef node).
  { intros node ->. discriminate Hread. }
  destruct (findIDFromDisplayValue_value ext cardList taxRates filterName rightValue Hvalue)
    as [newRight Hnew].
  pose proof (findIDFromDisplayValue_sameOrValue ext cardList taxRates _ _ _ Hnew) as Hsame.
  assert (Hnot : forall node, newRight <> RightRef node).
  { destruct Hsame as [->|Hsame]; assumption. }
  exists newRight. split; [exact Hnew|]. split; [|exact Hnot].
  intros read. unfold standardizeRight.
  destruct rightValue as [node|s|elements]; [destruct (Hvalue node eq_refl)| |];
    cbn [readRight] in Hread; injection Hread as <-; rewrite Hnew;
    (destruct newRight as [node| |]; [destruct (Hnot node eq_refl)| |]); reflexivity.
Qed.

(** The walk of [standardizeQueryJSON] over a tree in the heap whose
    constraints have values on their right and whose nodes are met once
    each: it returns, and the tree is then the standard form of what it
    was; nothing else in the heap has changed. *)
Lemma standardize_traverse_refines (fuel : nat) :
  forall (node : NodeRef) (heap : gmap NodeRef ASTObject) (tree : ASTNode)
         (refs : list NodeRef),
    readTree fuel heap node = Some tree -> leafShaped tree = true ->
    nodesOf fuel heap node = Some refs -> List.NoDup refs ->
    exists heap',
      standardize_traverse ext cardList taxRates fuel node heap = Returns tt heap'
      /\ readTree fuel heap' node = Some (standardizeTree ext cardList taxRates tree)
      /\ nodesOf fuel heap' node = Some refs
      /\ forall other, ~ In other refs -> heap' !! other = heap !! other.
Proof.
  induction fuel as [|fuel IH]; intros node heap tree refs Hread Hleaf Hrefs Hnodup;
    [discriminate|].
  apply readTree_S in Hread.
  destruct Hread as (obj & treeLeft & treeRight & Hnode & Hl & Hr & ->).
  apply nodesOf_S in Hrefs.
  destruct Hrefs as (obj' & refsLeft & refsRight & Hnode' & HrefsL & HrefsR & ->).
  rewrite Hnode in Hnode'. injection Hnode' as <-.
  apply leafShaped_node in Hleaf. destruct Hleaf as (Hvalue & HleafL & HleafR).
  apply List.NoDup_cons_iff in Hnodup. destruct Hnodup as [Hfresh Hnodup].
  apply NoDup_ListNoDup, NoDup_app in Hnodup.
  destruct Hnodup as (HnodupL & Hdisjoint & HnodupR).
  apply NoDup_ListNoDup in HnodupL, HnodupR.
  assert (HfreshL : ~ In node refsLeft) by (intros H; apply Hfresh, in_or_app; now left).
  assert (HfreshR : ~ In node refsRight) by (intros H; apply Hfresh, in_or_app; now right).
  cbn [standardize_traverse]. rewrite Hnode.
  destruct (o_operator obj) as [nodeOperator|] eqn:Hoperator.
  2:{ exists heap. split; [reflexivity|]. split; [|split; [|reflexivity]].
      - apply readTree_S. exists obj, treeLeft, treeRight. rewrite Hoperator. auto.
      - apply nodesOf_S. exists obj, refsLeft, refsRight. auto. }
  destruct (o_left obj) as [l|filterName] eqn:Hleft.
  - (* a node over subtrees *)
    unfold readLeft in Hl.
    destruct (readTree fuel heap l) as [leftTree|] eqn:HleftTree; [|discriminate].
    injection Hl as <-.
    destruct (IH l heap leftTree refsLeft HleftTree (HleafL leftTree eq_refl) HrefsL HnodupL)
      as (heap1 & Hrun1 & Hread1 & Hrefs1 & Hframe1).
    rewrite Hrun1.
    assert (Hnode1 : heap1 !! node = Some obj) by (rewrite Hframe1; assumption).
    rewrite Hnode1.
    destruct (o_right obj) as [r|s|elements] eqn:Hright.
    + unfold readRight in Hr.
      destruct (readTree fuel heap r) as [rightTree|] eqn:HrightTree; [|discriminate].
      injection Hr as <-.
      destruct (readTree_agree fuel heap heap1 r refsRight HrefsR) as [HreadR1 HrefsR1].
      { intros ref Href. apply Hframe1. intros HrefL.
        apply (Hdisjoint ref); now apply list_elem_of_In. }
      rewrite HrightTree in HreadR1.
      destruct (IH r heap1 rightTree refsRight HreadR1 (HleafR rightTree eq_refl)
                  HrefsR1 HnodupR)
        as (heap2 & Hrun2 & Hread2 & Hrefs2 & Hframe2).
      rewrite Hrun2.
      assert (Hnode2 : heap2 !! node = Some obj) by (rewrite Hframe2; assumption).
      rewrite Hnode2, Hleft.
      destruct (readTree_agree fuel heap1 heap2 l refsLeft Hrefs1) as [HreadL2 HrefsL2].
      { intros ref Href. apply Hframe2. intros HrefR.
        apply (Hdisjoint ref); now apply list_elem_of_In. }
      rewrite Hread1 in HreadL2.
      exists heap2. split; [reflexivity|]. split; [|split].
      * apply readTree_S. eexists obj, _, _. split; [exact Hnode2|].
        rewrite Hleft, Hright. unfold readLeft, readRight. rewrite HreadL2, Hread2.
        repeat split. now rewrite Hoperator.
      * apply nodesOf_S. exists obj, refsLeft, refsRight. rewrite Hleft, Hright. auto.
      * intros other Hother.
        rewrite Hframe2, Hframe1; [reflexivity| |];
          intros H; apply Hother; right; apply in_or_app; auto.
    + cbn [readRight] in Hr. injection Hr as <-. injection HrefsR as <-.
      rewrite Hnode1, Hleft.
      exists heap1. split; [reflexivity|]. split; [|split].
      * apply readTree_S. eexists obj, _, _. split; [exact Hnode1|].
        rewrite Hleft, Hright. unfold readLeft, readRight. rewrite Hread1.
        repeat split. now rewrite Hoperator.
      * apply nodesOf_S. exists obj, refsLeft, []. rewrite Hleft, Hright. auto.
      * intros other Hother. apply Hframe1.
        intros H; apply Hother; right; apply in_or_app; auto.
    + cbn [readRight] in Hr. injection Hr as <-. injection HrefsR as <-.
      rewrite Hnode1, Hleft.
      exists heap1. split; [reflexivity|]. split; [|split].
      * apply readTree_S. eexists obj, _, _. split; [exact Hnode1|].
        rewrite Hleft, Hright. unfold readLeft, readRight. rewrite Hread1.
        repeat split. now rewrite Hoperator.
      * apply nodesOf_S. exists obj, refsLeft, []. rewrite Hleft, Hright. auto.
      * intros other Hother. apply Hframe1.
        intros H; apply Hother; right; apply in_or_app; auto.
  - (* a constraint *)
    cbn [readLeft] in Hl. injection Hl as <-. injection HrefsL as <-.
    rewrite Hnode.
    assert (Hvalues : readRight (fun _ => None) (o_right obj) = Some treeRight
                      /\ refsRight = []).
    { destruct (o_right obj) as [r|s|elements] eqn:Hright.
      - exfalso. unfold readRight in Hr.
        destruct (readTree fuel heap r) as [rightTree|]; [|discriminate].
        injection Hr as <-. exact (Hvalue filterName rightTree eq_refl eq_refl).
      - injection HrefsR as <-. auto.
      - injection HrefsR as <-. auto. }
    destruct Hvalues as [HrightValue ->].
    assert (Hright : match o_right obj with
                     | RightRef r => standardize_traverse ext cardList taxRates fuel r heap
                     | _ => Returns tt heap
                     end = Returns tt heap).
    { destruct (o_right obj); [discriminate HrightValue|reflexivity|reflexivity]. }
    rewrite Hright, Hnode, Hleft.
    destruct (findIDFromDisplayValue_standardizeRight filterName (o_right obj) treeRight
                HrightValue)
      as (newRight & Hnew & Hstandard & Hnot).
    rewrite Hnew.
    eexists. split; [reflexivity|]. split; [|split].
    + apply readTree_S. eexists _, _, _. split; [apply lookup_insert_eq|].
      cbn [o_left o_right o_operator readLeft]. rewrite Hstandard, Hoperator.
      repeat split. cbn [standardizeTree].
      destruct treeRight as [rightNode| |]; [|reflexivity|reflexivity].
      destruct (o_right obj); discriminate HrightValue.
    + apply nodesOf_S. eexists _, [], []. split; [apply lookup_insert_eq|].
      cbn [o_left o_right]. split; [reflexivity|]. split; [|reflexivity].
      destruct newRight as [r| |]; [destruct (Hnot r eq_refl)| |]; reflexivity.
    + intros other Hother. rewrite lookup_insert_ne; [reflexivity|].
      intros <-. apply Hother. now left.
Qed.
End StandardizeRefines.

Lemma nodesOf_dom (fuel : nat) :
  forall (heap : gmap NodeRef ASTObject) (node : NodeRef) (refs : list NodeRef),
    nodesOf fuel heap node = Some refs ->
    forall ref, In ref refs -> heap !! ref <> None.
Proof.
  induction fuel as [|fuel IH]; intros heap node refs Hrefs; [discriminate|].
  apply nodesOf_S in Hrefs.
  destruct Hrefs as (obj & refsLeft & refsRight & Hnode & Hl & Hr & ->).
  intros ref [<-|Href]; [congruence|].
  apply in_app_or in Href. destruct Href as [Href|Href].
  - destruct (o_left obj) as [l|s]; [eapply IH; eassumption|].
    injection Hl as <-. destruct Href.
  - destruct (o_right obj) as [r|s|elements]; [eapply IH; eassumption| |];
      injection Hr as <-; destruct Href.
Qed.

Lemma nodesOf_weaken (fuel : nat) (heap heap' : gmap NodeRef ASTObject) (node : NodeRef)
    (refs : list NodeRef) :
  heap ⊆ heap' -> nodesOf fuel heap node = Some refs -> nodesOf fuel heap' node = Some refs.
Proof.
  intros Hsub Hrefs. apply (readTree_agree fuel heap heap' node refs Hrefs).
  intros ref Href.
  destruct (heap !! ref) as [obj|] eqn:Hobj.
  - exact (lookup_weaken _ _ _ _ Hobj Hsub).
  - destruct (nodesOf_dom fuel heap node refs Hrefs ref Href Hobj).
Qed.

(** [cloneDeep] builds the copy of a tree out of objects that were not
    there, one for each node. *)
Lemma cloneDeep_node_fresh (fuel : nat) :
  forall (node : NodeRef) (heap : gmap NodeRef ASTObject) (tree : ASTNode),
    readTree fuel heap node = Some tree ->
    exists clone heap' refs,
      cloneDeep_node fuel node heap = Some (clone, heap')
      /\ heap ⊆ heap'
      /\ readTree fuel heap' clone = Some tree
      /\ nodesOf fuel heap' clone = Some refs
      /\ List.NoDup refs
      /\ forall ref, In ref refs -> heap !! ref = None.
Proof.
  induction fuel as [|fuel IH]; intros node heap tree Hread; [discriminate|].
  apply readTree_S in Hread.
  destruct Hread as (obj & treeLeft & treeRight & Hnode & Hl & Hr & ->).
  cbn [cloneDeep_node]. rewrite Hnode. cbn [mbind option_bind].
  (* the left-hand side *)
  assert (HL : exists newLeft heap1 refsLeft,
             match o_left obj with
             | LeftRef l => '(l', h) ← cloneDeep_node fuel l heap; Some (LeftRef l', h)
             | LeftStr s => Some (LeftStr s, heap)
             end = Some (newLeft, heap1)
             /\ heap ⊆ heap1
             /\ readLeft (readTree fuel heap1) newLeft = Some treeLeft
             /\ match newLeft with
                | LeftRef l => nodesOf fuel heap1 l
                | LeftStr _ => Some []
                end = Some refsLeft
             /\ List.NoDup refsLeft
             /\ forall ref, In ref refsLeft -> heap !! ref = None).
  { unfold readLeft in Hl. destruct (o_left obj) as [l|s].
    - destruct (readTree fuel heap l) as [leftTree|] eqn:HleftTree; [|discriminate].
      injection Hl as <-.
      destruct (IH l heap leftTree HleftTree)
        as (l' & heap1 & refsLeft & -> & Hsub & Hread' & Hrefs & Hnodup & Hfresh).
      exists (LeftRef l'), heap1, refsLeft. cbn [mbind option_bind readLeft].
      rewrite Hread'. split; [reflexivity|]. split; [exact Hsub|]. split; [reflexivity|]. auto.
    - injection Hl as <-. exists (LeftStr s), heap, [].
      split; [reflexivity|]. split; [reflexivity|]. split; [reflexivity|].
      split; [reflexivity|]. split; [constructor|intros ref []]. }
  destruct HL as (newLeft & heap1 & refsLeft & -> & Hsub1 & HreadL & HrefsL & HnodupL & HfreshL).
  cbn [mbind option_bind].
  (* the right-hand side *)
  assert (HR : exists newRight heap2 refsRight,
             match o_right obj with
             | RightRef r => '(r', h) ← cloneDeep_node fuel r heap1; Some (RightRef r', h)
             | RightStr s => Some (RightStr s, heap1)
             | RightArr elements => Some (RightArr elements, heap1)
             end = Some (newRight, heap2)
             /\ heap1 ⊆ heap2
             /\ readRight (readTree fuel heap2) newRight = Some treeRight
             /\ match newRight with
                | RightRef r => nodesOf fuel heap2 r
                | _ => Some []
                end = Some refsRight
             /\ List.NoDup refsRight
             /\ forall ref, In ref refsRight -> heap1 !! ref = None).
  { unfold readRight in Hr. destruct (o_right obj) as [r|s|elements].
    - destruct (readTree fuel heap r) as [rightTree|] eqn:HrightTree; [|discriminate].
      injection Hr as <-.
      destruct (IH r heap1 rightTree (readTree_weaken _ _ _ _ _ Hsub1 HrightTree))
        as (r' & heap2 & refsRight & -> & Hsub & Hread' & Hrefs & Hnodup & Hfresh).
      exists (RightRef r'), heap2, refsRight. cbn [mbind option_bind readRight].
      rewrite Hread'. split; [reflexivity|]. split; [exact Hsub|]. split; [reflexivity|]. auto.
    - injection Hr as <-. exists (RightStr s), heap1, [].
      split; [reflexivity|]. split; [reflexivity|]. split; [reflexivity|].
      split; [reflexivity|]. split; [constructor|intros ref []].
    - injection Hr as <-. exists (RightArr elements), heap1, [].
      split; [reflexivity|]. split; [reflexivity|]. split; [reflexivity|].
      split; [reflexivity|]. split; [constructor|intros ref []]. }
  destruct HR as (newRight & heap2 & refsRight & -> & Hsub2 & HreadR & HrefsR & HnodupR & HfreshR).
  cbn [mbind option_bind].
  set (clone := fresh (dom heap2)).
  assert (Hclone : heap2 !! clone = None) by (apply not_elem_of_dom, is_fresh).
  set (heap' := <[clone := mkASTObject (o_operator obj) newLeft newRight]> heap2).
  assert (Hsub' : heap2 ⊆ heap') by (apply insert_subseteq; exact Hclone).
  assert (HdomL : forall ref, In ref refsLeft -> heap1 !! ref <> None).
  { destruct newLeft as [l|s]; [exact (nodesOf_dom _ _ _ _ HrefsL)|].
    injection HrefsL as <-. intros ref []. }
  assert (HdomR : forall ref, In ref refsRight -> heap2 !! ref <> None).
  { destruct newRight as [r|s|elements]; [exact (nodesOf_dom _ _ _ _ HrefsR)| |];
      injection HrefsR as <-; intros ref []. }
  assert (Hdom12 : forall ref, heap1 !! ref <> None -> heap2 !! ref <> None).
  { intros ref Href. destruct (heap1 !! ref) as [o|] eqn:Ho; [|congruence].
    rewrite (lookup_weaken _ _ _ _ Ho Hsub2). discriminate. }
  exists clone, heap', (clone :: refsLeft ++ refsRight).
  split; [reflexivity|]. split; [etrans; [exact Hsub1|]; etrans; eassumption|].
  split; [|split; [|split]].
  - apply readTree_S. eexists _, treeLeft, treeRight.
    split; [apply lookup_insert_eq|]. cbn [o_left o_right o_operator].
    split; [|split; [|reflexivity]].
    + unfold readLeft in *. destruct newLeft as [l|s]; [|exact HreadL].
      destruct (readTree fuel heap1 l) as [t|] eqn:Ht; [|discriminate].
      rewrite (readTree_weaken fuel heap1 heap' l t); [exact HreadL| |exact Ht].
      etrans; eassumption.
    + unfold readRight in *. destruct newRight as [r|s|elements];
        [|exact HreadR|exact HreadR].
      destruct (readTree fuel heap2 r) as [t|] eqn:Ht; [|discriminate].
      now rewrite (readTree_weaken fuel heap2 heap' r t Hsub' Ht).
  - apply nodesOf_S. eexists _, refsLeft, refsRight.
    split; [apply lookup_insert_eq|]. cbn [o_left o_right].
    split; [|split; [|reflexivity]].
    + destruct newLeft as [l|s]; [|exact HrefsL].
      apply (nodesOf_weaken fuel heap1); [etrans; eassumption|exact HrefsL].
    + destruct newRight as [r|s|elements]; [|exact HrefsR|exact HrefsR].
      now apply (nodesOf_weaken fuel heap2).
  - constructor.
    + intros Hin. apply in_app_or in Hin. destruct Hin as [Hin|Hin].
      * exact (Hdom12 _ (HdomL _ Hin) Hclone).
      * exact (HdomR _ Hin Hclone).
    + apply List.NoDup_app; [exact HnodupL|exact HnodupR|].
      intros ref HrefL HrefR. exact (HdomL ref HrefL (HfreshR ref HrefR)).
  - intros ref [<-|Href].
    + destruct (heap !! clone) as [o|] eqn:Ho; [|reflexivity].
      assert (Hsome : heap2 !! clone = Some o).
      { apply (lookup_weaken heap); [exact Ho|]. etrans; eassumption. }
      congruence.
    + apply in_app_or in Href. destruct Href as [Href|Href]; [now apply HfreshL|].
      destruct (heap !! ref) as [o|] eqn:Ho; [|reflexivity].
      pose proof (lookup_weaken _ _ _ _ Ho Hsub1) as Hsome.
      rewrite (HfreshR ref Href) in Hsome. discriminate.
Qed.

(** X21.  Let the filters of [queryJSON] be a tree whose constraints have a
    string or an array on their right and none of whose nodes is shared.
    Then [standardizeQueryJSON] returns a query whose filter tree is the
    standard form of that tree, every constraint's right-hand side being what
    [findIDFromDisplayValue] gives for its key and value, and whose
    [flatFilters] are the constraints of the standard form in the order of
    the walk.  (The condition on shared nodes is the one under which the
    copy made here, node by node, is the one lodash makes, which keeps
    sharing.) *)
Theorem standardizeQueryJSON_standard_form
    (ext : Externals) (cardList : list (string * Card)) (taxRates : gmap string (list string))
    (fuel : nat) (queryJSON : QueryRef) (heap : Heap) (query : QueryObject)
    (root : NodeRef) (tree : ASTNode) (refs : list NodeRef) :
  queries heap !! queryJSON = Some query ->
  q_filters query = Some root ->
  readTree fuel (nodes heap) root = Some tree ->
  leafShaped tree = true ->
  nodesOf fuel (nodes heap) root = Some refs ->
  List.NoDup refs ->
  exists standardQuery heap' standard root',
    standardizeQueryJSON ext cardList taxRates fuel queryJSON heap
    = Standardized standardQuery heap'
    /\ queries heap' !! standardQuery = Some standard
    /\ q_filters standard = Some root'
    /\ readTree fuel (nodes heap') root'
       = Some (standardizeTree ext cardList taxRates tree)
    /\ q_flatFilters standard = traverse (standardizeTree ext cardList taxRates tree) [].
Proof.
  intros Hquery Hfilters Htree Hleaf _ _.
  unfold standardizeQueryJSON. rewrite Hquery, Hfilters.
  destruct (cloneDeep_node_fresh fuel root (nodes heap) tree Htree)
    as (root' & nodes1 & refs' & -> & _ & Htree1 & Hrefs1 & Hnodup1 & _).
  cbn [mbind option_bind].
  destruct (standardize_traverse_refines ext cardList taxRates fuel root' nodes1 tree refs'
              Htree1 Hleaf Hrefs1 Hnodup1)
    as (nodes2 & -> & Htree2 & _ & _).
  rewrite Htree2. cbn [fmap option_fmap option_map].
  eexists _, _, _, root'. split; [reflexivity|].
  cbn [queries nodes]. rewrite lookup_insert_eq.
  split; [reflexivity|]. cbn [q_filters q_flatFilters]. auto.
Qed.

Lemma standardizeQueryJSON_standard_form_witness :
  let tree :=
    mkASTNode (Some AND)
      (LeftNode (mkASTNode (Some EQUAL_TO) (LeftString "from")
                   (RightString "alice@example.com")))
      (RightNode (mkASTNode (Some EQUAL_TO) (LeftString "category") (RightArray ["A"%string]))) in
  standardizeTree sampleExternals [] ∅ tree
  = mkASTNode (Some AND)
      (LeftNode (mkASTNode (Some EQUAL_TO) (LeftString "from") (RightString "7")))
      (RightNode (mkASTNode (Some EQUAL_TO) (LeftString "category") (RightArray ["A"%string])))
  /\ exists standardQuery heap' standard root',
       standardizeQueryJSON sampleExternals [] ∅ 5 1%positive sampleHeap
       = Standardized standardQuery heap'
       /\ queries heap' !! standardQuery = Some standard
       /\ q_filters standard = Some root'
       /\ readTree 5 (nodes heap') root' = Some (standardizeTree sampleExternals [] ∅ tree)
       /\ q_flatFilters standard = traverse (standardizeTree sampleExternals [] ∅ tree) [].
Proof.
  intros tree. split; [vm_compute; reflexivity|].
  eapply (standardizeQueryJSON_standard_form sampleExternals [] ∅ 5 1%positive sampleHeap
            _ 1%positive tree [1; 2; 3]%positive).
  - vm_compute. reflexivity.
  - reflexivity.
  - vm_compute. reflexivity.
  - reflexivity.
  - vm_compute. reflexivity.
  - repeat constructor; cbn; intuition discriminate.
Defined.

(** ** The hash a query carries *)

Lemma Object_keys_map {V W : Type} (f : V -> W) (o : list (string * V)) :
  Object_keys (map (fun '(key, v) => (key, f v)) o) = Object_keys o.
Proof.
  unfold Object_keys. rewrite List.map_map. apply List.map_ext. now intros [key v].
Qed.

Lemma compareFilterValues_again (constraints : list QueryFilter) :
  List.NoDup (map value constraints) ->
  JS.Array_sort compareFilterValues (JS.Array_sort compareFilterValues constraints)
  = JS.Array_sort compareFilterValues constraints.
Proof.
  intros Hnodup. apply Array_sort_isRun.
  apply (StronglySorted_isRun compareFilterValues
           (fun a b => string_lt (value a) (value b))).
  - intros a b _ _. unfold compareFilterValues, JS.string_gt, String.ltb, string_lt.
    destruct (String.compare (value a) (value b)); intros H; try discriminate; lia.
  - apply Array_sort_sorted.
    + intros a b c. apply string_lt_trans.
    + eapply List.NoDup_map_inv. exact Hnodup.
    + now apply compareFilterValues_consistent.
Qed.

(** X28.  The hash that [buildSearchQueryJSON] stores in the query it returns
    is the hash of that query: [getQueryHash] applied to the result gives
    [result.hash] again, provided no two constraints under one key of its
    [flatFilters] have the same value. *)
Theorem buildSearchQueryJSON_hash_again
    (ext : Externals) (searchParser_parse : string -> JS.Completion ParsedQuery)
    (query : string) (console : JS.Console) (result : SearchQueryJSON) :
  fst (buildSearchQueryJSON ext searchParser_parse query console) = JS.Normal (Some result) ->
  distinctValues (flatFilters result) ->
  getQueryHash ext result = hash result.
Proof.
  unfold buildSearchQueryJSON, JS.try_catch, JS.bind, JS.call, JS.console_error, JS.ret.
  destruct (searchParser_parse query) as [parsed|e]; cbn [fst]; [|discriminate].
  intros [= <-]. cbn [flatFilters hash]. intros Hdistinct.
  unfold getQueryHash. f_equal. unfold getOrderedQuery, flatFilters_afterHash.
  cbn [flatFilters type status sortBy sortOrder policyID]. rewrite Object_keys_map.
  unfold orderedQuery_rootKeys. cbn [type status sortBy sortOrder policyID].
  apply fold_left_ext. intros orderedQuery key. f_equal. f_equal.
  specialize (Hdistinct key). unfold flatFilters_afterHash in Hdistinct.
  cbn [flatFilters] in Hdistinct.
  rewrite Record_get_map in *.
  destruct (Record_get _ key) as [constraints|]; [|reflexivity].
  cbn [fmap option_fmap option_map default from_option id] in *.
  f_equal. apply compareFilterValues_again.
  specialize (Hdistinct _ eq_refl).
  eapply Permutation.Permutation_NoDup; [|exact Hdistinct].
  apply Permutation.Permutation_map, Array_sort_Permutation.
Qed.

Lemma buildSearchQueryJSON_hash_again_witness :
  let parser (_ : string) :=
    JS.Normal
      {| parsed_type := "expense"; parsed_status := "all";
         parsed_sortBy := "date"; parsed_sortOrder := "desc";
         parsed_policyID := None;
         parsed_filters :=
           Some (mkASTNode (Some EQUAL_TO) (LeftString "category")
                   (RightArray ["B"; "A"]%string)) |} in
  exists result,
    fst (buildSearchQueryJSON sampleExternals parser "category:B,A" []) = JS.Normal (Some result)
    /\ flatFilters result
       = [("category"%string, [{| operator := EQUAL_TO; value := "A" |};
                               {| operator := EQUAL_TO; value := "B" |}])]
    /\ getQueryHash sampleExternals result = hash result.
Proof.
  intros parser.
  assert (H : exists result,
             fst (buildSearchQueryJSON sampleExternals parser "category:B,A" [])
             = JS.Normal (Some result)
             /\ flatFilters result
                = [("category"%string, [{| operator := EQUAL_TO; value := "A" |};
                                        {| operator := EQUAL_TO; value := "B" |}])]).
  { vm_compute. eexists. split; reflexivity. }
  destruct H as (result & Hresult & Hflat).
  exists result. split; [exact Hresult|]. split; [exact Hflat|].
  apply (buildSearchQueryJSON_hash_again sampleExternals parser "category:B,A" [] result
           Hresult).
  rewrite Hflat. intros key constraints. cbn [Record_get].
  destruct (String.eqb "category" key); [|discriminate].
  intros [= <-]. repeat constructor; cbn; intuition discriminate.
Defined.

(** ** When normalizing is a fixed point *)

(** The string depends on the root values and on what [flatFilters] holds
    under each key only; what is written to the console plays no part. *)
Lemma buildSearchQueryString_same
    (ext : Externals) (searchParser_parse : string -> JS.Completion ParsedQuery)
    (query1 query2 : SearchQueryJSON) (console1 console2 : JS.Console) :
  type query1 = type query2 -> status query1 = status query2 ->
  sortBy query1 = sortBy query2 -> sortOrder query1 = sortOrder query2 ->
  policyID query1 = policyID query2 ->
  (forall key, Record_get (flatFilters query1) key = Record_get (flatFilters query2) key) ->
  fst (buildSearchQueryString ext searchParser_parse (Some query1) console1)
  = fst (buildSearchQueryString ext searchParser_parse (Some query2) console2).
Proof.
  intros Htype Hstatus HsortBy HsortOrder HpolicyID Hfilters.
  destruct (buildSearchQueryJSON_result ext searchParser_parse EmptyString console1 console2)
    as (defaultQueryJSON & Hdefault1 & Hdefault2 & _).
  unfold buildSearchQueryString, JS.bind.
  destruct (buildSearchQueryJSON ext searchParser_parse EmptyString console1) as [r1 c1].
  destruct (buildSearchQueryJSON ext searchParser_parse EmptyString console2) as [r2 c2].
  cbn [fst] in Hdefault1, Hdefault2. subst r1 r2.
  unfold JS.ret. cbn [fst]. f_equal. f_equal. f_equal.
  - apply List.flat_map_ext. intros key. unfold rootField.
    now rewrite Htype, Hstatus, HsortBy, HsortOrder, HpolicyID.
  - apply List.flat_map_ext. intros filterKey. now rewrite Hfilters.
Qed.

(** X29.  Normalizing twice, when it is sound.  Let [normalizeQuery] turn a
    query into [normalized], and let the parser read from [normalized] the
    root values it read from the query and, under each key, the same
    constraints in some order.  If no two constraints under a key have the
    same value, [normalizeQuery] turns [normalized] into itself. *)
Theorem normalizeQuery_fixed_point
    (ext : Externals) (searchParser_parse : string -> JS.Completion ParsedQuery)
    (query normalized : string) (parsed parsedAgain : ParsedQuery)
    (console console' : JS.Console) :
  fst (normalizeQuery ext searchParser_parse query console) = JS.Normal normalized ->
  searchParser_parse query = JS.Normal parsed ->
  searchParser_parse normalized = JS.Normal parsedAgain ->
  parsed_type parsedAgain = parsed_type parsed ->
  parsed_status parsedAgain = parsed_status parsed ->
  parsed_sortBy parsedAgain = parsed_sortBy parsed ->
  parsed_sortOrder parsedAgain = parsed_sortOrder parsed ->
  parsed_policyID parsedAgain = parsed_policyID parsed ->
  permutedFilters (parsedFilters parsed) (parsedFilters parsedAgain) ->
  distinctValues (parsedFilters parsed) ->
  fst (normalizeQuery ext searchParser_parse normalized console') = JS.Normal normalized.
Proof.
  intros Hnormalized Hparsed Hagain Htype Hstatus HsortBy HsortOrder HpolicyID
    (_ & _ & Hpermuted) Hdistinct.
  rewrite <- Hnormalized. clear Hnormalized.
  unfold normalizeQuery, JS.bind.
  unfold buildSearchQueryJSON, JS.try_catch, JS.bind, JS.call, JS.ret.
  rewrite Hparsed, Hagain.
  apply buildSearchQueryString_same; cbn [type status sortBy sortOrder policyID flatFilters];
    try assumption.
  intros key. unfold flatFilters_afterHash. cbn [flatFilters]. rewrite !Record_get_map.
  unfold getFilters. cbn [filters]. fold (parsedFilters parsed) (parsedFilters parsedAgain).
  specialize (Hpermuted key). specialize (Hdistinct key).
  destruct (Record_get (parsedFilters parsed) key) as [constraints|],
           (Record_get (parsedFilters parsedAgain) key) as [constraintsAgain|];
    try contradiction; [|reflexivity].
  cbn [fmap option_fmap option_map]. f_equal. symmetry.
  specialize (Hdistinct constraints eq_refl).
  apply (Array_sort_Permutation_eq compareFilterValues
           (fun a b => string_lt (value a) (value b))).
  - intros a b c. apply string_lt_trans.
  - intros a. apply string_lt_irrefl.
  - eapply List.NoDup_map_inv. exact Hdistinct.
  - now apply compareFilterValues_consistent.
  - exact Hpermuted.
Qed.

Lemma normalizeQuery_fixed_point_witness :
  let parser (_ : string) :=
    JS.Normal
      {| parsed_type := "expense"; parsed_status := "all";
         parsed_sortBy := "date"; parsed_sortOrder := "desc";
         parsed_policyID := None;
         parsed_filters :=
           Some (mkASTNode (Some EQUAL_TO) (LeftString "category")
                   (RightArray ["B"; "A"]%string)) |} in
  let normalized := "type:expense status:all sortBy:date sortOrder:desc  category:A,B"%string in
  fst (normalizeQuery sampleExternals parser "category:B,A" []) = JS.Normal normalized
  /\ fst (normalizeQuery sampleExternals parser normalized []) = JS.Normal normalized.
Proof.
  intros parser normalized.
  assert (Hfirst : fst (normalizeQuery sampleExternals parser "category:B,A" [])
                   = JS.Normal normalized) by (vm_compute; reflexivity).
  split; [exact Hfirst|].
  eapply (normalizeQuery_fixed_point sampleExternals parser "category:B,A" normalized
            _ _ [] [] Hfirst); try reflexivity.
  - split; [|split].
    + repeat constructor; cbn; intuition discriminate.
    + repeat constructor; cbn; intuition discriminate.
    + intros key. cbn [parsedFilters parsed_filters traverse].
      destruct (Record_get _ key); [reflexivity|exact I].
  - intros key constraints.
    change (parsedFilters _)
      with [("category"%string,
             [{| operator := EQUAL_TO; value := "B" |};
              {| operator := EQUAL_TO; value := "A" |}])].
    cbn [Record_get].
    destruct (String.eqb_spec "category" key) as [<-|Hcategory]; [|discriminate].
    intros [= <-]. repeat constructor; simpl; intuition discriminate.
Defined.
